(** * qp-mermaid: hierarchical resolver, validator, preprocessor and parser

    A shallow embedding of the TypeScript sources of the qp-mermaid
    extension:

    - [types/stateMachine.ts]              the data model,
    - [parser/qpMermaidParser.ts]          [QpMermaidParser] and
                                           [HierarchicalStateParser],
    - [validator/stateMachineValidator.ts] [StateMachineValidator],
    - [preprocessor/mermaidPreprocessor.ts] [MermaidPreprocessor],
    - [commands/validateCommand.ts]        the summary of the validate
                                           command,
    - [webview/previewPanel.ts]            the text that the preview
                                           preprocesses.

    JavaScript strings are modelled as [string] (sequences of 8-bit
    characters): the model covers ASCII input, where [\s], [\w], [trim]
    and [.] behave as defined below.  Objects that the source mutates in
    place are modelled by explicit state passing. *)

From Stdlib Require Import Ascii String List Arith Lia Bool DecimalString.
From stdpp Require Import base option list gmap strings.

#[local] Set Warnings "-clear-no-such-hyp".

Local Open Scope string_scope.
Local Open Scope list_scope.

(** ** JavaScript string primitives *)

(** Truthiness of a string: [s ? a : b] takes [b] exactly on the empty string. *)
Definition truthy (s : string) : bool :=
  match s with EmptyString => false | String _ _ => true end.

(** [s.split(sep)] for a one-character separator: never returns the empty array. *)
Fixpoint split (sep : ascii) (s : string) : list string :=
  match s with
  | EmptyString => [EmptyString]
  | String c s' =>
      if Ascii.eqb c sep then EmptyString :: split sep s'
      else match split sep s' with
           | [] => [String c EmptyString]
           | h :: t => String c h :: t
           end
  end.

(** [parts.join(sep)]. *)
Fixpoint join (sep : string) (l : list string) : string :=
  match l with
  | [] => EmptyString
  | [x] => x
  | x :: rest => x +:+ sep +:+ join sep rest
  end.

(** [s.startsWith(p)]. *)
Definition startsWith (s p : string) : bool := String.prefix p s.

(** [s.includes(sub)]. *)
Fixpoint includes (s sub : string) : bool :=
  String.prefix sub s ||
  match s with
  | EmptyString => false
  | String _ s' => includes s' sub
  end.

(** The template [`${base}.${n}`] guarded by the truthiness of [base]:
    [base ? `${base}.${n}` : n]. *)
Definition dotted (base n : string) : string :=
  if truthy base then base +:+ "." +:+ n else n.

(** ** Data model ([types/stateMachine.ts]) *)

Record Transition := MkTransition {
  event : string;
  target : string;
  guard : option string;
  action : option string;
  isInternal : option bool
}.

#[local] Unset Elimination Schemes.
Inductive State := MkState {
  name : string;
  parent : option string;
  entryActions : list string;
  exitActions : list string;
  transitions : list Transition;
  children : list State;
  isInitial : option bool;
  initialTransition : option Transition
}.
#[local] Set Elimination Schemes.

Inductive MachineType := QActive | QMsm | QHsm.

(** [Parameter] in the source. *)
Record EventParameter := MkParameter { par_type : string; par_name : string }.

Record Event := MkEvent {
  ev_name : string;
  ev_value : string;
  ev_parameters : option (list EventParameter)
}.

Record DataMember := MkDataMember {
  dm_type : string;
  dm_name : string;
  dm_comment : option string;
  dm_initialValue : option string
}.

Record StateMachine := MkStateMachine {
  sm_name : string;
  sm_type : MachineType;
  sm_priority : option Z;
  sm_stackSize : option Z;
  events : list Event;
  states : list State;
  initialState : string;
  dataMembers : list DataMember
}.

(** Truthiness of an optional boolean field ([child.isInitial],
    [transition.isInternal]). *)
Definition flag (b : option bool) : bool :=
  match b with Some true => true | _ => false end.

Definition set_target (t : Transition) (tgt : string) : Transition :=
  MkTransition (event t) tgt (guard t) (action t) (isInternal t).

(** ** HierarchicalStateParser ([parser/qpMermaidParser.ts]) *)

(** [this.stateMap.has(k)]. *)
Definition has (m : gmap string State) (k : string) : bool :=
  match m !! k with Some _ => true | None => false end.

(** [buildStateMap(states, parentPath)], one loop iteration.  The stored
    value is the state as it is when it is stored; the resolver only ever
    asks [has]. *)
Fixpoint buildStateMap_state (parentPath : string) (m : gmap string State)
    (s : State) : gmap string State :=
  let fullPath := dotted parentPath (name s) in
  let m1 := <[fullPath := s]> m in
  let m2 := if has m1 (name s) then m1 else <[name s := s]> m1 in
  fold_left (buildStateMap_state fullPath) (children s) m2.

Definition buildStateMap (sts : list State) (parentPath : string)
    (m : gmap string State) : gmap string State :=
  fold_left (buildStateMap_state parentPath) sts m.

(** The loop [for (let i = pathParts.length; i >= 0; i--)] of
    [resolveTarget], entered at index [i]. *)
Fixpoint scopeLoop (m : gmap string State) (pathParts : list string)
    (tgt : string) (i : nat) : option string :=
  let basePath := join "." (take i pathParts) in
  let candidatePath := dotted basePath tgt in
  if has m candidatePath then Some candidatePath
  else match i with
       | O => None
       | S j => scopeLoop m pathParts tgt j
       end.

Definition resolveTarget (m : gmap string State) (tgt fromPath : string) : string :=
  if String.eqb tgt "[*]" || startsWith tgt "[H" then tgt
  else if has m tgt then tgt
  else
    let pathParts := split "." fromPath in
    match scopeLoop m pathParts tgt (length pathParts) with
    | Some c => c
    | None =>
        let siblingPath :=
          join "." (take (length pathParts - 1) pathParts) +:+ "." +:+ tgt in
        if (1 <? length pathParts)%nat && has m siblingPath then siblingPath
        else tgt
    end.

Fixpoint resolveTransitions_state (m : gmap string State) (parentPath : string)
    (s : State) : State :=
  let currentPath := dotted parentPath (name s) in
  MkState (name s) (parent s) (entryActions s) (exitActions s)
    (map (fun t => set_target t (resolveTarget m (target t) currentPath))
         (transitions s))
    (map (resolveTransitions_state m currentPath) (children s))
    (isInitial s)
    (option_map (fun t => set_target t (resolveTarget m (target t) currentPath))
                (initialTransition s)).

Definition resolveTransitions (m : gmap string State) (sts : list State)
    (parentPath : string) : list State :=
  map (resolveTransitions_state m parentPath) sts.

Definition Q_INIT_SIG : string := "@Q_INIT_SIG".

(** [{ event: '@Q_INIT_SIG', target: n }]. *)
Definition initTo (n : string) : Transition :=
  MkTransition Q_INIT_SIG n None None None.

(** The target chosen by [setupInitialTransitions] for a state with
    children [cs]: [cs.find(child => child.isInitial)], else [cs[0]];
    [None] stands for the [undefined] that [cs[0]] is on an empty array. *)
Definition initialChild (cs : list State) : option State :=
  match find (fun c => flag (isInitial c)) cs with
  | Some c => Some c
  | None => head cs
  end.

Fixpoint setupInitialTransitions_state (s : State) : State :=
  let init :=
    match children s, initialTransition s with
    | _ :: _, None => option_map (fun c => initTo (name c)) (initialChild (children s))
    | _, it => it
    end in
  MkState (name s) (parent s) (entryActions s) (exitActions s) (transitions s)
    (map setupInitialTransitions_state (children s)) (isInitial s) init.

Definition setupInitialTransitions (sts : list State) : list State :=
  map setupInitialTransitions_state sts.

Definition set_states (sm : StateMachine) (sts : list State) : StateMachine :=
  MkStateMachine (sm_name sm) (sm_type sm) (sm_priority sm) (sm_stackSize sm)
    (events sm) sts (initialState sm) (dataMembers sm).

(** [parseHierarchicalStates(stateMachine)] on a resolver whose
    [stateMap] field holds [m]: returns the field after the call and the
    model after the call. *)
Definition parseHierarchicalStates (m : gmap string State) (sm : StateMachine)
    : gmap string State * StateMachine :=
  let m' := buildStateMap (states sm) "" m in
  let sts1 := resolveTransitions m' (states sm) "" in
  let sts2 := setupInitialTransitions sts1 in
  (m', set_states sm sts2).

(** [findLCA]: the loop over [i], as a walk down both arrays. *)
Fixpoint lcaLoop (path1Parts path2Parts : list string) (commonPath : string) : string :=
  match path1Parts, path2Parts with
  | a :: r1, b :: r2 =>
      if String.eqb a b
      then lcaLoop r1 r2 (if truthy commonPath then commonPath +:+ "." +:+ a else a)
      else commonPath
  | _, _ => commonPath
  end.

Definition findLCA (state1Path state2Path : string) : string :=
  lcaLoop (split "." state1Path) (split "." state2Path) "".

Record TransitionSequence := MkSeq {
  exitSequence : list string;
  entrySequence : list string;
  lca : string
}.

(** The [while (currentPath && currentPath !== lca)] loop; [None] when
    the fuel runs out before the loop ends. *)
Fixpoint exitLoop (fuel : nat) (lcaPath currentPath : string) (acc : list string)
    : option (list string) :=
  if truthy currentPath && negb (String.eqb currentPath lcaPath) then
    match fuel with
    | O => None
    | S f =>
        exitLoop f lcaPath (join "." (removelast (split "." currentPath)))
                 (acc ++ [currentPath])
    end
  else Some acc.

Definition entryLoop (lcaParts targetParts : list string) : list string :=
  map (fun i => join "." (take (S i) targetParts))
      (seq (length lcaParts) (length targetParts - length lcaParts)).

Definition calculateTransitionSequence (fromPath toPath : string)
    : option TransitionSequence :=
  let l := findLCA fromPath toPath in
  match exitLoop (length (split "." fromPath)) l fromPath [] with
  | None => None
  | Some ex =>
      let targetParts := split "." toPath in
      let lcaParts := if truthy l then split "." l else [] in
      Some (MkSeq ex (entryLoop lcaParts targetParts) l)
  end.

(** ** A backtracking matcher for the regular expressions of the sources

    The fragment the sources use: literals, character classes, greedy [*]
    and [+] on a class, greedy optional groups, capture groups, [^] and
    [$].  Matching follows the ECMAScript order of alternatives (longest
    repetition first, an optional group tried before it is skipped), so
    the first successful path is the one [String.prototype.match] reports. *)

Inductive regex :=
| Lit (s : string)
| Cls (p : ascii -> bool)
| Star (p : ascii -> bool)
| Plus (p : ascii -> bool)
| Seq (r1 r2 : regex)
| Opt (r : regex)
| Group (i : nat) (r : regex)
| Eol.

Definition captures := list (option string).

(** The characters consumed between the input [s] and its suffix [rest]. *)
Definition consumed (s rest : string) : string :=
  String.substring 0 (String.length s - String.length rest) s.

Fixpoint litMatch (l s : string) : option string :=
  match l, s with
  | EmptyString, _ => Some s
  | String a l', String b s' => if Ascii.eqb a b then litMatch l' s' else None
  | String _ _, EmptyString => None
  end.

Fixpoint starLoop {R} (p : ascii -> bool) (s : string) (k : string -> option R)
    : option R :=
  match s with
  | String a s' =>
      if p a then
        match starLoop p s' k with
        | Some r => Some r
        | None => k s
        end
      else k s
  | EmptyString => k s
  end.

Fixpoint rmatch {R} (r : regex) (s : string) (cs : captures)
    (k : string -> captures -> option R) : option R :=
  match r with
  | Lit l => match litMatch l s with Some s' => k s' cs | None => None end
  | Cls p => match s with
             | String a s' => if p a then k s' cs else None
             | EmptyString => None
             end
  | Star p => starLoop p s (fun s' => k s' cs)
  | Plus p => match s with
              | String a s' => if p a then starLoop p s' (fun s'' => k s'' cs) else None
              | EmptyString => None
              end
  | Seq r1 r2 => rmatch r1 s cs (fun s' cs' => rmatch r2 s' cs' k)
  | Opt r1 => match rmatch r1 s cs k with
              | Some x => Some x
              | None => k s cs
              end
  | Group i r1 => rmatch r1 s cs (fun s' cs' => k s' (<[i := Some (consumed s s')]> cs'))
  | Eol => match s with EmptyString => k s cs | String _ _ => None end
  end.

(** A regular expression literal: [anchored] is a leading [^], [groups]
    the number of capture groups. *)
Record RegExp := MkRegExp { anchored : bool; groups : nat; body : regex }.

(** A successful match: the text before it, the captures (index 0 is the
    whole match) and the text after it. *)
Record MatchResult := MkMatch {
  before : string;
  caps : captures;
  after : string
}.

Definition matchHere (re : RegExp) (pre s : string) : option MatchResult :=
  rmatch (body re) s (replicate (S (groups re)) None)
    (fun rest cs => Some (MkMatch pre (<[0 := Some (consumed s rest)]> cs) rest)).

Fixpoint searchFrom (re : RegExp) (pre s : string) : option MatchResult :=
  match matchHere re pre s with
  | Some r => Some r
  | None =>
      match s with
      | EmptyString => None
      | String a s' => searchFrom re (pre +:+ String a EmptyString) s'
      end
  end.

(** [s.match(re)] for a regular expression without the [g] flag. *)
Definition exec (re : RegExp) (s : string) : option MatchResult :=
  if anchored re then matchHere re "" s else searchFrom re "" s.

(** [match[i]]; [None] is [undefined]. *)
Definition capture (r : MatchResult) (i : nat) : option string :=
  match caps r !! i with Some c => c | None => None end.

(** [match[i]] where the group always takes part in a match. *)
Definition capture1 (r : MatchResult) (i : nat) : string :=
  match capture r i with Some c => c | None => "" end.

Definition is_ws (c : ascii) : bool := Ascii.is_space c.

Definition in_range (lo hi c : ascii) : bool :=
  (nat_of_ascii lo <=? nat_of_ascii c)%nat && (nat_of_ascii c <=? nat_of_ascii hi)%nat.

Definition is_upper (c : ascii) : bool := in_range "A" "Z" c.
Definition is_lower (c : ascii) : bool := in_range "a" "z" c.
Definition is_digit (c : ascii) : bool := in_range "0" "9" c.

(** [\w]. *)
Definition is_word (c : ascii) : bool :=
  is_upper c || is_lower c || is_digit c || Ascii.eqb c "_".

(** [.]: any character but a line terminator. *)
Definition is_dot (c : ascii) : bool :=
  negb (Ascii.eqb c "010" || Ascii.eqb c "013").

Definition is_not (x : ascii) (c : ascii) : bool := negb (Ascii.eqb c x).

Fixpoint trimStart (s : string) : string :=
  match s with
  | String c s' => if is_ws c then trimStart s' else s
  | EmptyString => EmptyString
  end.

Definition trimEnd (s : string) : string :=
  String.rev (trimStart (String.rev s)).

(** [s.trim()]. *)
Definition trim (s : string) : string := trimEnd (trimStart s).

(** [s.substring(n)]. *)
Fixpoint substringFrom (n : nat) (s : string) : string :=
  match n, s with
  | O, _ => s
  | S n', String _ s' => substringFrom n' s'
  | S _, EmptyString => EmptyString
  end.

(** [s.endsWith(p)]: [p] is one of the tails of [s]. *)
Fixpoint endsWith (s p : string) : bool :=
  String.eqb s p ||
  match s with
  | EmptyString => false
  | String _ s' => endsWith s' p
  end.

(** Truthiness of an optional object field. *)
Definition isSome {A} (o : option A) : bool :=
  match o with Some _ => true | None => false end.

(** The first [Some] that [f] gives along [l]: the shape of a [for] loop
    that returns from inside. *)
Fixpoint firstSome {A B} (f : A -> option B) (l : list A) : option B :=
  match l with
  | [] => None
  | x :: r => match f x with Some y => Some y | None => firstSome f r end
  end.

(** ** StateMachineValidator ([validator/stateMachineValidator.ts]) *)

Inductive Severity := error | warning | info.

Record Location := MkLocation {
  loc_state : option string;
  loc_transition : option string;
  loc_line : option nat
}.

Record ValidationError := MkValidationError {
  severity : Severity;
  message : string;
  location : option Location
}.

(** Each validator method below returns the diagnostics it pushes to
    [this.errors], in push order. *)
Definition addError (sev : Severity) (msg : string) (loc : option Location)
    : list ValidationError :=
  [MkValidationError sev msg loc].

Definition atState (p : string) : option Location :=
  Some (MkLocation (Some p) None None).

Definition atTransition (p e : string) : option Location :=
  Some (MkLocation (Some p) (Some e) None).

(** [findState(name, states)], one loop iteration. *)
Fixpoint findState_state (n : string) (s : State) : option State :=
  if String.eqb (name s) n then Some s
  else firstSome (findState_state n) (children s).

Definition findState (n : string) (sts : list State) : option State :=
  firstSome (findState_state n) sts.

(** [collectStateNames(states, names, prefix)], one loop iteration:
    the set [names] after it and the diagnostics pushed. *)
Fixpoint collectStateNames_state (pfx : string)
    (acc : gset string * list ValidationError) (s : State)
    : gset string * list ValidationError :=
  let fullName := dotted pfx (name s) in
  let errs :=
    if bool_decide (name s ∈ acc.1)
    then acc.2 ++ addError error ("Duplicate state name: " +:+ name s) (atState fullName)
    else acc.2 in
  fold_left (collectStateNames_state fullName) (children s) ({[name s]} ∪ acc.1, errs).

Definition collectStateNames (sts : list State) (names : gset string) (pfx : string)
    : gset string * list ValidationError :=
  fold_left (collectStateNames_state pfx) sts (names, []).

Definition validateBasicStructure (sm : StateMachine) : list ValidationError :=
  (if negb (truthy (sm_name sm)) || String.eqb (sm_name sm) "StateMachine"
   then addError warning "State machine should have a meaningful name" None else [])
  ++ (if negb (truthy (initialState sm))
      then addError error "State machine must have an initial state" None else [])
  ++ (if (length (states sm) =? 0)%nat
      then addError error "State machine must have at least one state" None else [])
  ++ (collectStateNames (states sm) ∅ "").2.

(** [/^[A-Z][a-zA-Z0-9]*$/]. *)
Definition re_stateName : RegExp :=
  MkRegExp true 0
    (Seq (Cls is_upper)
      (Seq (Star (fun c => is_lower c || is_upper c || is_digit c)) Eol)).

(** [/^[A-Z][A-Z0-9_]*$/]. *)
Definition re_eventName : RegExp :=
  MkRegExp true 0
    (Seq (Cls is_upper)
      (Seq (Star (fun c => is_upper c || is_digit c || Ascii.eqb c "_")) Eol)).

(** [re.test(s)]. *)
Definition test (re : RegExp) (s : string) : bool :=
  match exec re s with Some _ => true | None => false end.

Definition isValidStateName (n : string) : bool := test re_stateName n.
Definition isValidEventName (n : string) : bool := test re_eventName n.

Definition isSpecialTarget (tgt : string) : bool :=
  String.eqb tgt "[*]" || startsWith tgt "[H" || includes tgt "History".

(** [validateActions]: the [me->] branch pushes nothing. *)
Definition validateActions (s : State) (statePath : string) : list ValidationError :=
  flat_map (fun a =>
    if negb (endsWith a ")") && negb (endsWith a ";")
    then addError warning ("Action '" +:+ a +:+ "' should end with semicolon")
                  (atState statePath)
    else [])
    (entryActions s ++ exitActions s).

Fixpoint validateStates_state (parentPath : string) (s : State)
    : list ValidationError :=
  let statePath := dotted parentPath (name s) in
  let composite := negb (length (children s) =? 0)%nat in
  (if negb (isValidStateName (name s))
   then addError warning
          ("State name '" +:+ name s +:+ "' should start with uppercase and use CamelCase")
          (atState statePath)
   else [])
  ++ (if composite && negb (isSome (initialTransition s))
      then addError error
             ("Composite state '" +:+ name s +:+ "' must have an initial transition")
             (atState statePath)
      else [])
  ++ (if negb composite && isSome (initialTransition s)
      then addError warning
             ("State '" +:+ name s +:+ "' has initial transition but no child states")
             (atState statePath)
      else [])
  ++ validateActions s statePath
  ++ flat_map (validateStates_state statePath) (children s).

Definition validateStates (sts : list State) (parentPath : string)
    : list ValidationError :=
  flat_map (validateStates_state parentPath) sts.

(** A [for] loop whose body may stop the whole run ([None]). *)
Fixpoint foldOpt {A S} (f : S -> A -> option S) (l : list A) (s : S) : option S :=
  match l with
  | [] => Some s
  | x :: r => match f s x with Some s' => foldOpt f r s' | None => None end
  end.

(** [traverseFromState(stateName, allStates)] on the set
    [this.visitedStates]; [None] when the recursion is deeper than [fuel]. *)
Fixpoint traverseFromState (fuel : nat) (allStates : list State)
    (stateName : string) (visited : gset string) : option (gset string) :=
  match fuel with
  | O => None
  | S f =>
      if bool_decide (stateName ∈ visited) then Some visited
      else
        let visited1 := {[stateName]} ∪ visited in
        match findState stateName allStates with
        | None => Some visited1
        | Some st =>
            match foldOpt (fun v t =>
                             if negb (flag (isInternal t))
                             then traverseFromState f allStates (target t) v
                             else Some v)
                          (transitions st) visited1 with
            | None => None
            | Some v2 =>
                match initialTransition st with
                | Some t => traverseFromState f allStates (target t) v2
                | None => Some v2
                end
            end
        end
  end.

Fixpoint checkUnreachableStates_state (visited : gset string) (parentPath : string)
    (s : State) : list ValidationError :=
  let statePath := dotted parentPath (name s) in
  (if negb (bool_decide (name s ∈ visited)) && negb (String.eqb (name s) "[*]")
   then addError warning ("State '" +:+ name s +:+ "' is unreachable") (atState statePath)
   else [])
  ++ flat_map (checkUnreachableStates_state visited statePath) (children s).

Definition checkUnreachableStates (visited : gset string) (sts : list State)
    (parentPath : string) : list ValidationError :=
  flat_map (checkUnreachableStates_state visited parentPath) sts.

(** Every target string a traversal can be called on besides the initial
    state: the targets of the transitions and initial transitions of the
    tree. *)
Fixpoint targets_state (s : State) : list string :=
  map target (transitions s)
  ++ match initialTransition s with Some t => [target t] | None => [] end
  ++ flat_map targets_state (children s).

Definition allTargets (sts : list State) : list string :=
  flat_map targets_state sts.

(** The recursion of [traverseFromState] is never deeper than the number
    of distinct names it can be called on, plus one. *)
Definition traversalFuel (sm : StateMachine) : nat :=
  2 + length (allTargets (states sm)).

(** The set [this.visitedStates] once [checkReachability] has traversed. *)
Definition visitedStates (sm : StateMachine) : option (gset string) :=
  if truthy (initialState sm)
  then traverseFromState (traversalFuel sm) (states sm) (initialState sm) ∅
  else Some ∅.

Definition checkReachability (sm : StateMachine) : option (list ValidationError) :=
  match visitedStates sm with
  | Some visited => Some (checkUnreachableStates visited (states sm) "")
  | None => None
  end.

Definition countChar (c : ascii) (s : string) : nat :=
  length (filter (fun x => x = c) (list_ascii_of_string s)).

Definition validateGuard (g statePath ev : string) : list ValidationError :=
  (if negb (countChar "(" g =? countChar ")" g)%nat
   then addError error ("Unbalanced parentheses in guard: " +:+ g)
                 (atTransition statePath ev)
   else [])
  ++ (if includes g "=" && negb (includes g "==") && negb (includes g "<=")
         && negb (includes g ">=")
      then addError warning
             ("Possible assignment instead of comparison in guard: " +:+ g)
             (atTransition statePath ev)
      else []).

(** A list with the index of each element. *)
Definition indexed {A} (l : list A) : list (nat * A) :=
  combine (seq 0 (length l)) l.

(** [state.transitions.filter(t => t.event === transition.event &&
    t.guard === transition.guard && t !== transition)], where
    [transition] is the object at index [i]. *)
Definition duplicates (ts : list Transition) (i : nat) (tr : Transition)
    : list (nat * Transition) :=
  filter (fun jt => event jt.2 = event tr ∧ guard jt.2 = guard tr ∧ jt.1 ≠ i)
         (indexed ts).

(** The body of the loop over [state.transitions] in
    [validateStateTransitions]; [sts] is the array the enclosing call
    iterates over. *)
Definition validateTransition (sts : list State) (statePath : string)
    (ts : list Transition) (it : nat * Transition) : list ValidationError :=
  let tr := it.2 in
  (if negb (isSpecialTarget (target tr)) && negb (isSome (findState (target tr) sts))
   then addError error ("Transition target '" +:+ target tr +:+ "' does not exist")
                 (atTransition statePath (event tr))
   else [])
  ++ match guard tr with
     | Some g => if truthy g then validateGuard g statePath (event tr) else []
     | None => []
     end
  ++ (if (0 <? length (duplicates ts it.1 tr))%nat
      then addError error ("Duplicate transition for event '" +:+ event tr +:+ "'")
                    (atState statePath)
      else []).

Fixpoint validateStateTransitions_state (sts : list State) (parentPath : string)
    (s : State) : list ValidationError :=
  let statePath := dotted parentPath (name s) in
  flat_map (validateTransition sts statePath (transitions s)) (indexed (transitions s))
  ++ flat_map (validateStateTransitions_state (children s) statePath) (children s).

Definition validateStateTransitions (sts : list State) (parentPath : string)
    : list ValidationError :=
  flat_map (validateStateTransitions_state sts parentPath) sts.

Definition validateTransitions (sm : StateMachine) : list ValidationError :=
  validateStateTransitions (states sm) "".

Fixpoint hasTimeoutEvents_state (s : State) : bool :=
  existsb (fun t => String.eqb (event t) "TIMEOUT") (transitions s)
  || existsb hasTimeoutEvents_state (children s).

Definition hasTimeoutEvents (sts : list State) : bool :=
  existsb hasTimeoutEvents_state sts.

Definition validateQPConventions (sm : StateMachine) : list ValidationError :=
  flat_map (fun e =>
    (if negb (isValidEventName (ev_name e))
     then addError warning
            ("Event '" +:+ ev_name e +:+ "' should be in UPPER_CASE format") None
     else [])
    ++ (if negb (includes (ev_value e) "Q_USER_SIG")
        then addError warning
               ("Event '" +:+ ev_name e +:+ "' should be based on Q_USER_SIG") None
        else []))
    (events sm)
  ++ (if hasTimeoutEvents (states sm)
         && negb (existsb (fun d => String.eqb (dm_type d) "QTimeEvt") (dataMembers sm))
      then addError warning
             "State machine uses TIMEOUT events but has no QTimeEvt data member" None
      else []).

(** [validate(stateMachine)]: the array [this.errors] it returns. *)
Definition validate (sm : StateMachine) : option (list ValidationError) :=
  match checkReachability sm with
  | None => None
  | Some reach =>
      Some (validateBasicStructure sm
            ++ validateStates (states sm) ""
            ++ reach
            ++ validateTransitions sm
            ++ validateQPConventions sm)
  end.

(** ** MermaidPreprocessor ([preprocessor/mermaidPreprocessor.ts]) *)

(** The outcome of code that may throw. *)
Inductive Result (A : Type) :=
| Ok (a : A)
| TypeError.
Arguments Ok {A} a.
Arguments TypeError {A}.

Definition bindR {A B} (r : Result A) (f : A -> Result B) : Result B :=
  match r with Ok a => f a | TypeError => TypeError end.

Inductive HistoryType := deep | shallow.

Record InternalMeta := MkInternalMeta {
  im_event : string;
  im_action : option string
}.

(** The values stored in [this.metadata]: the object of a state block,
    of a transition, or of a history marker. *)
Inductive MetaEntry :=
| StateMeta (entry exit : list string) (internal : list InternalMeta)
| TransitionMeta (source tgt ev : string) (grd act : option string)
| HistoryMeta (historyType : HistoryType).

(** [metadata] is the map that the source returns rendered as JSON inside
    a comment block; the rendering itself is not modelled. *)
Record PreprocessResult := MkPreprocessResult {
  mermaidDiagram : string;
  metadata : gmap string MetaEntry
}.

(** The variables of one [preprocess] run.  [skipNextLine] is never set
    in the source and is left out. *)
Record PreState := MkPreState {
  pp_metadata : gmap string MetaEntry;
  stateCounter : nat;
  outputLines : list string;
  inStateBlock : bool;
  currentState : option string;
  stateIndent : string
}.

(** [/^state\s+(\w+)\s*{$/]. *)
Definition re_stateOpen : RegExp :=
  MkRegExp true 1
    (Seq (Lit "state") (Seq (Plus is_ws) (Seq (Group 1 (Plus is_word))
      (Seq (Star is_ws) (Seq (Lit "{") Eol))))).

(** [/^\s*/]. *)
Definition re_indent : RegExp := MkRegExp true 0 (Star is_ws).

(** [/:\s*(\w+)\s*(?:\/\s*(.+))?/]. *)
Definition re_internal : RegExp :=
  MkRegExp false 2
    (Seq (Lit ":") (Seq (Star is_ws) (Seq (Group 1 (Plus is_word)) (Seq (Star is_ws)
      (Opt (Seq (Lit "/") (Seq (Star is_ws) (Group 2 (Plus is_dot))))))))).

(** The pattern of [processTransition], written here with blanks between
    its parts:
    [^ ( \s* ) ( \w+ ) \s* --> \s* ( \w+ ) \s* : \s* ( [^[/]+ )
       (?: \s* \[ ( [^\]]+ ) \] )? (?: \s* \/ \s* ( .+ ) )? $]. *)
Definition re_transition : RegExp :=
  MkRegExp true 6
    (Seq (Group 1 (Star is_ws)) (Seq (Group 2 (Plus is_word)) (Seq (Star is_ws)
    (Seq (Lit "-->") (Seq (Star is_ws) (Seq (Group 3 (Plus is_word)) (Seq (Star is_ws)
    (Seq (Lit ":") (Seq (Star is_ws)
    (Seq (Group 4 (Plus (fun c => is_not "[" c && is_not "/" c)))
    (Seq (Opt (Seq (Star is_ws) (Seq (Lit "[") (Seq (Group 5 (Plus (is_not "]"))) (Lit "]")))))
    (Seq (Opt (Seq (Star is_ws) (Seq (Lit "/") (Seq (Star is_ws) (Group 6 (Plus is_dot))))))
     Eol)))))))))))).

(** [/\[H\*?\]/]. *)
Definition re_history : RegExp :=
  MkRegExp false 0 (Seq (Lit "[H") (Seq (Opt (Lit "*")) (Lit "]"))).

(** [s.replace(re, by)] for a replacement text without [$]. *)
Definition replace (re : RegExp) (s by_ : string) : string :=
  match exec re s with
  | Some r => before r +:+ by_ +:+ after r
  | None => s
  end.

(** The decimal numeral of [n], as in [`${n}`]. *)
Definition natToString (n : nat) : string :=
  DecimalString.NilZero.string_of_uint (Nat.to_uint n).

(** The check mark U+2713 in UTF-8. *)
Definition checkMark : string :=
  String (ascii_of_nat 226) (String (ascii_of_nat 156) (String (ascii_of_nat 147) "")).

(** [opt ? f(opt.trim()) : nothing] for an optional capture. *)
Definition trimmedIfTruthy (o : option string) : option string :=
  match o with
  | Some s => if truthy s then Some (trim s) else None
  | None => None
  end.

Definition truthyOpt (o : option string) : bool :=
  match o with Some s => truthy s | None => false end.

(** [processTransition(line)]: the map [this.metadata] after the call and
    the returned line. *)
Definition processTransition (md : gmap string MetaEntry) (line : string)
    : gmap string MetaEntry * string :=
  match exec re_transition line with
  | None => (md, line)
  | Some m =>
      let indent := capture1 m 1 in
      let src := capture1 m 2 in
      let tg := capture1 m 3 in
      let trimmedEvent := trim (capture1 m 4) in
      let g := capture m 5 in
      let a := capture m 6 in
      let transitionKey := src +:+ "_to_" +:+ tg +:+ "_" +:+ trimmedEvent in
      let transitionMeta :=
        TransitionMeta src tg trimmedEvent (trimmedIfTruthy g) (trimmedIfTruthy a) in
      let simplifiedLabel :=
        if truthyOpt g || truthyOpt a then trimmedEvent +:+ " " +:+ checkMark
        else trimmedEvent in
      (<[transitionKey := transitionMeta]> md,
       indent +:+ src +:+ " --> " +:+ tg +:+ " : " +:+ simplifiedLabel)
  end.

(** [this.metadata.get(k).entry.push(a)] and its [exit] and [internal]
    siblings: reading [.entry] of [undefined], or calling [.push] on the
    [undefined] field of an object without it, throws. *)
Definition pushEntry (md : gmap string MetaEntry) (k a : string)
    : Result (gmap string MetaEntry) :=
  match md !! k with
  | Some (StateMeta en ex it) => Ok (<[k := StateMeta (en ++ [a]) ex it]> md)
  | _ => TypeError
  end.

Definition pushExit (md : gmap string MetaEntry) (k a : string)
    : Result (gmap string MetaEntry) :=
  match md !! k with
  | Some (StateMeta en ex it) => Ok (<[k := StateMeta en (ex ++ [a]) it]> md)
  | _ => TypeError
  end.

Definition pushInternal (md : gmap string MetaEntry) (k : string) (i : InternalMeta)
    : Result (gmap string MetaEntry) :=
  match md !! k with
  | Some (StateMeta en ex it) => Ok (<[k := StateMeta en ex (it ++ [i])]> md)
  | _ => TypeError
  end.

Definition emit (st : PreState) (md : gmap string MetaEntry) (out : string) : PreState :=
  MkPreState md (stateCounter st) (outputLines st ++ [out]) (inStateBlock st)
    (currentState st) (stateIndent st).

(** The rules of the loop body below the state-block rules: arrow lines,
    history markers, pass-through. *)
Definition preprocessOther (st : PreState) (line trimmedLine : string) : PreState :=
  if includes trimmedLine "-->" then
    let r := processTransition (pp_metadata st) line in
    emit st r.1 r.2
  else if includes trimmedLine "[H]" || includes trimmedLine "[H*]" then
    let historyType := if includes trimmedLine "[H*]" then deep else shallow in
    let n := S (stateCounter st) in
    let stateName := "History_" +:+ natToString n in
    let processedLine := replace re_history line stateName in
    MkPreState (<[stateName := HistoryMeta historyType]> (pp_metadata st)) n
      (outputLines st ++ [processedLine]) (inStateBlock st) (currentState st)
      (stateIndent st)
  else emit st (pp_metadata st) line.

(** One iteration of the loop of [preprocess]. *)
Definition preprocessLine (st : PreState) (line : string) : Result PreState :=
  let trimmedLine := trim line in
  match exec re_stateOpen trimmedLine with
  | Some m =>
      let cur := capture1 m 1 in
      let ind := match exec re_indent line with
                 | Some mi => if truthy (capture1 mi 0) then capture1 mi 0 else ""
                 | None => ""
                 end in
      Ok (MkPreState (<[cur := StateMeta [] [] []]> (pp_metadata st)) (stateCounter st)
            (outputLines st ++ [line]) true (Some cur) ind)
  | None =>
      if inStateBlock st && String.eqb trimmedLine "}" then
        Ok (MkPreState (pp_metadata st) (stateCounter st) (outputLines st ++ [line])
              false None (stateIndent st))
      else
        match (if inStateBlock st then currentState st else None) with
        | Some cur =>
            if negb (truthy cur) then Ok (preprocessOther st line trimmedLine)
            else if startsWith trimmedLine "entry:" then
              let a := trim (substringFrom 6 trimmedLine) in
              bindR (pushEntry (pp_metadata st) cur a) (fun md =>
                Ok (emit st md (stateIndent st +:+ "    %% entry: " +:+ a)))
            else if startsWith trimmedLine "exit:" then
              let a := trim (substringFrom 5 trimmedLine) in
              bindR (pushExit (pp_metadata st) cur a) (fun md =>
                Ok (emit st md (stateIndent st +:+ "    %% exit: " +:+ a)))
            else if includes trimmedLine ":" && negb (includes trimmedLine "-->") then
              match exec re_internal trimmedLine with
              | Some m =>
                  bindR (pushInternal (pp_metadata st) cur
                           (MkInternalMeta (capture1 m 1) (capture m 2))) (fun md =>
                    Ok (emit st md (stateIndent st +:+ "    %% internal: " +:+ trimmedLine)))
              | None => Ok (preprocessOther st line trimmedLine)
              end
            else Ok (preprocessOther st line trimmedLine)
        | None => Ok (preprocessOther st line trimmedLine)
        end
  end.

(** The [for] loop of [preprocess]: an exception leaves it at once. *)
Fixpoint preprocessLoop (st : PreState) (lines : list string) : Result PreState :=
  match lines with
  | [] => Ok st
  | l :: rest => bindR (preprocessLine st l) (fun st' => preprocessLoop st' rest)
  end.

Definition newline : string := String "010" "".

(** The variables of [preprocess] before its loop. *)
Definition initialScan : PreState := MkPreState ∅ 0 [] false None "".

(** [preprocess(content)]: [this.metadata] and [this.stateCounter] are
    cleared on entry, so a run does not depend on earlier runs. *)
Definition preprocess (content : string) : Result PreprocessResult :=
  let lines := split "010" content in
  bindR (preprocessLoop initialScan lines) (fun st =>
    Ok (MkPreprocessResult (join newline (outputLines st)) (pp_metadata st))).

(** ** QpMermaidParser ([parser/qpMermaidParser.ts]) *)

(** A reference to a [State] object of the tree: the indices of the
    children to follow from the root array.  The parser only ever appends
    to [states] and [children] arrays, so a reference stays valid. *)
Definition StateRef := list nat.

Definition set_children (s : State) (cs : list State) : State :=
  MkState (name s) (parent s) (entryActions s) (exitActions s) (transitions s)
    cs (isInitial s) (initialTransition s).

(** The object behind a reference. *)
Fixpoint deref (r : StateRef) (sts : list State) : option State :=
  match r with
  | [] => None
  | i :: r' =>
      match sts !! i with
      | None => None
      | Some s => match r' with [] => Some s | _ => deref r' (children s) end
      end
  end.

(** Mutation of the object behind a reference. *)
Fixpoint mutate (f : State -> State) (r : StateRef) (sts : list State) : list State :=
  match r with
  | [] => sts
  | i :: r' =>
      match r' with
      | [] => alter f i sts
      | _ => alter (fun s => set_children s (mutate f r' (children s))) i sts
      end
  end.

(** [findState(name)] of the parser, returning the reference of the
    object found: the first state of that name in pre-order. *)
Fixpoint findRef_state (n : string) (s : State) : option StateRef :=
  if String.eqb (name s) n then Some []
  else
    (fix searchInStates (i : nat) (l : list State) : option StateRef :=
       match l with
       | [] => None
       | c :: rest =>
           match findRef_state n c with
           | Some r => Some (i :: r)
           | None => searchInStates (S i) rest
           end
       end) 0%nat (children s).

Fixpoint findRef_from (n : string) (i : nat) (l : list State) : option StateRef :=
  match l with
  | [] => None
  | c :: rest =>
      match findRef_state n c with
      | Some r => Some (i :: r)
      | None => findRef_from n (S i) rest
      end
  end.

Definition findRef (n : string) (sts : list State) : option StateRef :=
  findRef_from n 0 sts.

(** The fields of a [QpMermaidParser]; the top of [stateStack] is the
    head of the list.  [currentIndentLevel] is never used. *)
Record Parser := MkParser {
  stateMachine : StateMachine;
  stateStack : list StateRef
}.

(** The parser the constructor builds. *)
Definition newParser : Parser :=
  MkParser (MkStateMachine "StateMachine" QActive None None [] [] "" []) [].

Definition with_states (p : Parser) (sts : list State) : Parser :=
  MkParser (set_states (stateMachine p) sts) (stateStack p).

Definition push_child (c : State) (s : State) : State :=
  set_children s (children s ++ [c]).

(** [findOrCreateState(name)]: the parser after the call and the
    reference returned. *)
Definition findOrCreateState (p : Parser) (n : string) : Parser * StateRef :=
  let sts := states (stateMachine p) in
  match findRef n sts with
  | Some r => (p, r)
  | None =>
      match stateStack p with
      | top :: _ =>
          match deref top sts with
          | Some par =>
              let st := MkState n (Some (name par)) [] [] [] [] None None in
              (with_states p (mutate (push_child st) top sts),
               top ++ [length (children par)])
          | None => (p, top)
          end
      | [] =>
          let st := MkState n None [] [] [] [] None None in
          (with_states p (sts ++ [st]), [length sts])
      end
  end.

Definition push_entry (a : string) (s : State) : State :=
  MkState (name s) (parent s) (entryActions s ++ [a]) (exitActions s) (transitions s)
    (children s) (isInitial s) (initialTransition s).

Definition push_exit (a : string) (s : State) : State :=
  MkState (name s) (parent s) (entryActions s) (exitActions s ++ [a]) (transitions s)
    (children s) (isInitial s) (initialTransition s).

Definition push_transition (t : Transition) (s : State) : State :=
  MkState (name s) (parent s) (entryActions s) (exitActions s) (transitions s ++ [t])
    (children s) (isInitial s) (initialTransition s).

(** The pattern of [parseTransition], written with blanks between its
    parts:
    [( \w+ ) \s* --> \s* ( \w+ )
      (?: \s* : \s* ( \w+ ) (?: \s* \/ \s* ( [^[]+ ) )? (?: \s* \[ ( [^\]]+ ) \] )? )?]. *)
Definition re_parseTransition : RegExp :=
  MkRegExp false 5
    (Seq (Group 1 (Plus is_word)) (Seq (Star is_ws) (Seq (Lit "-->") (Seq (Star is_ws)
    (Seq (Group 2 (Plus is_word))
    (Opt (Seq (Star is_ws) (Seq (Lit ":") (Seq (Star is_ws) (Seq (Group 3 (Plus is_word))
      (Seq (Opt (Seq (Star is_ws) (Seq (Lit "/") (Seq (Star is_ws)
                  (Group 4 (Plus (is_not "[")))))))
           (Opt (Seq (Star is_ws) (Seq (Lit "[")
                  (Seq (Group 5 (Plus (is_not "]"))) (Lit "]")))))))))))))))).

(** The pattern of the initial-transition rule, with blanks between its
    parts: [\[ \* \] \s* --> \s* ( \w+ ) (?: \s* : \s* ( .+ ) )?]. *)
Definition re_initial : RegExp :=
  MkRegExp false 2
    (Seq (Lit "[*]") (Seq (Star is_ws) (Seq (Lit "-->") (Seq (Star is_ws)
    (Seq (Group 1 (Plus is_word))
    (Opt (Seq (Star is_ws) (Seq (Lit ":") (Seq (Star is_ws) (Group 2 (Plus is_dot))))))))))).

(** [/state\s+(\w+)\s*{/]. *)
Definition re_stateBlock : RegExp :=
  MkRegExp false 1
    (Seq (Lit "state") (Seq (Plus is_ws) (Seq (Group 1 (Plus is_word))
      (Seq (Star is_ws) (Lit "{"))))).

(** [/:\s*(\w+)\s*\/\s*(.+)/]. *)
Definition re_internalTransition : RegExp :=
  MkRegExp false 2
    (Seq (Lit ":") (Seq (Star is_ws) (Seq (Group 1 (Plus is_word)) (Seq (Star is_ws)
      (Seq (Lit "/") (Seq (Star is_ws) (Group 2 (Plus is_dot)))))))).

Definition parseTransition (p : Parser) (line : string) : Parser :=
  match exec re_parseTransition line with
  | None => p
  | Some m =>
      let src := capture1 m 1 in
      let tg := capture1 m 2 in
      let r1 := findOrCreateState p src in
      let r2 := findOrCreateState r1.1 tg in
      let tr := MkTransition
                  (match capture m 3 with Some e => if truthy e then e else "" | None => "" end)
                  tg
                  (option_map trim (capture m 5))
                  (option_map trim (capture m 4))
                  None in
      with_states r2.1 (mutate (push_transition tr) r1.2 (states (stateMachine r2.1)))
  end.

Definition set_initialState (sm : StateMachine) (n : string) : StateMachine :=
  MkStateMachine (sm_name sm) (sm_type sm) (sm_priority sm) (sm_stackSize sm)
    (events sm) (states sm) n (dataMembers sm).

(** [parseLine(line)]. *)
Definition parseLine (p : Parser) (line : string) : Parser :=
  let sts := states (stateMachine p) in
  if includes line "[*]" && includes line "-->" then
    match exec re_initial line with
    | Some m => MkParser (set_initialState (stateMachine p) (capture1 m 1)) (stateStack p)
    | None => p
    end
  else if startsWith line "state " && includes line "{" then
    match exec re_stateBlock line with
    | Some m =>
        let r := findOrCreateState p (capture1 m 1) in
        MkParser (stateMachine r.1) (r.2 :: stateStack r.1)
    | None => p
    end
  else if String.eqb line "}" then
    MkParser (stateMachine p) (tail (stateStack p))
  else if startsWith line "entry:" then
    match stateStack p with
    | top :: _ => with_states p (mutate (push_entry (trim (substringFrom 6 line))) top sts)
    | [] => p
    end
  else if startsWith line "exit:" then
    match stateStack p with
    | top :: _ => with_states p (mutate (push_exit (trim (substringFrom 5 line))) top sts)
    | [] => p
    end
  else if includes line "-->" then parseTransition p line
  else if includes line ":" && negb (includes line "-->") then
    match stateStack p with
    | top :: _ =>
        match exec re_internalTransition line with
        | Some m =>
            with_states p
              (mutate (fun s => push_transition
                         (MkTransition (capture1 m 1) (name s) None (capture m 2) (Some true)) s)
                      top sts)
        | None => p
        end
    | [] => p
    end
  else p.

(** [setupHierarchy()]: every composite state gets an initial transition
    to the first child that a transition of a root state targets with
    [@Q_INIT_SIG], else to its first child. *)
Fixpoint setupHierarchy_state (roots : list State) (s : State) : State :=
  let init :=
    match children s with
    | [] => initialTransition s
    | c0 :: _ =>
        let initialChild :=
          find (fun child =>
                  existsb (fun r =>
                    existsb (fun t => String.eqb (target t) (name child)
                                      && String.eqb (event t) Q_INIT_SIG)
                            (transitions r)) roots)
               (children s) in
        Some (initTo (name (match initialChild with Some c => c | None => c0 end)))
    end in
  MkState (name s) (parent s) (entryActions s) (exitActions s) (transitions s)
    (map (setupHierarchy_state roots) (children s)) (isInitial s) init.

Definition setupHierarchy (p : Parser) : Parser :=
  let sts := states (stateMachine p) in
  with_states p (map (setupHierarchy_state sts) sts).

(** The local variables of the loop of [parse]. *)
Record ParseLoop := MkParseLoop {
  pl_parser : Parser;
  inDiagram : bool;
  inMetadata : bool;
  metadataContent : string
}.

Section Parse.

(** [parseMetadata(content)] relies on [JSON.parse] and assigns the
    name, type, priority, stack size, events and data members of the
    machine; it is taken as a parameter. *)
Variable parseMetadata : string -> StateMachine -> StateMachine.

Definition parseStep (st : ParseLoop) (rawLine : string) : ParseLoop :=
  let line := trim rawLine in
  if negb (truthy line) || (startsWith line "%%" && negb (startsWith line "%%{")) then st
  else if startsWith line "%%{" then
    MkParseLoop (pl_parser st) (inDiagram st) true ""
  else if String.eqb line "}%%" && inMetadata st then
    MkParseLoop
      (MkParser (parseMetadata (metadataContent st) (stateMachine (pl_parser st)))
                (stateStack (pl_parser st)))
      (inDiagram st) false (metadataContent st)
  else if inMetadata st then
    MkParseLoop (pl_parser st) (inDiagram st) (inMetadata st)
      (metadataContent st +:+ line +:+ newline)
  else if startsWith line "stateDiagram-v2" || startsWith line "stateDiagram" then
    MkParseLoop (pl_parser st) true (inMetadata st) (metadataContent st)
  else if negb (inDiagram st) then st
  else MkParseLoop (parseLine (pl_parser st) line) (inDiagram st) (inMetadata st)
         (metadataContent st).

(** [parse(content)] on the parser [p]: the parser after the call; the
    value returned is its [stateMachine]. *)
Definition parse (p : Parser) (content : string) : Parser :=
  let lines := split "010" content in
  setupHierarchy (pl_parser (fold_left parseStep lines (MkParseLoop p false false ""))).

End Parse.

(** ** The validate command ([commands/validateCommand.ts]) *)

Definition isError (e : ValidationError) : bool :=
  match severity e with error => true | _ => false end.

Definition isWarning (e : ValidationError) : bool :=
  match severity e with warning => true | _ => false end.

(** [errors.filter(e => e.severity === 'error').length] and its sibling. *)
Definition errorCount (errors : list ValidationError) : nat :=
  length (List.filter isError errors).

Definition warningCount (errors : list ValidationError) : nat :=
  length (List.filter isWarning errors).

(** The message of the summary: the information message, or the warning
    message with both counts. *)
Inductive Summary :=
| ValidationPassed
| ValidationFound (errors warnings : nat).

Definition summary (errors : list ValidationError) : Summary :=
  if (errorCount errors =? 0)%nat && (warningCount errors =? 0)%nat
  then ValidationPassed
  else ValidationFound (errorCount errors) (warningCount errors).

(** The first line that the output channel gets after its header: the
    all-clear line exactly when [errors.length === 0]. *)
Definition noIssuesFound (errors : list ValidationError) : bool :=
  (length errors =? 0)%nat.

Section ValidateCommand.

Variable parseMetadata : string -> StateMachine -> StateMachine.


End ValidateCommand.

(** ** The preview panel ([webview/previewPanel.ts]) *)

(** [/^```mermaid\n/]. *)
Definition re_fenceOpen : RegExp :=
  MkRegExp true 0 (Lit ("```mermaid" +:+ newline)).

(** [/\n```$/]. *)
Definition re_fenceClose : RegExp :=
  MkRegExp false 0 (Seq (Lit (newline +:+ "```")) Eol).

(** The text that [_getHtmlForWebview] hands to the preprocessor: the
    document without its code fences, trimmed. *)
Definition previewSource (text : string) : string :=
  trim (replace re_fenceClose (replace re_fenceOpen text "") "").

(** The diagram that [_getHtmlForWebview] puts in the page; the page
    around it is not modelled. *)
Definition previewDiagram (text : string) : Result string :=
  bindR (preprocess (previewSource text)) (fun r => Ok (mermaidDiagram r)).

(** ** [MermaidPreprocessor.reconstruct] *)

(** The comment that [preprocess] builds around the JSON text [json] of
    the metadata. *)
Definition metadataComment (json : string) : string :=
  newline +:+ "%%{qp-metadata:" +:+ newline +:+ json +:+ newline +:+ "}%%".

Definition anyChar (c : ascii) : bool := true.

(** [/\n%%{qp-metadata:[\s\S]+}%%/]. *)
Definition re_metadataComment : RegExp :=
  MkRegExp false 0
    (Seq (Lit (newline +:+ "%%{qp-metadata:")) (Seq (Plus anyChar) (Lit "}%%"))).

(** [reconstruct(mermaidDiagram, metadata)]; the source does not use
    [metadata]. *)
Definition reconstruct (mermaidDiagram : string) : string :=
  replace re_metadataComment mermaidDiagram "".

(** ** Vocabulary of the properties *)

(** [hasChar c s]: the character [c] occurs in [s]. *)
Fixpoint hasChar (c : ascii) (s : string) : bool :=
  match s with
  | EmptyString => false
  | String x s' => Ascii.eqb x c || hasChar c s'
  end.

(** A path segment: a non-empty name without a dot. *)
Definition segment (s : string) : Prop :=
  truthy s = true /\ hasChar "." s = false.

(** A fully-qualified dotted path, by its segments. *)
Definition qualified (segs : list string) : Prop :=
  segs <> [] /\ Forall segment segs.

(** The longest common prefix of two lists of segments. *)
Fixpoint commonPrefix (l1 l2 : list string) : list string :=
  match l1, l2 with
  | a :: r1, b :: r2 => if String.eqb a b then a :: commonPrefix r1 r2 else []
  | _, _ => []
  end.

(** The dotted paths of the prefixes of [segs] that are longer than [k]
    segments, shortest first. *)
Definition pathsBelow (k : nat) (segs : list string) : list string :=
  map (fun i => join "." (take i segs)) (seq (S k) (length segs - k)).

(** The states of a tree in pre-order, each with the path of its parent. *)
Fixpoint scoped_state (parentPath : string) (s : State) : list (string * State) :=
  (parentPath, s) :: flat_map (scoped_state (dotted parentPath (name s))) (children s).

Definition scoped (parentPath : string) (sts : list State) : list (string * State) :=
  flat_map (scoped_state parentPath) sts.

(** The full path of a scoped state. *)
Definition fullPath (ps : string * State) : string := dotted ps.1 (name ps.2).

(** The names of the states of a tree, in pre-order. *)
Definition namesOf (sts : list State) : list string :=
  map (fun ps => name ps.2) (scoped "" sts).

(** The keys that [buildStateMap] stores for a tree: the full path and
    the bare name of every state. *)
Definition keysOf_state (parentPath : string) (s : State) : gset string :=
  list_to_set (flat_map (fun ps => [fullPath ps; name ps.2]) (scoped_state parentPath s)).

Definition keysOf (parentPath : string) (sts : list State) : gset string :=
  list_to_set (flat_map (fun ps => [fullPath ps; name ps.2]) (scoped parentPath sts)).

(** The reserved targets that [resolveTarget] returns before any lookup. *)
Definition reserved (tgt : string) : bool :=
  String.eqb tgt "[*]" || startsWith tgt "[H".





(** The diagnostics that the properties are about, and how to recognise
    them by their message. *)
Definition unreachableDiag (ps : string * State) : ValidationError :=
  MkValidationError warning ("State '" +:+ name ps.2 +:+ "' is unreachable")
    (atState (fullPath ps)).

Definition isUnreachable (d : ValidationError) : bool :=
  startsWith (message d) "State '" && endsWith (message d) "' is unreachable".

Definition duplicateDiag (ps : string * State) : ValidationError :=
  MkValidationError error ("Duplicate state name: " +:+ name ps.2)
    (atState (fullPath ps)).

Definition isDuplicateName (d : ValidationError) : bool :=
  startsWith (message d) "Duplicate state name: ".

Definition missingTargetDiag (path : string) (tr : Transition) : ValidationError :=
  MkValidationError error ("Transition target '" +:+ target tr +:+ "' does not exist")
    (atTransition path (event tr)).

(** The test of [checkUnreachableStates] on a state. *)
Definition unvisited (visited : gset string) (ps : string * State) : bool :=
  negb (bool_decide (name ps.2 ∈ visited)) && negb (String.eqb (name ps.2) "[*]").

(** One duplicate-name diagnostic for every state, in pre-order, whose
    name was seen before it. *)
Fixpoint duplicateScan (seen : gset string) (l : list (string * State))
    : list ValidationError :=
  match l with
  | [] => []
  | ps :: r =>
      (if bool_decide (name ps.2 ∈ seen) then [duplicateDiag ps] else [])
      ++ duplicateScan ({[name ps.2]} ∪ seen) r
  end.

(** State names are unique within each sibling scope. *)
Fixpoint siblingUnique_state (s : State) : bool :=
  bool_decide (NoDup (map name (children s)))
  && forallb siblingUnique_state (children s).

Definition siblingUnique (sts : list State) : bool :=
  bool_decide (NoDup (map name sts)) && forallb siblingUnique_state sts.

(** The keys that [resolveTarget] looks up for a target, in order: the
    target itself, its qualification by every scope of [fromPath] from the
    innermost outward, and the sibling path when there is a parent. *)
Definition candidates (tgt fromPath : string) : list string :=
  let pathParts := split "." fromPath in
  tgt
  :: map (fun i => dotted (join "." (take i pathParts)) tgt)
         (rev (seq 0 (S (length pathParts))))
  ++ (if (1 <? length pathParts)%nat
      then [join "." (take (length pathParts - 1) pathParts) +:+ "." +:+ tgt]
      else []).

(** No lookup rule of the resolver finds a state for the target. *)
Definition unmatched (m : gmap string State) (tgt fromPath : string) : Prop :=
  forall k, k ∈ candidates tgt fromPath -> has m k = false.

(** [collectStateNames] as a scan of the states in pre-order. *)
Definition scanStep (acc : gset string * list ValidationError) (ps : string * State)
    : gset string * list ValidationError :=
  ({[name ps.2]} ∪ acc.1,
   if bool_decide (name ps.2 ∈ acc.1) then acc.2 ++ [duplicateDiag ps] else acc.2).

(** The key of a transition in [this.metadata]. *)
Definition transitionKey (src tgt ev : string) : string :=
  src +:+ "_to_" +:+ tgt +:+ "_" +:+ ev.





(** The names of the states of a subtree, and the targets of the
    transitions of its states. *)
Fixpoint names_state (s : State) : list string :=
  name s :: flat_map names_state (children s).

Fixpoint transitionTargets_state (s : State) : list string :=
  map target (transitions s) ++ flat_map transitionTargets_state (children s).

(** Every transition of the tree has a target that is the name of a state
    of the tree. *)
Definition targetsExist (sts : list State) : Prop :=
  forall x, x ∈ flat_map transitionTargets_state sts -> x ∈ flat_map names_state sts.

(** Every reference on the stack of the parser leads to a state. *)
Definition stackValid (p : Parser) : Prop :=
  forall r, r ∈ stateStack p -> is_Some (deref r (states (stateMachine p))).

(** Two transitions that differ in their target at most. *)
Definition sameButTarget (t t' : Transition) : Prop :=
  event t' = event t /\ guard t' = guard t /\ action t' = action t
  /\ isInternal t' = isInternal t.

(** Two states that differ in the targets of their transitions, in their
    initial transition and below their children at most. *)
Definition sameButTargets (s s' : State) : Prop :=
  name s' = name s /\ parent s' = parent s
  /\ entryActions s' = entryActions s /\ exitActions s' = exitActions s
  /\ isInitial s' = isInitial s
  /\ Forall2 sameButTarget (transitions s) (transitions s')
  /\ map name (children s') = map name (children s).

(** The states of a subtree, in pre-order. *)
Fixpoint subtree_state (s : State) : list State :=
  s :: flat_map subtree_state (children s).

Definition subtrees (sts : list State) : list State :=
  flat_map subtree_state sts.

(** The children of a state name it as their parent. *)
Definition parentOfChildren (s : State) : Prop :=
  Forall (fun c => parent c = Some (name s)) (children s).

(** The internal transitions of a state target the state itself. *)
Definition internalToSelf (s : State) : Prop :=
  forall t, t ∈ transitions s -> flag (isInternal t) = true -> target t = name s.

(** A state without children has no initial transition, and a state with
    children has the initial transition [@Q_INIT_SIG] to one of them. *)
Definition initialToChild (s : State) : Prop :=
  match children s with
  | [] => initialTransition s = None
  | _ :: _ => exists c, c ∈ children s /\ initialTransition s = Some (initTo (name c))
  end.

(** The diagnostic of a composite state without initial transition, by
    its message. *)
Definition isMissingInitial (d : ValidationError) : bool :=
  startsWith (message d) "Composite state '".

Definition isMissingTarget (d : ValidationError) : bool :=
  startsWith (message d) "Transition target '".

Definition isDuplicateTransition (d : ValidationError) : bool :=
  startsWith (message d) "Duplicate transition for event '".

(** What the parser keeps true of its tree while it reads lines: names
    are unique, no state has an initial transition yet, internal
    transitions target their owner, children name their parent and root
    states have no parent. *)
Definition treeInvariant (sts : list State) : Prop :=
  NoDup (flat_map names_state sts)
  /\ Forall (fun s => initialTransition s = None) (subtrees sts)
  /\ Forall internalToSelf (subtrees sts)
  /\ Forall parentOfChildren (subtrees sts)
  /\ Forall (fun s => parent s = None) sts.

(** The diagnostic of a composite state without initial transition, and
    the test of [validateStates] that emits it. *)
Definition missingInitialDiag (ps : string * State) : ValidationError :=
  MkValidationError error
    ("Composite state '" +:+ name ps.2 +:+ "' must have an initial transition")
    (atState (fullPath ps)).

Definition lacksInitial (ps : string * State) : bool :=
  negb (length (children ps.2) =? 0)%nat && negb (isSome (initialTransition ps.2)).

(** The targets that a state owns: those of its transitions and of its
    initial transition. *)
Definition ownTargets (s : State) : list string :=
  map target (transitions s)
  ++ match initialTransition s with Some t => [target t] | None => [] end.

(** A state with children has an initial transition. *)
Definition compositeHasInitial (s : State) : Prop :=
  children s <> [] -> initialTransition s <> None.

Definition isInfo (d : ValidationError) : bool :=
  match severity d with info => true | _ => false end.

(** What [validateStateTransitions] compares two transitions by. *)
Definition eventGuard (t : Transition) : string * option string := (event t, guard t).

Definition duplicateTransitionDiag (path : string) (tr : Transition) : ValidationError :=
  MkValidationError error ("Duplicate transition for event '" +:+ event tr +:+ "'")
    (atState path).

(** Every character of a string passes a test. *)
Fixpoint allChars (p : ascii -> bool) (s : string) : bool :=
  match s with
  | EmptyString => true
  | String c s' => p c && allChars p s'
  end.

Definition is_alnum (c : ascii) : bool := is_lower c || is_upper c || is_digit c.

Definition is_upper_digit_underscore (c : ascii) : bool :=
  is_upper c || is_digit c || Ascii.eqb c "_".

(** A state is named [n]; a transition waits for the event [TIMEOUT]; a
    data member is a [QTimeEvt]. *)
Definition named (n : string) (s : State) : bool := String.eqb (name s) n.

Definition onTimeout (t : Transition) : bool := String.eqb (event t) "TIMEOUT".

Definition isTimer (d : DataMember) : bool := String.eqb (dm_type d) "QTimeEvt".

Definition timerWarning : ValidationError :=
  MkValidationError warning
    "State machine uses TIMEOUT events but has no QTimeEvt data member" None.

Definition noInitialStateError : ValidationError :=
  MkValidationError error "State machine must have an initial state" None.


Definition notEndState (ps : string * State) : bool :=
  negb (String.eqb (name ps.2) "[*]").

(** A name that no transition key and no history key of the preprocessor
    can be equal to. *)
Definition plainName (n : string) : bool :=
  negb (includes n "_to_") && negb (startsWith n "History_").

(** Every state block that the lines open has a plain name. *)
Definition plainBlocks (lines : list string) : Prop :=
  forall line m, line ∈ lines -> exec re_stateOpen (trim line) = Some m ->
                 plainName (capture1 m 1) = true.

(** The entry of the open state block is the object of a state block. *)
Definition blockEntry (st : PreState) : Prop :=
  inStateBlock st = true ->
  forall cur, currentState st = Some cur ->
    plainName cur = true
    /\ exists en ex it, pp_metadata st !! cur = Some (StateMeta en ex it).

(** The captures recorded so far all satisfy [P], a property of the
    index of a group and of the text it captured. *)
Definition capturesSatisfy (P : nat -> string -> Prop) (cs : captures) : Prop :=
  forall i s, cs !! i = Some (Some s) -> P i s.

(** Every capture group of the expression is a repetition of a character
    class, and [P] holds of every text made of characters of that class. *)
Fixpoint groupsSatisfy (P : nat -> string -> Prop) (r : regex) : Prop :=
  match r with
  | Group i (Plus p) | Group i (Star p) => forall s, allChars p s = true -> P i s
  | Group _ _ => False
  | Seq r1 r2 => groupsSatisfy P r1 /\ groupsSatisfy P r2
  | Opt r1 => groupsSatisfy P r1
  | _ => True
  end.

(** The events of the transitions of a state are made of word
    characters. *)
Definition wordEvents (s : State) : Prop :=
  Forall (fun t => allChars is_word (event t) = true) (transitions s).

(** The initial transition of a state with children leads to the first
    child. *)
Definition initialToFirstChild (s : State) : Prop :=
  match children s with
  | [] => initialTransition s = None
  | c :: _ => initialTransition s = Some (initTo (name c))
  end.

(** The text that opens the metadata comment. *)
Definition metadataMarker : string := newline +:+ "%%{qp-metadata:".

(** ** Example machines *)

(** The machine of the tie-break scenario: a root state [A] with a child
    [B] that owns a transition to the bare name [B], and a root state [B]. *)
Definition tieBreak : StateMachine :=
  MkStateMachine "TieBreak" QActive None None []
    [ MkState "A" None [] [] []
        [ MkState "B" (Some "A") [] [] [MkTransition "EV" "B" None None None] []
            None None ]
        None None;
      MkState "B" None [] [] [] [] None None ]
    "A" [].

(** The targets of the transitions of each state, by full path. *)
Definition targetsByPath (sm : StateMachine) : list (string * list string) :=
  map (fun ps => (fullPath ps, map target (transitions ps.2))) (scoped "" (states sm)).

(** A tree in which the relative path [C.D] is only found in the scope of [A]. *)
Definition nestedScopes : list State :=
  [ MkState "A" None [] [] []
      [ MkState "X" (Some "A") [] [] [] [] None None;
        MkState "C" (Some "A") [] [] []
          [ MkState "D" (Some "C") [] [] [] [] None None ] None None ]
      None None ].

(** A composite state [P] with children [X], [Y], [Z] and no initial
    transition. *)
Definition xyz : StateMachine :=
  MkStateMachine "Xyz" QActive None None []
    [ MkState "P" None [] [] []
        [ MkState "X" (Some "P") [] [] [] [] None None;
          MkState "Y" (Some "P") [] [] [] [] None None;
          MkState "Z" (Some "P") [] [] [] [] None None ] None None ]
    "P" [].



(** A state with a transition to [OldHistory], which no state is called. *)
Definition dangling : StateMachine :=
  MkStateMachine "Dangling" QActive None None []
    [ MkState "Idle" None [] [] [MkTransition "GO" "OldHistory" None None None] []
        None None ]
    "Idle" [].

(** A state with a transition to [Nowhere], which no state is called. *)
Definition danglingNowhere : StateMachine :=
  MkStateMachine "Dangling" QActive None None []
    [ MkState "Idle" None [] [] [MkTransition "GO" "Nowhere" None None None] []
        None None ]
    "Idle" [].


(** A state block whose name is the key of a transition inside it. *)
Definition keyCollision : string :=
  join newline
    [ "state A_to_B_EV {";
      "    A --> B : EV";
      "    entry: foo()";
      "}" ].

(** A diagram in which a state nested in [Active] has a transition to
    the root state [Idle]. *)
Definition nestedTarget : string :=
  join newline
    [ "stateDiagram-v2";
      "    [*] --> Idle";
      "    Idle --> Active : START";
      "    state Active {";
      "        Working --> Idle : STOP";
      "    }" ].

(** * Properties *)

(** ** Induction on state trees *)

Section StateInduction.
Variable P : State -> Prop.
Hypothesis step : forall s, Forall P (children s) -> P s.

Fixpoint State_tree_ind (s : State) : P s :=
  step s
    ((fix all (l : list State) : Forall P l :=
        match l with
        | [] => List.Forall_nil P
        | c :: r => List.Forall_cons P c r (State_tree_ind c) (all r)
        end) (children s)).
End StateInduction.

(** ** Strings *)

Lemma app_cons (c : ascii) (s t : string) : String c s +:+ t = String c (s +:+ t).
Proof. reflexivity. Qed.

Lemma app_empty_l (t : string) : "" +:+ t = t.
Proof. reflexivity. Qed.

Lemma app_empty_r (s : string) : s +:+ "" = s.
Proof. induction s as [|c s IH]; [reflexivity|]. rewrite app_cons, IH. reflexivity. Qed.

Lemma app_assoc_s (a b c : string) : (a +:+ b) +:+ c = a +:+ (b +:+ c).
Proof.
  induction a as [|x a IH]; [reflexivity|].
  rewrite !app_cons, IH. reflexivity.
Qed.

Lemma app_length_s (a b : string) :
  String.length (a +:+ b) = String.length a + String.length b.
Proof. induction a as [|x a IH]; [reflexivity|]. rewrite app_cons. simpl. lia. Qed.

Lemma truthy_app_l (a b : string) : truthy a = true -> truthy (a +:+ b) = true.
Proof. destruct a; [discriminate|reflexivity]. Qed.

Lemma truthy_false (s : string) : truthy s = false <-> s = "".
Proof. destruct s; split; intros H; try reflexivity; discriminate. Qed.

Lemma split_nonempty sep s : split sep s <> [].
Proof.
  destruct s as [|c s]; simpl; [discriminate|].
  destruct (Ascii.eqb c sep); [discriminate|].
  destruct (split sep s); discriminate.
Qed.

Lemma split_free sep x : hasChar sep x = false -> split sep x = [x].
Proof.
  induction x as [|c x IH]; simpl; [reflexivity|].
  intros H. apply orb_false_iff in H as [Hc Hx].
  rewrite Hc, (IH Hx). reflexivity.
Qed.

Lemma split_app_sep sep x rest :
  hasChar sep x = false ->
  split sep (x +:+ String sep rest) = x :: split sep rest.
Proof.
  induction x as [|c x IH]; intros H.
  - rewrite app_empty_l. simpl. rewrite Ascii.eqb_refl. reflexivity.
  - simpl in H. apply orb_false_iff in H as [Hc Hx].
    rewrite app_cons. simpl. rewrite Hc, (IH Hx). reflexivity.
Qed.

Lemma split_parts_free sep s : Forall (fun x => hasChar sep x = false) (split sep s).
Proof.
  induction s as [|c s IH]; simpl.
  - repeat constructor.
  - destruct (Ascii.eqb c sep) eqn:Hc.
    + constructor; [reflexivity|exact IH].
    + destruct (split sep s) as [|h t]; [repeat constructor; simpl; rewrite Hc; reflexivity|].
      inversion IH; subst. constructor; [simpl; rewrite Hc; assumption|assumption].
Qed.

Lemma join_cons2 sep x y r : join sep (x :: y :: r) = x +:+ sep +:+ join sep (y :: r).
Proof. reflexivity. Qed.

Lemma split_join sep l :
  l <> [] -> Forall (fun x => hasChar sep x = false) l ->
  split sep (join (String sep "") l) = l.
Proof.
  induction l as [|x l IH]; [congruence|]. intros _ Hl.
  inversion Hl as [|? ? Hx Hr]; subst.
  destruct l as [|y r].
  - simpl. apply split_free, Hx.
  - rewrite join_cons2, app_cons, app_empty_l, split_app_sep by exact Hx.
    rewrite IH; [reflexivity|discriminate|exact Hr].
Qed.

Lemma join_split sep s : join (String sep "") (split sep s) = s.
Proof.
  induction s as [|c s IH]; simpl; [reflexivity|].
  destruct (Ascii.eqb c sep) eqn:Hc.
  - apply Ascii.eqb_eq in Hc as ->.
    pose proof (split_nonempty sep s) as Hne.
    destruct (split sep s) as [|h t]; [congruence|].
    rewrite join_cons2, IH. reflexivity.
  - pose proof (split_nonempty sep s) as Hne.
    destruct (split sep s) as [|h t]; [congruence|].
    destruct t as [|h' t'].
    + simpl in *. congruence.
    + rewrite join_cons2 in *. rewrite app_cons, IH. reflexivity.
Qed.

Lemma join_snoc sep l x :
  l <> [] -> join sep (l ++ [x]) = join sep l +:+ sep +:+ x.
Proof.
  induction l as [|y l IH]; [congruence|]. intros _.
  destruct l as [|z r].
  - reflexivity.
  - change ((y :: z :: r) ++ [x]) with (y :: (z :: r) ++ [x]).
    change ((z :: r) ++ [x]) with (z :: (r ++ [x])) at 1.
    rewrite join_cons2. change (z :: r ++ [x]) with ((z :: r) ++ [x]).
    rewrite IH by discriminate. rewrite join_cons2.
    rewrite !app_assoc_s. reflexivity.
Qed.

(** ** Dotted paths, [findLCA] and [calculateTransitionSequence] *)

Lemma segment_free s : segment s -> hasChar "." s = false.
Proof. intros [_ H]. exact H. Qed.

Lemma segments_free l : Forall segment l -> Forall (fun x => hasChar "." x = false) l.
Proof. intros H. eapply Forall_impl; [exact H|]. intros x. apply segment_free. Qed.

Lemma join_truthy l : l <> [] -> Forall segment l -> truthy (join "." l) = true.
Proof.
  destruct l as [|x l]; [congruence|]. intros _ H.
  inversion H as [|? ? [Hx _] Hr]; subst.
  destruct l; [exact Hx|]. rewrite join_cons2. apply truthy_app_l, Hx.
Qed.

Lemma join_inj l l' :
  Forall segment l -> Forall segment l' -> join "." l = join "." l' -> l = l'.
Proof.
  intros Hl Hl' E.
  destruct l as [|x r], l' as [|x' r']; [reflexivity| | |].
  - pose proof (join_truthy (x' :: r') ltac:(discriminate) Hl') as T.
    rewrite <- E in T. discriminate.
  - pose proof (join_truthy (x :: r) ltac:(discriminate) Hl) as T.
    rewrite E in T. discriminate.
  - rewrite <- (split_join "." (x :: r)), <- (split_join "." (x' :: r'));
      [rewrite E; reflexivity|discriminate|apply segments_free, Hl'
      |discriminate|apply segments_free, Hl].
Qed.

Lemma lcaLoop_commonPrefix l1 : forall l2 pre,
  Forall segment pre -> Forall segment l1 ->
  lcaLoop l1 l2 (join "." pre) = join "." (pre ++ commonPrefix l1 l2).
Proof.
  induction l1 as [|a r1 IH]; intros l2 pre Hpre H1; simpl.
  - rewrite app_nil_r. reflexivity.
  - destruct l2 as [|b r2]; [rewrite app_nil_r; reflexivity|].
    destruct (String.eqb a b) eqn:E; [|rewrite app_nil_r; reflexivity].
    inversion H1 as [|? ? Ha Hr]; subst.
    assert (Hacc : (if truthy (join "." pre) then join "." pre +:+ "." +:+ a else a)
                   = join "." (pre ++ [a])).
    { destruct pre as [|p pre'].
      - reflexivity.
      - rewrite (join_truthy (p :: pre')) by (discriminate || exact Hpre).
        rewrite join_snoc by discriminate. reflexivity. }
    rewrite Hacc, IH.
    + rewrite <- app_assoc. reflexivity.
    + apply Forall_app. split; [exact Hpre|]. constructor; [exact Ha|constructor].
    + exact Hr.
Qed.

Lemma commonPrefix_take l1 : forall l2,
  commonPrefix l1 l2 = take (length (commonPrefix l1 l2)) l1
  /\ commonPrefix l1 l2 = take (length (commonPrefix l1 l2)) l2.
Proof.
  induction l1 as [|a r1 IH]; intros [|b r2]; simpl; try (split; reflexivity).
  destruct (String.eqb a b) eqn:E; simpl; [|split; reflexivity].
  apply String.eqb_eq in E as ->.
  destruct (IH r2) as [H1 H2]. split; f_equal; assumption.
Qed.

Lemma commonPrefix_longest l1 : forall l2 l,
  l `prefix_of` l1 -> l `prefix_of` l2 -> l `prefix_of` commonPrefix l1 l2.
Proof.
  induction l1 as [|a r1 IH]; intros l2 l [k1 E1] [k2 E2].
  - destruct l; [|discriminate]. simpl. apply prefix_nil.
  - destruct l as [|x l]; [apply prefix_nil|].
    destruct l2 as [|b r2]; [discriminate|].
    simpl in E1, E2. injection E1 as -> E1. injection E2 as -> E2.
    simpl. rewrite String.eqb_refl. apply prefix_cons.
    apply IH; unfold prefix; eauto.
Qed.

Lemma removelast_take {A} (l : list A) j :
  1 <= j <= length l -> removelast (take j l) = take (j - 1) l.
Proof.
  revert j. induction l as [|x l IH]; intros j Hj; simpl in Hj; [lia|].
  destruct j as [|j]; [lia|].
  destruct j as [|j]; [reflexivity|].
  change (take (S (S j)) (x :: l)) with (x :: take (S j) l).
  replace (S (S j) - 1) with (S (S j - 1)) by lia.
  change (take (S (S j - 1)) (x :: l)) with (x :: take (S j - 1) l).
  rewrite <- IH by lia.
  destruct l as [|y l']; [simpl in Hj; lia|]. reflexivity.
Qed.

Lemma removelast_cons_length {A} (l : list A) : forall x,
  length (removelast (x :: l)) = length l.
Proof.
  induction l as [|y l IH]; intros x; [reflexivity|].
  change (removelast (x :: y :: l)) with (x :: removelast (y :: l)).
  change (length (x :: removelast (y :: l))) with (S (length (removelast (y :: l)))).
  rewrite IH. reflexivity.
Qed.

Lemma Forall_removelast {A} (P : A -> Prop) (l : list A) :
  Forall P l -> Forall P (removelast l).
Proof.
  induction l as [|x [|y r] IH]; intros H; [constructor..|].
  inversion H; subst.
  change (removelast (x :: y :: r)) with (x :: removelast (y :: r)).
  constructor; [assumption|]. apply IH. assumption.
Qed.

Lemma take_segments segs j : Forall segment segs -> Forall segment (take j segs).
Proof. apply Forall_take. Qed.

Lemma exitLoop_paths segs k : forall d fuel acc,
  Forall segment segs -> k + d <= length segs -> d <= fuel ->
  exitLoop fuel (join "." (take k segs)) (join "." (take (k + d) segs)) acc
  = Some (acc ++ rev (map (fun i => join "." (take i segs)) (seq (S k) d))).
Proof.
  induction d as [|d IH]; intros fuel acc Hs Hk Hf.
  - rewrite Nat.add_0_r. simpl. rewrite app_nil_r.
    destruct fuel; simpl; rewrite String.eqb_refl, andb_false_r; reflexivity.
  - destruct fuel as [|fuel]; [lia|]. simpl exitLoop.
    assert (Hne : take (k + S d) segs <> []).
    { intros E. apply (f_equal length) in E. rewrite length_take in E. simpl in E. lia. }
    rewrite join_truthy by (exact Hne || apply take_segments, Hs).
    assert (Hneq : String.eqb (join "." (take (k + S d) segs)) (join "." (take k segs)) = false).
    { apply String.eqb_neq. intros E.
      apply join_inj in E; try apply take_segments, Hs.
      apply (f_equal length) in E. rewrite !length_take in E. lia. }
    rewrite Hneq. simpl andb. cbv iota.
    rewrite split_join by (exact Hne || apply segments_free, take_segments, Hs).
    rewrite removelast_take by lia.
    replace (k + S d - 1) with (k + d) by lia.
    rewrite IH by (assumption || lia).
    rewrite <- app_assoc. f_equal.
    rewrite seq_S, map_app, rev_app_distr. simpl.
    replace (S (k + d)) with (k + S d) by lia. reflexivity.
Qed.

Lemma exitLoop_total lcaPath : forall fuel cur acc,
  length (split "." cur) <= fuel -> is_Some (exitLoop fuel lcaPath cur acc).
Proof.
  induction fuel as [|fuel IH]; intros cur acc Hf.
  - pose proof (split_nonempty "." cur). destruct (split "." cur); simpl in Hf; [congruence|lia].
  - simpl. destruct (truthy cur && negb (String.eqb cur lcaPath)); [|eauto].
    pose proof (split_parts_free "." cur) as Hfree.
    destruct (split "." cur) as [|x l] eqn:E; [eapply split_nonempty in E; contradiction|].
    destruct (decide (removelast (x :: l) = [])) as [E0|E0].
    + rewrite E0. simpl. destruct fuel; simpl; eauto.
    + apply IH. rewrite split_join; [|exact E0|].
      * rewrite removelast_cons_length. simpl in Hf. lia.
      * apply Forall_removelast, Hfree.
Qed.

Lemma calculateTransitionSequence_total fromPath toPath :
  is_Some (calculateTransitionSequence fromPath toPath).
Proof.
  unfold calculateTransitionSequence.
  destruct (exitLoop_total (findLCA fromPath toPath) (length (split "." fromPath))
              fromPath [] (le_n _)) as [ex E].
  rewrite E. eauto.
Qed.

(** C3.  For two fully-qualified dotted paths, given by their segments:
    [findLCA] is the dotted path of their longest common prefix of
    segments; the exit sequence lists the prefixes of the source that are
    longer than the LCA, the source first; the entry sequence lists the
    prefixes of the target that are longer than the LCA, the target last.
    For [On.Operand1] and [On.Operand2] the LCA is [On], the exit sequence
    [On.Operand1] and the entry sequence [On.Operand2]. *)
Theorem lca_sequences :
  (forall segs1 segs2 : list string,
     qualified segs1 -> qualified segs2 ->
     let common := commonPrefix segs1 segs2 in
     (common `prefix_of` segs1 /\ common `prefix_of` segs2 /\
      forall l, l `prefix_of` segs1 -> l `prefix_of` segs2 -> l `prefix_of` common) /\
     findLCA (join "." segs1) (join "." segs2) = join "." common /\
     calculateTransitionSequence (join "." segs1) (join "." segs2)
     = Some (MkSeq (rev (pathsBelow (length common) segs1))
                   (pathsBelow (length common) segs2)
                   (join "." common)))
  /\ calculateTransitionSequence "On.Operand1" "On.Operand2"
     = Some (MkSeq ["On.Operand1"] ["On.Operand2"] "On").
Proof.
  split; [|reflexivity].
  intros segs1 segs2 [N1 S1] [N2 S2] common.
  destruct (commonPrefix_take segs1 segs2) as [T1 T2]. fold common in T1, T2.
  assert (HL : findLCA (join "." segs1) (join "." segs2) = join "." common).
  { unfold findLCA. rewrite !split_join by (assumption || apply segments_free; assumption).
    apply (lcaLoop_commonPrefix segs1 segs2 [] ltac:(constructor) S1). }
  assert (K1 : length common <= length segs1).
  { rewrite T1 at 1. rewrite length_take. lia. }
  assert (K2 : length common <= length segs2).
  { rewrite T2 at 1. rewrite length_take. lia. }
  split; [|split; [exact HL|]].
  - split; [rewrite T1; apply prefix_take|].
    split; [rewrite T2; apply prefix_take|].
    intros l. apply commonPrefix_longest.
  - unfold calculateTransitionSequence. rewrite HL.
    rewrite (split_join "." segs1) by (assumption || apply segments_free; assumption).
    rewrite (split_join "." segs2) by (assumption || apply segments_free; assumption).
    pose proof (exitLoop_paths segs1 (length common) (length segs1 - length common)
                  (length segs1) [] S1 ltac:(lia) ltac:(lia)) as HE.
    replace (length common + (length segs1 - length common)) with (length segs1) in HE by lia.
    rewrite firstn_all in HE. rewrite <- T1 in HE. rewrite HE. simpl app.
    unfold pathsBelow. do 2 f_equal.
    unfold entryLoop.
    assert (HP : (if truthy (join "." common) then split "." (join "." common) else [])
                 = common).
    { destruct common as [|c cs] eqn:EC; [reflexivity|].
      assert (SC : Forall segment (c :: cs)).
      { rewrite T1. apply take_segments, S1. }
      rewrite join_truthy by (discriminate || exact SC).
      apply split_join; [discriminate|apply segments_free, SC]. }
    rewrite HP.
    rewrite <- seq_shift, map_map. reflexivity.
Qed.

Lemma lca_sequences_witness :
  qualified ["A"; "B"; "C"] /\ qualified ["A"; "D"] /\
  calculateTransitionSequence "A.B.C" "A.D"
  = Some (MkSeq ["A.B.C"; "A.B"] ["A.D"] "A").
Proof.
  assert (Q1 : qualified ["A"; "B"; "C"]).
  { split; [discriminate|]. repeat constructor. }
  assert (Q2 : qualified ["A"; "D"]).
  { split; [discriminate|]. repeat constructor. }
  split; [exact Q1|]. split; [exact Q2|].
  exact (proj2 (proj2 (proj1 lca_sequences ["A"; "B"; "C"] ["A"; "D"] Q1 Q2))).
Defined.

(** ** The lookup table of the resolver *)

Lemma has_dom (m : gmap string State) k : has m k = true <-> k ∈ dom m.
Proof.
  unfold has. rewrite elem_of_dom. destruct (m !! k) eqn:E; split; intros H.
  - eauto.
  - reflexivity.
  - discriminate.
  - destruct H; discriminate.
Qed.

Lemma has_ext (m m' : gmap string State) :
  dom m' = dom m -> forall k, has m' k = has m k.
Proof.
  intros E k. destruct (has m k) eqn:H.
  - apply has_dom. rewrite E. apply has_dom, H.
  - destruct (has m' k) eqn:H'; [|reflexivity].
    apply has_dom in H'. rewrite E in H'. apply has_dom in H'. congruence.
Qed.

Lemma fold_left_dom (f : gmap string State -> State -> gmap string State)
    (K : State -> gset string) (cs : list State) :
  Forall (fun c => forall m, dom (f m c) = dom m ∪ K c) cs ->
  forall m, dom (fold_left f cs m) = dom m ∪ ⋃ (map K cs).
Proof.
  induction 1 as [|c cs Hc _ IH]; intros m; simpl.
  - set_solver.
  - rewrite IH, Hc. set_solver.
Qed.

Lemma keysOf_flat (l : list State) q :
  (list_to_set (flat_map (fun ps => [fullPath ps; name ps.2])
                 (flat_map (scoped_state q) l)) : gset string)
  = ⋃ (map (keysOf_state q) l).
Proof.
  induction l as [|c l IH]; simpl; [reflexivity|].
  rewrite flat_map_app, list_to_set_app_L, IH. reflexivity.
Qed.

Lemma scoped_state_keys p s :
  keysOf_state p s
  = {[ dotted p (name s) ]} ∪ {[ name s ]}
    ∪ ⋃ (map (keysOf_state (dotted p (name s))) (children s)).
Proof.
  unfold keysOf_state at 1.
  destruct s as [n pa en ex ts cs ii it].
  change (scoped_state p (MkState n pa en ex ts cs ii it))
    with ((p, MkState n pa en ex ts cs ii it)
          :: flat_map (scoped_state (dotted p n)) cs).
  cbn [flat_map app].
  rewrite !list_to_set_cons, keysOf_flat. unfold fullPath. cbn [name children fst snd].
  set_solver.
Qed.

Lemma buildStateMap_state_dom s : forall p m,
  dom (buildStateMap_state p m s) = dom m ∪ keysOf_state p s.
Proof.
  induction s as [s IH] using State_tree_ind. intros p m.
  rewrite scoped_state_keys.
  destruct s as [n pa en ex ts cs ii it]. simpl in *.
  rewrite (fold_left_dom _ (keysOf_state (dotted p n))).
  - destruct (has (<[dotted p n:=_]> m) n) eqn:H.
    + apply has_dom in H. rewrite dom_insert_L in *. set_solver.
    + rewrite !dom_insert_L. set_solver.
  - eapply Forall_impl; [exact IH|]. intros c Hc m'. apply Hc.
Qed.

Lemma buildStateMap_dom sts p m :
  dom (buildStateMap sts p m) = dom m ∪ keysOf p sts.
Proof.
  unfold buildStateMap.
  rewrite (fold_left_dom _ (keysOf_state p)).
  - f_equal. unfold keysOf, scoped.
    induction sts as [|c l IH]; simpl; [reflexivity|].
    rewrite flat_map_app, list_to_set_app_L, IH. reflexivity.
  - apply Forall_forall. intros c _ m'. apply buildStateMap_state_dom.
Qed.

Lemma name_in_keys p sts q s :
  (q, s) ∈ scoped p sts -> name s ∈ keysOf p sts /\ dotted q (name s) ∈ keysOf p sts.
Proof.
  intros H. unfold keysOf.
  split; apply elem_of_list_to_set, list_elem_of_In, in_flat_map;
    exists (q, s); (split; [apply list_elem_of_In, H|]); simpl; unfold fullPath; simpl; auto.
Qed.

(** ** The passes keep the shape of the tree *)

Lemma flat_map_map {A B C} (f : B -> list C) (g : A -> B) (l : list A) :
  flat_map f (map g l) = flat_map (fun x => f (g x)) l.
Proof. induction l as [|x l IH]; simpl; [reflexivity|]. rewrite IH. reflexivity. Qed.

Lemma map_flat_map {A B C} (f : A -> list B) (g : B -> C) (l : list A) :
  map g (flat_map f l) = flat_map (fun x => map g (f x)) l.
Proof.
  induction l as [|x l IH]; simpl; [reflexivity|]. rewrite map_app, IH. reflexivity.
Qed.

Lemma flat_map_ext_Forall {A B} (f g : A -> list B) (l : list A) :
  Forall (fun x => f x = g x) l -> flat_map f l = flat_map g l.
Proof. induction 1 as [|x l E _ IH]; simpl; [reflexivity|]. rewrite E, IH. reflexivity. Qed.

Lemma map_ext_Forall' {A B} (f g : A -> B) (l : list A) :
  Forall (fun x => f x = g x) l -> map f l = map g l.
Proof. induction 1 as [|x l E _ IH]; simpl; [reflexivity|]. rewrite E, IH. reflexivity. Qed.

Lemma resolve_name m p s : name (resolveTransitions_state m p s) = name s.
Proof. destruct s; reflexivity. Qed.

Lemma setup_name s : name (setupInitialTransitions_state s) = name s.
Proof. destruct s; reflexivity. Qed.

Lemma scoped_resolve_state m s : forall p,
  scoped_state p (resolveTransitions_state m p s)
  = map (fun ps => (ps.1, resolveTransitions_state m ps.1 ps.2)) (scoped_state p s).
Proof.
  induction s as [s IH] using State_tree_ind. intros p.
  destruct s as [n pa en ex ts cs ii it]. simpl in *. f_equal.
  rewrite flat_map_map, map_flat_map.
  apply flat_map_ext_Forall. eapply Forall_impl; [exact IH|].
  intros c Hc. apply Hc.
Qed.

Lemma scoped_resolve m sts p :
  scoped p (resolveTransitions m sts p)
  = map (fun ps => (ps.1, resolveTransitions_state m ps.1 ps.2)) (scoped p sts).
Proof.
  unfold scoped, resolveTransitions. rewrite flat_map_map, map_flat_map.
  apply flat_map_ext_Forall, Forall_forall. intros c _. apply scoped_resolve_state.
Qed.

Lemma scoped_setup_state s : forall p,
  scoped_state p (setupInitialTransitions_state s)
  = map (fun ps => (ps.1, setupInitialTransitions_state ps.2)) (scoped_state p s).
Proof.
  induction s as [s IH] using State_tree_ind. intros p.
  destruct s as [n pa en ex ts cs ii it]. simpl in *. f_equal.
  rewrite flat_map_map, map_flat_map.
  apply flat_map_ext_Forall. eapply Forall_impl; [exact IH|].
  intros c Hc. apply Hc.
Qed.

Lemma scoped_setup sts p :
  scoped p (setupInitialTransitions sts)
  = map (fun ps => (ps.1, setupInitialTransitions_state ps.2)) (scoped p sts).
Proof.
  unfold scoped, setupInitialTransitions. rewrite flat_map_map, map_flat_map.
  apply flat_map_ext_Forall, Forall_forall. intros c _. apply scoped_setup_state.
Qed.

(** The resolved tree has the states of the input tree, under the same
    paths and in the same order. *)
Lemma scoped_pass m sts :
  scoped "" (setupInitialTransitions (resolveTransitions m sts ""))
  = map (fun ps => (ps.1, setupInitialTransitions_state
                            (resolveTransitions_state m ps.1 ps.2)))
        (scoped "" sts).
Proof. rewrite scoped_setup, scoped_resolve, map_map. reflexivity. Qed.

Lemma keysOf_pass m sts :
  keysOf "" (setupInitialTransitions (resolveTransitions m sts "")) = keysOf "" sts.
Proof.
  unfold keysOf. rewrite scoped_pass, flat_map_map. f_equal.
  apply flat_map_ext_Forall, Forall_forall. intros [q s] _.
  unfold fullPath. simpl. rewrite setup_name, resolve_name. reflexivity.
Qed.

(** ** [resolveTarget] *)

Lemma scopeLoop_has m parts tgt : forall i c,
  scopeLoop m parts tgt i = Some c -> has m c = true.
Proof.
  induction i as [|i IH]; intros c; simpl.
  - destruct (has m (dotted _ tgt)) eqn:H; [|discriminate]. intros [= <-]. exact H.
  - destruct (has m (dotted _ tgt)) eqn:H; [intros [= <-]; exact H|]. apply IH.
Qed.

Lemma scopeLoop_ext m m' parts tgt :
  (forall k, has m' k = has m k) ->
  forall i, scopeLoop m' parts tgt i = scopeLoop m parts tgt i.
Proof.
  intros E. induction i as [|i IH]; simpl; rewrite E; [reflexivity|].
  rewrite IH. reflexivity.
Qed.

Lemma resolveTarget_ext m m' tgt p :
  (forall k, has m' k = has m k) -> resolveTarget m' tgt p = resolveTarget m tgt p.
Proof.
  intros E. unfold resolveTarget. rewrite !E, (scopeLoop_ext m m' _ _ E). reflexivity.
Qed.

(** A key of the table, like a reserved token, is returned as it is. *)
Lemma resolveTarget_key m tgt p :
  reserved tgt = true \/ has m tgt = true -> resolveTarget m tgt p = tgt.
Proof.
  unfold resolveTarget, reserved. intros [H|H].
  - rewrite H. reflexivity.
  - rewrite H. destruct (_ || _); reflexivity.
Qed.

(** The result is the target itself or a key of the table. *)
Lemma resolveTarget_cases m tgt p :
  resolveTarget m tgt p = tgt \/ has m (resolveTarget m tgt p) = true.
Proof.
  unfold resolveTarget.
  destruct (_ || _); [left; reflexivity|].
  destruct (has m tgt) eqn:H; [left; reflexivity|].
  destruct (scopeLoop _ _ _ _) as [c|] eqn:L.
  - right. eapply scopeLoop_has, L.
  - destruct (_ <? _)%nat; simpl; [|left; reflexivity].
    destruct (has m (_ +:+ _)) eqn:S; [right; exact S|left; reflexivity].
Qed.

Lemma resolveTarget_idem m m' tgt p :
  (forall k, has m' k = has m k) ->
  resolveTarget m' (resolveTarget m tgt p) p = resolveTarget m tgt p.
Proof.
  intros E. destruct (resolveTarget_cases m tgt p) as [H|H].
  - rewrite H. rewrite (resolveTarget_ext m m' tgt p E). exact H.
  - apply resolveTarget_key. right. rewrite E. exact H.
Qed.

(** ** Re-running the resolver *)

Lemma resolve_isInitial m p s : isInitial (resolveTransitions_state m p s) = isInitial s.
Proof. destruct s; reflexivity. Qed.

Lemma initialChild_map (f : State -> State) cs :
  (forall c, isInitial (f c) = isInitial c) ->
  initialChild (map f cs) = option_map f (initialChild cs).
Proof.
  intros Hf. unfold initialChild.
  assert (E : find (fun c => flag (isInitial c)) (map f cs)
              = option_map f (find (fun c => flag (isInitial c)) cs)).
  { induction cs as [|c cs IH]; simpl; [reflexivity|].
    rewrite Hf. destruct (flag (isInitial c)); [reflexivity|exact IH]. }
  rewrite E. destruct (find _ cs); [reflexivity|]. destruct cs; reflexivity.
Qed.

Lemma initialChild_in cs c : initialChild cs = Some c -> c ∈ cs.
Proof.
  unfold initialChild. destruct (find _ cs) as [x|] eqn:F.
  - intros [= <-]. apply find_some in F as [F _]. apply list_elem_of_In, F.
  - destruct cs as [|x l]; simpl; [discriminate|]. intros [= <-]. left.
Qed.

Lemma initialChild_some c cs : exists x, initialChild (c :: cs) = Some x.
Proof. unfold initialChild. destruct (find _ (c :: cs)); simpl; eauto. Qed.

Lemma setup_idem s :
  setupInitialTransitions_state (setupInitialTransitions_state s)
  = setupInitialTransitions_state s.
Proof.
  induction s as [s IH] using State_tree_ind.
  destruct s as [n pa en ex ts cs ii it]. simpl in *. f_equal.
  - rewrite map_map. apply map_ext_Forall', IH.
  - destruct cs as [|c cs]; [reflexivity|]. simpl map.
    destruct it as [t|]; [reflexivity|].
    destruct (initialChild_some c cs) as [x ->]. reflexivity.
Qed.

#[local] Arguments set_target : simpl never.

Lemma set_target_twice t a b : set_target (set_target t a) b = set_target t b.
Proof. reflexivity. Qed.

Lemma target_set_target t a : target (set_target t a) = a.
Proof. reflexivity. Qed.

Lemma scoped_state_child p s c q s' :
  c ∈ children s -> (q, s') ∈ scoped_state (dotted p (name s)) c ->
  (q, s') ∈ scoped_state p s.
Proof.
  intros Hc H. destruct s as [n pa en ex ts cs ii it]. simpl in *.
  right. apply list_elem_of_In, in_flat_map. exists c.
  split; apply list_elem_of_In; assumption.
Qed.

Lemma scoped_state_self p s : (p, s) ∈ scoped_state p s.
Proof. destruct s; left. Qed.

(** Resolving a resolved tree against a table with the same keys changes
    nothing, provided the table holds the name of every state. *)
Lemma resolve_resolved m m' s :
  (forall k, has m' k = has m k) ->
  forall p,
    (forall q s', (q, s') ∈ scoped_state p s -> has m (name s') = true) ->
    resolveTransitions_state m' p
      (setupInitialTransitions_state (resolveTransitions_state m p s))
    = setupInitialTransitions_state (resolveTransitions_state m p s).
Proof.
  intros E. induction s as [s IH] using State_tree_ind. intros p Hn.
  assert (Hc : forall c, c ∈ children s -> has m (name c) = true).
  { intros c Hc. apply (Hn (dotted p (name s))).
    eapply scoped_state_child; [exact Hc|apply scoped_state_self]. }
  assert (IH' : Forall (fun c =>
            resolveTransitions_state m' (dotted p (name s))
              (setupInitialTransitions_state
                 (resolveTransitions_state m (dotted p (name s)) c))
            = setupInitialTransitions_state
                (resolveTransitions_state m (dotted p (name s)) c)) (children s)).
  { apply Forall_forall. intros c Hin.
    rewrite Forall_forall in IH. apply (IH c Hin).
    intros q s' Hq. apply (Hn q). eapply scoped_state_child; eassumption. }
  clear IH.
  destruct s as [n pa en ex ts cs ii it]. simpl in *. f_equal.
  - rewrite map_map. apply map_ext_Forall', Forall_forall. intros t _. cbv beta.
    rewrite ?set_target_twice, ?target_set_target, resolveTarget_idem by exact E.
    reflexivity.
  - rewrite !map_map. apply map_ext_Forall'. exact IH'.
  - destruct cs as [|c cs].
    + simpl. destruct it as [t|]; simpl; [|reflexivity].
      rewrite ?set_target_twice, ?target_set_target, resolveTarget_idem by exact E.
      reflexivity.
    + simpl map. destruct it as [t|]; simpl option_map.
      * rewrite ?set_target_twice, ?target_set_target, resolveTarget_idem by exact E.
        reflexivity.
      * change (resolveTransitions_state m (dotted p n) c
                :: map (resolveTransitions_state m (dotted p n)) cs)
          with (map (resolveTransitions_state m (dotted p n)) (c :: cs)).
        rewrite initialChild_map by (intros; apply resolve_isInitial).
        destruct (initialChild (c :: cs)) as [x|] eqn:I; simpl; [|reflexivity].
        rewrite resolve_name. unfold initTo at 1. unfold set_target. simpl.
        rewrite resolveTarget_key; [reflexivity|].
        right. rewrite E. apply Hc, initialChild_in, I.
Qed.

Lemma second_pass m m' sts :
  (forall k, has m' k = has m k) ->
  (forall q s, (q, s) ∈ scoped "" sts -> has m (name s) = true) ->
  let out := setupInitialTransitions (resolveTransitions m sts "") in
  setupInitialTransitions (resolveTransitions m' out "") = out.
Proof.
  intros E Hn out. unfold out, setupInitialTransitions, resolveTransitions.
  rewrite !map_map. apply map_ext_Forall', Forall_forall. intros s Hs.
  rewrite resolve_resolved; [apply setup_idem|exact E|].
  intros q s' Hq. apply (Hn q). unfold scoped.
  apply list_elem_of_In, in_flat_map. exists s.
  split; apply list_elem_of_In; assumption.
Qed.

Lemma built_has_names m sts q s :
  (q, s) ∈ scoped "" sts -> has (buildStateMap sts "" m) (name s) = true.
Proof.
  intros H. apply has_dom. rewrite buildStateMap_dom.
  apply elem_of_union_r. eapply name_in_keys, H.
Qed.

Lemma set_states_states sm sts : states (set_states sm sts) = sts.
Proof. reflexivity. Qed.

Lemma set_states_twice sm a b : set_states (set_states sm a) b = set_states sm b.
Proof. reflexivity. Qed.

(** C4.  A second run of [parseHierarchicalStates] on the model the
    first run returned gives back that model unchanged, on the same
    resolver (whatever its table held before the first run) and on a
    fresh resolver after a first run on a fresh resolver. *)
Theorem resolution_idempotent :
  (forall (m : gmap string State) (sm : StateMachine),
     let first := parseHierarchicalStates m sm in
     (parseHierarchicalStates first.1 first.2).2 = first.2)
  /\ (forall sm : StateMachine,
        let first := parseHierarchicalStates ∅ sm in
        (parseHierarchicalStates ∅ first.2).2 = first.2).
Proof.
  split.
  - intros m sm. unfold parseHierarchicalStates. simpl.
    rewrite set_states_twice. f_equal.
    apply second_pass.
    + apply has_ext. rewrite !buildStateMap_dom, keysOf_pass. set_solver.
    + intros q s. apply built_has_names.
  - intros sm. unfold parseHierarchicalStates. simpl.
    rewrite set_states_twice. f_equal.
    apply second_pass.
    + apply has_ext. rewrite !buildStateMap_dom, keysOf_pass. reflexivity.
    + intros q s. apply built_has_names.
Qed.

(** ** Scoped lookup *)

Lemma scopeLoop_first m parts tgt i : forall n,
  i <= n ->
  has m (dotted (join "." (take i parts)) tgt) = true ->
  (forall j, i < j <= n -> has m (dotted (join "." (take j parts)) tgt) = false) ->
  scopeLoop m parts tgt n = Some (dotted (join "." (take i parts)) tgt).
Proof.
  induction n as [|n IH]; intros Hi Hh Hf.
  - assert (i = 0) as -> by lia. simpl. simpl in Hh. rewrite Hh. reflexivity.
  - destruct (decide (i = S n)) as [->|Hne].
    + simpl scopeLoop. rewrite Hh. reflexivity.
    + simpl scopeLoop. rewrite (Hf (S n)) by lia.
      apply IH; [lia|exact Hh|]. intros j Hj. apply Hf. lia.
Qed.

(** C1, as stated, fails: in the tie-break machine the transition owned
    by [A.B] with raw target [B] keeps the target [B]; it is not
    rewritten to [A.B]. *)
Lemma tie_break_counterexample :
  targetsByPath (parseHierarchicalStates ∅ tieBreak).2
  = [("A", []); ("A.B", ["B"]); ("B", [])]
  /\ resolveTarget (buildStateMap (states tieBreak) "" ∅) "B" "A.B" <> "A.B".
Proof. split; [vm_compute; reflexivity|vm_compute; discriminate]. Qed.

(** C1, amended.  The exact-match rule comes first and the table holds
    the bare name of every state, so a target that is the name of a state
    of the tree is returned unchanged, from any scope.  A target that is
    neither reserved nor a key of the table is resolved against the
    scopes of the owning state from the innermost outward: the candidate
    of the innermost scope that is a key wins. *)
Theorem exact_match_before_scopes :
  (forall (m : gmap string State) (sts : list State) (q : string) (s : State)
          (fromPath : string),
     (q, s) ∈ scoped "" sts ->
     resolveTarget (buildStateMap sts "" m) (name s) fromPath = name s)
  /\ (forall (m : gmap string State) (tgt fromPath : string) (i : nat),
        let pathParts := split "." fromPath in
        let candidate j := dotted (join "." (take j pathParts)) tgt in
        reserved tgt = false -> has m tgt = false ->
        i <= length pathParts ->
        has m (candidate i) = true ->
        (forall j, i < j <= length pathParts -> has m (candidate j) = false) ->
        resolveTarget m tgt fromPath = candidate i).
Proof.
  split.
  - intros m sts q s fromPath H. apply resolveTarget_key. right.
    eapply built_has_names, H.
  - intros m tgt fromPath i pathParts candidate Hr Hk Hi Hc Hf.
    unfold resolveTarget. fold (reserved tgt). rewrite Hr, Hk.
    fold pathParts.
    rewrite (scopeLoop_first m pathParts tgt i (length pathParts) Hi Hc Hf).
    reflexivity.
Qed.

Lemma exact_match_before_scopes_witness :
  resolveTarget (buildStateMap (states tieBreak) "" ∅) "B" "A.B" = "B"
  /\ resolveTarget (buildStateMap nestedScopes "" ∅) "C.D" "A.X" = "A.C.D".
Proof.
  split.
  - apply (proj1 exact_match_before_scopes ∅ (states tieBreak) "A"
             (MkState "B" (Some "A") [] [] [MkTransition "EV" "B" None None None] []
                None None) "A.B").
    vm_compute. right. left.
  - apply (proj2 exact_match_before_scopes (buildStateMap nestedScopes "" ∅)
             "C.D" "A.X" 1).
    + reflexivity.
    + vm_compute. reflexivity.
    + vm_compute. lia.
    + vm_compute. reflexivity.
    + intros j Hj. assert (j = 2) as ->.
      { vm_compute in Hj. lia. }
      vm_compute. reflexivity.
Defined.

(** ** Default initial transitions *)

Lemma setup_children_names s :
  map name (children (setupInitialTransitions_state s)) = map name (children s).
Proof.
  destruct s as [n pa en ex ts cs ii it]. simpl. rewrite map_map.
  apply map_ext. intros c. apply setup_name.
Qed.

Lemma resolve_children_names m p s :
  map name (children (resolveTransitions_state m p s)) = map name (children s).
Proof.
  destruct s as [n pa en ex ts cs ii it]. simpl. rewrite map_map.
  apply map_ext. intros c. apply resolve_name.
Qed.





(** ** The forward traversal of the validator *)

Lemma firstSome_in {A B} (f : A -> option B) l y :
  firstSome f l = Some y -> exists x, x ∈ l /\ f x = Some y.
Proof.
  induction l as [|x l IH]; simpl; [discriminate|].
  destruct (f x) eqn:E.
  - intros [= <-]. exists x. split; [left|exact E].
  - intros H. destruct (IH H) as (x' & Hin & Hx). exists x'. split; [right|]; assumption.
Qed.

Lemma firstSome_none {A B} (f : A -> option B) l :
  firstSome f l = None <-> Forall (fun x => f x = None) l.
Proof.
  induction l as [|x l IH]; simpl.
  - split; [constructor|reflexivity].
  - destruct (f x) eqn:E.
    + split; [discriminate|]. intros H. inversion H; congruence.
    + rewrite IH. split; [intros H; constructor; assumption|].
      intros H. inversion H; assumption.
Qed.

(** A state that [findState] returns is a state of the tree. *)
Lemma findState_state_in n s : forall p st,
  findState_state n s = Some st -> exists q, (q, st) ∈ scoped_state p s.
Proof.
  induction s as [s IH] using State_tree_ind. intros p st.
  destruct s as [nm pa en ex ts cs ii it]. simpl in *.
  destruct (String.eqb nm n).
  - intros [= <-]. exists p. left.
  - intros H. apply firstSome_in in H as (c & Hc & Hf).
    rewrite Forall_forall in IH.
    destruct (IH c Hc (dotted p nm) st Hf) as [q Hq].
    exists q. right. apply list_elem_of_In, in_flat_map. exists c.
    split; apply list_elem_of_In; assumption.
Qed.

Lemma findState_in n sts p st :
  findState n sts = Some st -> exists q, (q, st) ∈ scoped p sts.
Proof.
  unfold findState. intros H. apply firstSome_in in H as (c & Hc & Hf).
  destruct (findState_state_in n c p st Hf) as [q Hq].
  exists q. unfold scoped. apply list_elem_of_In, in_flat_map. exists c.
  split; apply list_elem_of_In; assumption.
Qed.

Lemma targets_state_scoped s : forall p q st,
  (q, st) ∈ scoped_state p s ->
  forall x, x ∈ map target (transitions st)
            ++ match initialTransition st with Some t => [target t] | None => [] end ->
  x ∈ targets_state s.
Proof.
  induction s as [s IH] using State_tree_ind. intros p q st Hin x Hx.
  destruct s as [nm pa en ex ts cs ii it]. simpl in *.
  apply elem_of_cons in Hin as [[= -> ->]|Hin].
  - simpl in Hx. rewrite app_assoc. apply elem_of_app. left. exact Hx.
  - apply list_elem_of_In, in_flat_map in Hin as (c & Hc & Hq).
    rewrite !elem_of_app. right. right.
    apply list_elem_of_In, in_flat_map. exists c. split; [exact Hc|].
    apply list_elem_of_In. rewrite Forall_forall in IH.
    eapply (IH c); [apply list_elem_of_In, Hc|apply list_elem_of_In, Hq|exact Hx].
Qed.

Lemma followed_targets sts n st x :
  findState n sts = Some st ->
  x ∈ map target (transitions st)
      ++ match initialTransition st with Some t => [target t] | None => [] end ->
  x ∈ allTargets sts.
Proof.
  intros Hf Hx. destruct (findState_in n sts "" st Hf) as [q Hq].
  unfold scoped in Hq. apply list_elem_of_In, in_flat_map in Hq as (c & Hc & Hq).
  unfold allTargets. apply list_elem_of_In, in_flat_map. exists c. split; [exact Hc|].
  apply list_elem_of_In. eapply targets_state_scoped; [apply list_elem_of_In, Hq|exact Hx].
Qed.

Lemma size_difference_mono (U v v' : gset string) :
  v ⊆ v' -> size (U ∖ v') <= size (U ∖ v).
Proof. intros H. apply subseteq_size. set_solver. Qed.

Lemma size_difference_visit (U v : gset string) n :
  n ∈ U -> n ∉ v -> size (U ∖ ({[n]} ∪ v)) < size (U ∖ v).
Proof.
  intros HU Hv. apply subset_size. split; [set_solver|].
  intros H. specialize (H n). set_solver.
Qed.

Section Traversal.
Variable allStates : list State.
Variable U : gset string.
Hypothesis targets_in_U : forall x, x ∈ allTargets allStates -> x ∈ U.

(** With more fuel than names of [U] left to visit, the traversal ends. *)
Lemma traverse_ends : forall fuel n visited,
  n ∈ U -> size (U ∖ visited) < fuel ->
  exists v', traverseFromState fuel allStates n visited = Some v' /\ visited ⊆ v'.
Proof.
  induction fuel as [|fuel IH]; intros n visited Hn Hsz; [lia|].
  simpl. case_bool_decide as Hv; [eauto|].
  pose proof (size_difference_visit U visited n Hn Hv) as Hlt.
  destruct (findState n allStates) as [st|] eqn:Hf; [|eexists; split; [reflexivity|set_solver]].
  assert (Hloop : forall ts v,
            (forall t, t ∈ ts -> target t ∈ U) -> {[n]} ∪ visited ⊆ v ->
            exists v', foldOpt (fun v t =>
                                  if negb (flag (isInternal t))
                                  then traverseFromState fuel allStates (target t) v
                                  else Some v) ts v = Some v' /\ v ⊆ v').
  { induction ts as [|t ts IHts]; intros v Hts Hsub; simpl; [eauto|].
    destruct (negb (flag (isInternal t))).
    - destruct (IH (target t) v) as (v1 & -> & H1).
      + apply Hts. left.
      + pose proof (size_difference_mono U _ _ Hsub). lia.
      + destruct (IHts v1) as (v2 & -> & H2).
        * intros t' Ht'. apply Hts. right. exact Ht'.
        * set_solver.
        * eexists. split; [reflexivity|set_solver].
    - apply IHts; [|exact Hsub]. intros t' Ht'. apply Hts. right. exact Ht'. }
  destruct (Hloop (transitions st) ({[n]} ∪ visited)) as (v2 & -> & H2).
  { intros t Ht. apply targets_in_U. eapply followed_targets; [exact Hf|].
    apply elem_of_app. left. apply list_elem_of_fmap. exists t. split; [reflexivity|exact Ht]. }
  { reflexivity. }
  destruct (initialTransition st) as [t|] eqn:Hi; [|eexists; split; [reflexivity|set_solver]].
  destruct (IH (target t) v2) as (v3 & -> & H3).
  - apply targets_in_U. eapply followed_targets; [exact Hf|].
    apply elem_of_app. right. rewrite Hi. left.
  - pose proof (size_difference_mono U _ _ H2). lia.
  - eexists. split; [reflexivity|set_solver].
Qed.
End Traversal.

Lemma size_list_to_set_le (l : list string) : size (list_to_set l : gset string) <= length l.
Proof.
  induction l as [|x l IH].
  - rewrite list_to_set_nil, size_empty. simpl. lia.
  - rewrite list_to_set_cons, size_union_alt, size_singleton. simpl length.
    pose proof (subseteq_size (list_to_set l ∖ {[x]}) (list_to_set l : gset string)
                  ltac:(set_solver)).
    lia.
Qed.

Lemma visitedStates_total sm : exists visited, visitedStates sm = Some visited.
Proof.
  unfold visitedStates. destruct (truthy (initialState sm)); [|eauto].
  destruct (traverse_ends (states sm)
              ({[initialState sm]} ∪ list_to_set (allTargets (states sm)))
              ltac:(set_solver) (traversalFuel sm) (initialState sm) ∅)
    as (v & Hv & _); [set_solver| |eauto].
  unfold traversalFuel.
  pose proof (size_list_to_set_le (allTargets (states sm))).
  pose proof (subseteq_size
    (({[initialState sm]} ∪ list_to_set (allTargets (states sm))) ∖ ∅)
    ({[initialState sm]} ∪ list_to_set (allTargets (states sm)) : gset string)
    ltac:(set_solver)).
  pose proof (size_union_alt ({[initialState sm]} : gset string)
                (list_to_set (allTargets (states sm)))).
  pose proof (subseteq_size
    (list_to_set (allTargets (states sm)) ∖ {[initialState sm]})
    (list_to_set (allTargets (states sm)) : gset string) ltac:(set_solver)).
  rewrite size_singleton in *. lia.
Qed.

(** The validator returns on every machine. *)
Lemma validate_total sm : exists errs, validate sm = Some errs.
Proof.
  unfold validate, checkReachability.
  destruct (visitedStates_total sm) as [v ->]. eauto.
Qed.


Section TraversalResult.
Variable allStates : list State.

End TraversalResult.


(** ** Messages *)

Lemma string_eqb_length a b : String.length a <> String.length b -> String.eqb a b = false.
Proof. intros H. apply String.eqb_neq. intros ->. congruence. Qed.

Lemma endsWith_cons c s p :
  endsWith (String c s) p = String.eqb (String c s) p || endsWith s p.
Proof. reflexivity. Qed.

Lemma endsWith_app a b p :
  String.length p <= String.length b -> endsWith (a +:+ b) p = endsWith b p.
Proof.
  intros H. induction a as [|c a IH]; [reflexivity|].
  rewrite app_cons, endsWith_cons, IH.
  rewrite string_eqb_length; [reflexivity|].
  simpl. rewrite app_length_s. lia.
Qed.

Lemma startsWith_app p s : startsWith (p +:+ s) p = true.
Proof.
  unfold startsWith. induction p as [|c p IH]; [destruct s; reflexivity|].
  rewrite app_cons. simpl. destruct (ascii_dec c c); [exact IH|congruence].
Qed.

Lemma filter_none {A} (f : A -> bool) l :
  Forall (fun x => f x = false) l -> List.filter f l = [].
Proof. induction 1 as [|x l E _ IH]; simpl; [reflexivity|]. rewrite E. exact IH. Qed.

Lemma filter_all {A} (f : A -> bool) l :
  Forall (fun x => f x = true) l -> List.filter f l = l.
Proof. induction 1 as [|x l E _ IH]; simpl; [reflexivity|]. rewrite E, IH. reflexivity. Qed.

Lemma Forall_flat_map_tree {A B} (P : B -> Prop) (f : A -> list B) l :
  Forall (fun x => Forall P (f x)) l -> Forall P (flat_map f l).
Proof.
  induction 1 as [|x l H _ IH]; simpl; [constructor|]. apply Forall_app. auto.
Qed.

Lemma isUnreachable_unreachableDiag ps : isUnreachable (unreachableDiag ps) = true.
Proof.
  unfold isUnreachable, unreachableDiag. simpl message.
  rewrite <- app_assoc_s, endsWith_app by (simpl; lia).
  rewrite app_assoc_s, startsWith_app. reflexivity.
Qed.

Lemma isUnreachable_vacuous n :
  isUnreachable
    (MkValidationError warning
       ("State '" +:+ n +:+ "' has initial transition but no child states") None)
  = false.
Proof.
  unfold isUnreachable. simpl message.
  rewrite <- app_assoc_s, endsWith_app by (simpl; lia). apply andb_false_r.
Qed.

(** Goals [Forall (fun d => f d = false) l] on the diagnostics of a
    pass: split the list and evaluate [f] on each message. *)
Ltac other_messages :=
  repeat first
    [ apply Forall_nil_2
    | apply Forall_app_2
    | apply Forall_cons_2
    | match goal with
      | |- Forall _ (if ?c then _ else _) => destruct c
      | |- Forall _ (addError _ _ _) => unfold addError
      | |- Forall _ (match ?o with Some _ => _ | None => _ end) => destruct o
      end ];
  try (vm_compute; reflexivity).

(** ** The diagnostics of each pass *)

Lemma flat_map_if_filter {A B} (f : A -> bool) (g : A -> B) l :
  flat_map (fun x => if f x then [g x] else []) l = map g (List.filter f l).
Proof.
  induction l as [|x l IH]; simpl; [reflexivity|].
  destruct (f x); simpl; rewrite IH; reflexivity.
Qed.

Lemma flat_map_flat_map {A B C} (f : B -> list C) (g : A -> list B) l :
  flat_map f (flat_map g l) = flat_map (fun x => flat_map f (g x)) l.
Proof.
  induction l as [|x l IH]; simpl; [reflexivity|].
  rewrite flat_map_app, IH. reflexivity.
Qed.

Lemma checkUnreachable_state_scoped visited s : forall p,
  checkUnreachableStates_state visited p s
  = flat_map (fun ps => if unvisited visited ps then [unreachableDiag ps] else [])
             (scoped_state p s).
Proof.
  induction s as [s IH] using State_tree_ind. intros p.
  destruct s as [n pa en ex ts cs ii it]. simpl in *.
  rewrite flat_map_flat_map.
  rewrite (flat_map_ext_Forall (checkUnreachableStates_state visited (dotted p n))
             (fun x => flat_map
                (fun ps => if unvisited visited ps then [unreachableDiag ps] else [])
                (scoped_state (dotted p n) x)) cs).
  - change (unvisited visited (p, MkState n pa en ex ts cs ii it))
      with (negb (bool_decide (n ∈ visited)) && negb (String.eqb n "[*]")).
    destruct (negb (bool_decide (n ∈ visited)) && negb (String.eqb n "[*]")); reflexivity.
  - eapply Forall_impl; [exact IH|]. intros c Hc. apply Hc.
Qed.

Lemma checkUnreachable_scoped visited sts p :
  checkUnreachableStates visited sts p
  = map unreachableDiag (List.filter (unvisited visited) (scoped p sts)).
Proof.
  rewrite <- flat_map_if_filter. unfold checkUnreachableStates, scoped.
  rewrite flat_map_flat_map. apply flat_map_ext_Forall, Forall_forall.
  intros s _. apply checkUnreachable_state_scoped.
Qed.

Lemma fold_left_flat_map {A B S} (f : S -> B -> S) (g : A -> list B) l : forall a,
  fold_left f (flat_map g l) a = fold_left (fun a x => fold_left f (g x) a) l a.
Proof.
  induction l as [|x l IH]; intros a; simpl; [reflexivity|].
  rewrite fold_left_app, IH. reflexivity.
Qed.

Lemma fold_left_ext_Forall {A S} (f g : S -> A -> S) l :
  Forall (fun x => forall a, f a x = g a x) l ->
  forall a, fold_left f l a = fold_left g l a.
Proof.
  induction 1 as [|x l E _ IH]; intros a; simpl; [reflexivity|].
  rewrite E, IH. reflexivity.
Qed.

Lemma collect_state_scan s : forall pfx acc,
  collectStateNames_state pfx acc s = fold_left scanStep (scoped_state pfx s) acc.
Proof.
  induction s as [s IH] using State_tree_ind. intros pfx acc.
  destruct s as [n pa en ex ts cs ii it]. simpl in *.
  rewrite fold_left_flat_map. unfold scanStep at 2. simpl.
  apply fold_left_ext_Forall. eapply Forall_impl; [exact IH|].
  intros c Hc a. apply Hc.
Qed.

Lemma scan_errors l : forall seen errs,
  (fold_left scanStep l (seen, errs)).2 = errs ++ duplicateScan seen l.
Proof.
  induction l as [|ps l IH]; intros seen errs; simpl.
  - rewrite app_nil_r. reflexivity.
  - unfold scanStep at 2. simpl. rewrite IH.
    case_bool_decide; simpl; [rewrite <- app_assoc|]; reflexivity.
Qed.

Lemma collectStateNames_scan sts names pfx :
  (collectStateNames sts names pfx).2 = duplicateScan names (scoped pfx sts).
Proof.
  unfold collectStateNames, scoped.
  rewrite (fold_left_ext_Forall _ (fun a x => fold_left scanStep (scoped_state pfx x) a)).
  - rewrite <- fold_left_flat_map. apply (scan_errors _ names []).
  - apply Forall_forall. intros s _ a. apply collect_state_scan.
Qed.

Lemma duplicateScan_all seen l :
  Forall (fun d => isDuplicateName d = true) (duplicateScan seen l).
Proof.
  revert seen. induction l as [|ps l IH]; intros seen; simpl; [constructor|].
  apply Forall_app. split; [|apply IH].
  case_bool_decide; constructor; [|constructor].
  unfold isDuplicateName, duplicateDiag. simpl message. apply startsWith_app.
Qed.

Lemma duplicateScan_not_unreachable seen l :
  Forall (fun d => isUnreachable d = false) (duplicateScan seen l).
Proof.
  revert seen. induction l as [|ps l IH]; intros seen; simpl; [constructor|].
  apply Forall_app. split; [|apply IH].
  case_bool_decide; constructor; [|constructor]. vm_compute. reflexivity.
Qed.

Lemma duplicateScan_nil l : forall seen,
  duplicateScan seen l = [] <->
  NoDup (map (fun ps => name ps.2) l) /\ forall ps, ps ∈ l -> name ps.2 ∉ seen.
Proof.
  induction l as [|ps l IH]; intros seen; simpl.
  - split; [|reflexivity]. intros _. split; [constructor|]. intros ps H. inversion H.
  - split.
    + intros H. apply app_eq_nil in H as [H1 H2].
      case_bool_decide as Hin; [discriminate|].
      apply IH in H2 as [Hnd Hseen]. split.
      * constructor; [|exact Hnd].
        intros Hx. apply list_elem_of_fmap in Hx as (ps' & Hn & Hps').
        apply (Hseen ps' Hps'). rewrite <- Hn. set_solver.
      * intros ps' Hps'. apply elem_of_cons in Hps' as [->|Hps']; [exact Hin|].
        intros Hx. apply (Hseen ps' Hps'). set_solver.
    + intros [Hnd Hseen]. apply NoDup_cons in Hnd as [Hx Hnd].
      case_bool_decide as Hin.
      { exfalso. apply (Hseen ps); [left|exact Hin]. }
      simpl. apply IH. split; [exact Hnd|].
      intros ps' Hps' Hn. apply elem_of_union in Hn as [Hn|Hn].
      * apply elem_of_singleton in Hn. apply Hx.
        apply list_elem_of_fmap. exists ps'. split; [congruence|exact Hps'].
      * apply (Hseen ps'); [right; exact Hps'|exact Hn].
Qed.

Lemma validateStates_not_unreachable sts p :
  Forall (fun d => isUnreachable d = false) (validateStates sts p).
Proof.
  unfold validateStates. apply Forall_flat_map_tree, Forall_forall. intros s _. revert p.
  induction s as [s IH] using State_tree_ind. intros p.
  destruct s as [n pa en ex ts cs ii it]. simpl in *.
  repeat apply Forall_app_2.
  - other_messages.
  - other_messages.
  - destruct (_ && _); [|constructor]. constructor; [|constructor].
    apply isUnreachable_vacuous.
  - unfold validateActions. apply Forall_flat_map_tree, Forall_forall. intros a _.
    other_messages.
  - apply Forall_flat_map_tree. eapply Forall_impl; [exact IH|]. intros c Hc. apply Hc.
Qed.

Lemma validateStates_not_duplicate sts p :
  Forall (fun d => isDuplicateName d = false) (validateStates sts p).
Proof.
  unfold validateStates. apply Forall_flat_map_tree, Forall_forall. intros s _. revert p.
  induction s as [s IH] using State_tree_ind. intros p.
  destruct s as [n pa en ex ts cs ii it]. simpl in *.
  repeat apply Forall_app_2.
  - other_messages.
  - other_messages.
  - other_messages.
  - unfold validateActions. apply Forall_flat_map_tree, Forall_forall. intros a _.
    other_messages.
  - apply Forall_flat_map_tree. eapply Forall_impl; [exact IH|]. intros c Hc. apply Hc.
Qed.

Lemma validateTransition_other f sibs path ts it :
  (forall sev msg loc,
     (exists x, msg = "Transition target '" +:+ x)
     \/ (exists x, msg = "Unbalanced parentheses in guard: " +:+ x)
     \/ (exists x, msg = "Possible assignment instead of comparison in guard: " +:+ x)
     \/ (exists x, msg = "Duplicate transition for event '" +:+ x) ->
     f (MkValidationError sev msg loc) = false) ->
  Forall (fun d => f d = false) (validateTransition sibs path ts it).
Proof.
  intros Hf. unfold validateTransition, validateGuard, addError.
  repeat first
    [ apply Forall_nil_2 | apply Forall_app_2 | apply Forall_cons_2
    | match goal with
      | |- Forall _ (if ?c then _ else _) => destruct c
      | |- Forall _ (match ?o with Some _ => _ | None => _ end) => destruct o
      end ];
  apply Hf; eauto 6.
Qed.

Lemma validateStateTransitions_other f sts p :
  (forall sev msg loc,
     (exists x, msg = "Transition target '" +:+ x)
     \/ (exists x, msg = "Unbalanced parentheses in guard: " +:+ x)
     \/ (exists x, msg = "Possible assignment instead of comparison in guard: " +:+ x)
     \/ (exists x, msg = "Duplicate transition for event '" +:+ x) ->
     f (MkValidationError sev msg loc) = false) ->
  Forall (fun d => f d = false) (validateStateTransitions sts p).
Proof.
  intros Hf. unfold validateStateTransitions.
  apply Forall_flat_map_tree, Forall_forall. intros s _. generalize sts. revert p.
  induction s as [s IH] using State_tree_ind. intros p sibs.
  destruct s as [n pa en ex ts cs ii it]. simpl in *.
  apply Forall_app_2.
  - apply Forall_flat_map_tree, Forall_forall. intros x _.
    apply validateTransition_other, Hf.
  - apply Forall_flat_map_tree. eapply Forall_impl; [exact IH|]. intros c Hc. apply Hc.
Qed.

Lemma transitions_not_unreachable sm :
  Forall (fun d => isUnreachable d = false) (validateTransitions sm).
Proof.
  apply validateStateTransitions_other.
  intros sev msg loc [[x ->]|[[x ->]|[[x ->]|[x ->]]]]; vm_compute; reflexivity.
Qed.

Lemma transitions_not_duplicate sm :
  Forall (fun d => isDuplicateName d = false) (validateTransitions sm).
Proof.
  apply validateStateTransitions_other.
  intros sev msg loc [[x ->]|[[x ->]|[[x ->]|[x ->]]]]; vm_compute; reflexivity.
Qed.

Lemma conventions_not_unreachable sm :
  Forall (fun d => isUnreachable d = false) (validateQPConventions sm).
Proof.
  unfold validateQPConventions. apply Forall_app_2.
  - apply Forall_flat_map_tree, Forall_forall. intros e _. other_messages.
  - other_messages.
Qed.

Lemma conventions_not_duplicate sm :
  Forall (fun d => isDuplicateName d = false) (validateQPConventions sm).
Proof.
  unfold validateQPConventions. apply Forall_app_2.
  - apply Forall_flat_map_tree, Forall_forall. intros e _. other_messages.
  - other_messages.
Qed.

Lemma basic_not_unreachable sm :
  Forall (fun d => isUnreachable d = false) (validateBasicStructure sm).
Proof.
  unfold validateBasicStructure. repeat apply Forall_app_2; try other_messages.
  rewrite collectStateNames_scan. apply duplicateScan_not_unreachable.
Qed.

Lemma basic_duplicates sm :
  List.filter isDuplicateName (validateBasicStructure sm)
  = duplicateScan ∅ (scoped "" (states sm)).
Proof.
  unfold validateBasicStructure. rewrite !List.filter_app, collectStateNames_scan.
  rewrite (filter_all _ (duplicateScan _ _)) by apply duplicateScan_all.
  rewrite !filter_none; [reflexivity|other_messages..].
Qed.

Lemma unreachable_not_duplicate visited sts p :
  Forall (fun d => isDuplicateName d = false) (checkUnreachableStates visited sts p).
Proof.
  rewrite checkUnreachable_scoped. apply Forall_forall. intros d Hd.
  apply list_elem_of_fmap in Hd as (ps & -> & _). vm_compute. reflexivity.
Qed.

Lemma unreachable_all visited sts p :
  Forall (fun d => isUnreachable d = true) (checkUnreachableStates visited sts p).
Proof.
  rewrite checkUnreachable_scoped. apply Forall_forall. intros d Hd.
  apply list_elem_of_fmap in Hd as (ps & -> & _). apply isUnreachable_unreachableDiag.
Qed.

(** ** Duplicate names and unreachable states *)

(** C2, as stated, fails: in the tie-break machine the names are unique
    within each sibling scope ([A] and [B] at the root, [B] under [A]),
    and the validator reports the root state [B] as a duplicate. *)
Lemma duplicate_across_scopes_counterexample :
  siblingUnique (states tieBreak) = true
  /\ exists errs,
       validate tieBreak = Some errs
       /\ List.filter isDuplicateName errs
          = [MkValidationError error "Duplicate state name: B" (atState "B")].
Proof.
  split; [vm_compute; reflexivity|].
  eexists. split; vm_compute; reflexivity.
Qed.

(** C2, amended.  The validator checks names in one namespace for the
    whole tree: it reports a duplicate for every state whose name was
    already met earlier in pre-order, in whatever scope, and so emits no
    duplicate-name diagnostic exactly when all the state names of the
    tree are pairwise distinct. *)
Theorem duplicate_names_flat (sm : StateMachine) :
  exists errs,
    validate sm = Some errs
    /\ List.filter isDuplicateName errs = duplicateScan ∅ (scoped "" (states sm))
    /\ (List.filter isDuplicateName errs = [] <-> NoDup (namesOf (states sm))).
Proof.
  destruct (visitedStates_total sm) as [visited Hv].
  unfold validate, checkReachability. rewrite Hv. eexists. split; [reflexivity|].
  assert (E : List.filter isDuplicateName
                (validateBasicStructure sm ++ validateStates (states sm) "" ++
                 checkUnreachableStates visited (states sm) "" ++
                 validateTransitions sm ++ validateQPConventions sm)
              = duplicateScan ∅ (scoped "" (states sm))).
  { rewrite !List.filter_app, basic_duplicates.
    rewrite (filter_none _ (validateStates _ _)) by apply validateStates_not_duplicate.
    rewrite (filter_none _ (checkUnreachableStates _ _ _))
      by apply unreachable_not_duplicate.
    rewrite (filter_none _ (validateTransitions _)) by apply transitions_not_duplicate.
    rewrite (filter_none _ (validateQPConventions _)) by apply conventions_not_duplicate.
    rewrite !app_nil_r. reflexivity. }
  split; [exact E|]. rewrite E, duplicateScan_nil. unfold namesOf.
  split; [intros [H _]; exact H|]. intros H. split; [exact H|]. set_solver.
Qed.


(** ** Unmatched targets *)

Lemma scopeLoop_none m parts tgt : forall n,
  (forall j, j <= n -> has m (dotted (join "." (take j parts)) tgt) = false) ->
  scopeLoop m parts tgt n = None.
Proof.
  induction n as [|n IH]; intros H; simpl.
  - specialize (H 0 (le_n _)). simpl in H. rewrite H. reflexivity.
  - rewrite (H (S n)) by lia. apply IH. intros j Hj. apply H. lia.
Qed.

Lemma resolveTarget_unmatched m tgt fromPath :
  unmatched m tgt fromPath -> resolveTarget m tgt fromPath = tgt.
Proof.
  intros H. unfold unmatched, candidates in H. unfold resolveTarget. cbv zeta in *.
  destruct (_ || _); [reflexivity|].
  rewrite (H tgt) by left.
  rewrite scopeLoop_none.
  - destruct (1 <? length (split "." fromPath))%nat eqn:L; [|reflexivity].
    rewrite H; [reflexivity|]. right. apply elem_of_app. right. left.
  - intros j Hj. apply H. right. apply elem_of_app. left.
    apply list_elem_of_fmap. exists j. split; [reflexivity|].
    apply list_elem_of_In. rewrite <- in_rev. apply in_seq. lia.
Qed.

Lemma indexed_from_lookup {A} (l : list A) x : forall j k,
  l !! j = Some x -> (k + j, x) ∈ combine (seq k (length l)) l.
Proof.
  induction l as [|y l IH]; intros j k H; [discriminate|].
  destruct j as [|j]; simpl in *.
  - injection H as ->. rewrite Nat.add_0_r. left.
  - right. replace (k + S j) with (S k + j) by lia. apply IH, H.
Qed.

Lemma indexed_lookup {A} (l : list A) j x : l !! j = Some x -> (j, x) ∈ indexed l.
Proof. intros H. apply (indexed_from_lookup l x j 0 H). Qed.

Lemma findState_state_none n s : forall p,
  (forall q st, (q, st) ∈ scoped_state p s -> name st <> n) ->
  findState_state n s = None.
Proof.
  induction s as [s IH] using State_tree_ind. intros p H.
  assert (Hs : name s <> n) by (apply (H p), scoped_state_self).
  assert (Hc : Forall (fun c => findState_state n c = None) (children s)).
  { rewrite Forall_forall in IH. apply Forall_forall. intros c Hin.
    apply (IH c Hin (dotted p (name s))).
    intros q st Hq. apply (H q). eapply scoped_state_child; eassumption. }
  destruct s as [nm pa en ex ts cs ii it]. simpl in *.
  apply String.eqb_neq in Hs. rewrite Hs. apply firstSome_none, Hc.
Qed.

Lemma findState_none n sts p :
  (forall q st, (q, st) ∈ scoped p sts -> name st <> n) -> findState n sts = None.
Proof.
  intros H. apply firstSome_none, Forall_forall. intros s Hs.
  apply (findState_state_none n s p). intros q st Hq. apply (H q).
  unfold scoped. apply list_elem_of_In, in_flat_map. exists s.
  split; apply list_elem_of_In; assumption.
Qed.

(** A transition whose target is not special and is the name of no state
    is reported, wherever its owner is in the tree. *)
Lemma missing_reported tgt s : forall sibs p,
  isSpecialTarget tgt = false ->
  findState tgt sibs = None ->
  (forall q st, (q, st) ∈ scoped_state p s -> name st <> tgt) ->
  forall q st j tr,
    (q, st) ∈ scoped_state p s -> transitions st !! j = Some tr -> target tr = tgt ->
    missingTargetDiag (dotted q (name st)) tr ∈ validateStateTransitions_state sibs p s.
Proof.
  induction s as [s IH] using State_tree_ind.
  intros sibs p Hsp Hsibs Hnames q st j tr Hin Hj Htgt.
  assert (Hkids : findState tgt (children s) = None).
  { apply (findState_none tgt (children s) (dotted p (name s))).
    intros q' st' Hq'. apply (Hnames q').
    unfold scoped in Hq'. apply list_elem_of_In, in_flat_map in Hq' as (c & Hc & Hq').
    eapply scoped_state_child; apply list_elem_of_In; eassumption. }
  destruct s as [nm pa en ex ts cs ii it]. simpl in *.
  apply elem_of_app. apply elem_of_cons in Hin as [[= -> ->]|Hin].
  - left. simpl in Hj. apply list_elem_of_In, in_flat_map. exists (j, tr).
    split; [apply list_elem_of_In, indexed_lookup, Hj|].
    unfold validateTransition. simpl. rewrite Htgt, Hsp, Hsibs. simpl.
    left. unfold missingTargetDiag. rewrite Htgt. reflexivity.
  - right. apply list_elem_of_In, in_flat_map in Hin as (c & Hc & Hq).
    apply list_elem_of_In, in_flat_map. exists c. split; [exact Hc|].
    apply list_elem_of_In. rewrite Forall_forall in IH.
    apply (IH c (proj2 (list_elem_of_In _ _) Hc) cs (dotted p nm) Hsp Hkids) with (j := j);
      [|apply list_elem_of_In, Hq|exact Hj|exact Htgt].
    intros q' st' Hq'. apply (Hnames q'). right.
    apply list_elem_of_In, in_flat_map. exists c. split; [exact Hc|].
    apply list_elem_of_In, Hq'.
Qed.

Lemma missing_reported_top tgt sts q st j tr :
  isSpecialTarget tgt = false ->
  (forall q' st', (q', st') ∈ scoped "" sts -> name st' <> tgt) ->
  (q, st) ∈ scoped "" sts -> transitions st !! j = Some tr -> target tr = tgt ->
  missingTargetDiag (dotted q (name st)) tr ∈ validateStateTransitions sts "".
Proof.
  intros Hsp Hnames Hin Hj Htgt.
  unfold scoped in Hin. apply list_elem_of_In, in_flat_map in Hin as (s & Hs & Hq).
  unfold validateStateTransitions. apply list_elem_of_In, in_flat_map.
  exists s. split; [exact Hs|]. apply list_elem_of_In.
  eapply missing_reported; try eassumption.
  - apply (findState_none tgt sts ""). exact Hnames.
  - intros q' st' Hq'. apply (Hnames q'). unfold scoped.
    apply list_elem_of_In, in_flat_map. exists s. split; [exact Hs|].
    apply list_elem_of_In, Hq'.
  - apply list_elem_of_In, Hq.
Qed.

Lemma set_target_same tr : set_target tr (target tr) = tr.
Proof. destruct tr; reflexivity. Qed.

Lemma resolve_transitions m p s :
  transitions (resolveTransitions_state m p s)
  = map (fun t => set_target t (resolveTarget m (target t) (dotted p (name s))))
        (transitions s).
Proof. destruct s; reflexivity. Qed.

Lemma setup_transitions s :
  transitions (setupInitialTransitions_state s) = transitions s.
Proof. destruct s; reflexivity. Qed.

(** C6, as stated, fails: the target [OldHistory] matches no state, the
    resolver leaves it as it is, and the validator, which takes every
    target containing [History] for a special one, reports nothing. *)
Lemma unmatched_history_counterexample :
  unmatched (buildStateMap (states dangling) "" ∅) "OldHistory" "Idle"
  /\ targetsByPath (parseHierarchicalStates ∅ dangling).2 = [("Idle", ["OldHistory"])]
  /\ validate (parseHierarchicalStates ∅ dangling).2 = Some [].
Proof.
  split; [|split; vm_compute; reflexivity].
  intros k Hk. vm_compute in Hk.
  repeat (apply elem_of_cons in Hk as [->|Hk]; [vm_compute; reflexivity|]).
  inversion Hk.
Qed.

(** C6, amended.  A transition whose target matches no state under any
    lookup rule of the resolver is kept by the resolver in its place with
    its target, event, guard and action unchanged, in a state that keeps
    its place and name; and the validator then reports, as an error
    located at the full path of the owning state and the event of the
    transition, that the target does not exist, unless the target is one
    the validator takes for special: [[*]], a text starting with [[H], or
    a text containing [History]. *)
Theorem unmatched_target_reported
    (m : gmap string State) (sm : StateMachine) (i j : nat) (p : string)
    (s : State) (tr : Transition) :
  scoped "" (states sm) !! i = Some (p, s) ->
  transitions s !! j = Some tr ->
  unmatched (buildStateMap (states sm) "" m) (target tr) (dotted p (name s)) ->
  let out := (parseHierarchicalStates m sm).2 in
  exists s',
    scoped "" (states out) !! i = Some (p, s')
    /\ name s' = name s
    /\ length (transitions s') = length (transitions s)
    /\ transitions s' !! j = Some tr
    /\ (isSpecialTarget (target tr) = false ->
        exists errs,
          validate out = Some errs
          /\ missingTargetDiag (dotted p (name s)) tr ∈ errs).
Proof.
  intros Hi Hj Hun out.
  set (M := buildStateMap (states sm) "" m) in *.
  set (s' := setupInitialTransitions_state (resolveTransitions_state M p s)).
  assert (Hname : name s' = name s).
  { unfold s'. rewrite setup_name, resolve_name. reflexivity. }
  exists s'.
  assert (Hout : scoped "" (states out) !! i = Some (p, s')).
  { unfold out, parseHierarchicalStates. simpl. fold M.
    rewrite scoped_pass, list_lookup_fmap, Hi. reflexivity. }
  assert (Htr : transitions s' !! j = Some tr).
  { unfold s'. rewrite setup_transitions, resolve_transitions, list_lookup_fmap, Hj. simpl.
    rewrite (resolveTarget_unmatched _ _ _ Hun), set_target_same. reflexivity. }
  split; [exact Hout|]. split; [exact Hname|].
  split; [unfold s'; rewrite setup_transitions, resolve_transitions, length_map; reflexivity|].
  split; [exact Htr|].
  intros Hsp. destruct (validate_total out) as [errs Hv]. exists errs.
  split; [exact Hv|].
  unfold validate in Hv. destruct (checkReachability out) as [reach|]; [|discriminate].
  injection Hv as <-.
  apply elem_of_app. right. apply elem_of_app. right. apply elem_of_app. right.
  apply elem_of_app. left. unfold validateTransitions.
  rewrite <- Hname.
  apply (missing_reported_top (target tr) (states out) p s' j tr Hsp);
    [|eapply list_elem_of_lookup_2, Hout|exact Htr|reflexivity].
  intros q' st' Hq' Hn.
  unfold out, parseHierarchicalStates in Hq'. simpl in Hq'. fold M in Hq'.
  rewrite scoped_pass in Hq'. apply list_elem_of_fmap in Hq' as ([q0 s0] & [= -> ->] & Hin).
  rewrite setup_name, resolve_name in Hn. simpl in Hn.
  pose proof (built_has_names m (states sm) q0 s0 Hin) as Hhas. fold M in Hhas.
  rewrite Hn in Hhas. rewrite (Hun (target tr)) in Hhas; [discriminate|left].
Qed.

Lemma unmatched_target_reported_witness :
  exists s',
    scoped "" (states (parseHierarchicalStates ∅ danglingNowhere).2) !! 0 = Some ("", s')
    /\ transitions s' !! 0 = Some (MkTransition "GO" "Nowhere" None None None)
    /\ exists errs,
         validate (parseHierarchicalStates ∅ danglingNowhere).2 = Some errs
         /\ MkValidationError error "Transition target 'Nowhere' does not exist"
              (atTransition "Idle" "GO") ∈ errs.
Proof.
  assert (Hun : unmatched (buildStateMap (states danglingNowhere) "" ∅) "Nowhere" "Idle").
  { intros k Hk. vm_compute in Hk.
    repeat (apply elem_of_cons in Hk as [->|Hk]; [vm_compute; reflexivity|]).
    inversion Hk. }
  destruct (unmatched_target_reported ∅ danglingNowhere 0 0 ""
              (MkState "Idle" None [] [] [MkTransition "GO" "Nowhere" None None None] []
                 None None)
              (MkTransition "GO" "Nowhere" None None None) eq_refl eq_refl Hun)
    as (s' & H1 & _ & _ & H4 & H5).
  exists s'. split; [exact H1|]. split; [exact H4|]. apply H5. reflexivity.
Defined.

(** ** The preprocessor *)








(** C8, the failing input: the block of a state called [A_to_B_EV] holds
    the transition [A --> B : EV], whose metadata entry takes the key of
    the block; the [entry:] line that follows finds no [entry] array
    under that key, and [preprocess] throws. *)
Theorem preprocess_throws_on_key_collision : preprocess keyCollision = TypeError.
Proof. vm_compute. reflexivity. Qed.




(** ** The parser *)

(** *** Mutation through a reference *)

Lemma mutate_cons f i r' sts :
  mutate f (i :: r') sts
  = match r' with
    | [] => alter f i sts
    | _ => alter (fun s => set_children s (mutate f r' (children s))) i sts
    end.
Proof. reflexivity. Qed.

Lemma deref_cons i r' sts :
  deref (i :: r') sts
  = match sts !! i with
    | None => None
    | Some s => match r' with [] => Some s | _ => deref r' (children s) end
    end.
Proof. reflexivity. Qed.

Lemma in_flat_map_alter {B} (h : State -> list B) (g : State -> State) i sts x :
  (forall s, x ∈ h s -> x ∈ h (g s)) ->
  x ∈ flat_map h sts -> x ∈ flat_map h (alter g i sts).
Proof.
  intros Hg. revert i. induction sts as [|s sts IH]; intros i; [intros H; exact H|].
  simpl. rewrite elem_of_app. intros [H|H]; destruct i as [|i]; simpl;
    rewrite elem_of_app.
  - left. apply Hg, H.
  - left. exact H.
  - right. exact H.
  - right. apply IH, H.
Qed.

Lemma in_flat_map_alter_inv {B} (h : State -> list B) (g : State -> State)
    (Q : B -> Prop) i sts x :
  (forall s, s ∈ sts -> x ∈ h (g s) -> x ∈ h s \/ Q x) ->
  x ∈ flat_map h (alter g i sts) -> x ∈ flat_map h sts \/ Q x.
Proof.
  revert i. induction sts as [|s sts IH]; intros i Hg; [intros H; left; exact H|].
  destruct i as [|i]; simpl; rewrite !elem_of_app.
  - intros [H|H]; [|auto]. destruct (Hg s ltac:(left) H); auto.
  - intros [H|H]; [auto|].
    destruct (IH i) as [H'|H']; auto. intros s' Hs'. apply Hg. right. exact Hs'.
Qed.

Lemma names_state_children s cs :
  names_state (set_children s cs) = name s :: flat_map names_state cs.
Proof. destruct s; reflexivity. Qed.

Lemma targets_state_children s cs :
  transitionTargets_state (set_children s cs)
  = map target (transitions s) ++ flat_map transitionTargets_state cs.
Proof. destruct s; reflexivity. Qed.

Lemma names_state_unfold s :
  names_state s = name s :: flat_map names_state (children s).
Proof. destruct s; reflexivity. Qed.

Lemma targets_state_unfold s :
  transitionTargets_state s
  = map target (transitions s) ++ flat_map transitionTargets_state (children s).
Proof. destruct s; reflexivity. Qed.

(** A mutation that keeps the names of a state keeps the names of the tree. *)
Lemma mutate_names_mono f x :
  (forall s, x ∈ names_state s -> x ∈ names_state (f s)) ->
  forall r sts, x ∈ flat_map names_state sts -> x ∈ flat_map names_state (mutate f r sts).
Proof.
  intros Hf. induction r as [|i r IH]; intros sts H; [exact H|].
  rewrite mutate_cons. destruct r as [|j r].
  - apply in_flat_map_alter; assumption.
  - apply in_flat_map_alter; [|exact H]. intros s.
    rewrite names_state_children, (names_state_unfold s), !elem_of_cons.
    intros [->|Hx]; [left; reflexivity|right]. apply IH, Hx.
Qed.

(** A mutation that adds to a state only targets that are names of its
    subtree, or targets for which [Q] holds, adds only such targets to the
    tree. *)
Lemma mutate_targets f (Q : Prop) x :
  (forall s, x ∈ transitionTargets_state (f s) ->
             x ∈ transitionTargets_state s \/ x ∈ names_state s \/ Q) ->
  (forall s y, y ∈ names_state s -> y ∈ names_state (f s)) ->
  forall r sts,
    x ∈ flat_map transitionTargets_state (mutate f r sts) ->
    x ∈ flat_map transitionTargets_state sts
    \/ x ∈ flat_map names_state sts \/ Q.
Proof.
  intros Hf Hn. induction r as [|i r IH]; intros sts H; [left; exact H|].
  rewrite mutate_cons in H. destruct r as [|j r].
  - apply (in_flat_map_alter_inv transitionTargets_state f
             (fun x => x ∈ flat_map names_state sts \/ Q)) in H; [exact H|].
    intros s Hs Hx. destruct (Hf s Hx) as [H1|[H1|H1]]; auto.
    right. left. apply list_elem_of_In, in_flat_map. exists s.
    split; apply list_elem_of_In; assumption.
  - apply (in_flat_map_alter_inv transitionTargets_state _
             (fun x => x ∈ flat_map names_state sts \/ Q)) in H; [exact H|].
    intros s Hs. rewrite targets_state_children, (targets_state_unfold s), !elem_of_app.
    intros [Hx|Hx]; [auto|].
    destruct (IH _ Hx) as [H1|[H1|H1]]; auto.
    right. left. apply list_elem_of_In, in_flat_map. exists s.
    split; [apply list_elem_of_In, Hs|]. apply list_elem_of_In.
    rewrite names_state_unfold. right. exact H1.
Qed.

Lemma deref_app r : forall sts extra,
  is_Some (deref r sts) -> deref r (sts ++ extra) = deref r sts.
Proof.
  destruct r as [|i r]; intros sts extra H; [reflexivity|].
  rewrite !deref_cons in *.
  destruct (sts !! i) as [s|] eqn:E; [|destruct H; discriminate].
  rewrite (lookup_app_l_Some _ _ _ _ E). reflexivity.
Qed.

(** A mutation that only appends children keeps every reference valid. *)
Lemma mutate_deref f :
  (forall s, exists extra, children (f s) = children s ++ extra) ->
  forall r0 r sts, is_Some (deref r0 sts) -> is_Some (deref r0 (mutate f r sts)).
Proof.
  intros Hf. induction r0 as [|i0 r0 IH]; intros r sts H; [destruct H; discriminate|].
  destruct r as [|i r]; [exact H|].
  rewrite mutate_cons, deref_cons. rewrite deref_cons in H.
  destruct (sts !! i0) as [s|] eqn:E; [|destruct H; discriminate].
  destruct (decide (i0 = i)) as [->|Hne].
  - destruct r as [|j r].
    + rewrite list_lookup_alter_eq, E. simpl.
      destruct r0 as [|j0 r0]; [eauto|].
      destruct (Hf s) as [extra ->]. rewrite deref_app; exact H.
    + rewrite list_lookup_alter_eq, E. simpl.
      destruct r0 as [|j0 r0]; [eauto|].
      destruct s as [? ? ? ? ? cs ? ?]. cbn [children set_children] in *.
      apply (IH (j :: r) cs), H.
  - destruct r as [|j r]; rewrite list_lookup_alter_ne, E by congruence; exact H.
Qed.

(** A mutation of the state behind a valid reference shows in the tree. *)
Lemma mutate_names_new f a :
  (forall s, a ∈ names_state (f s)) ->
  forall r sts, is_Some (deref r sts) -> a ∈ flat_map names_state (mutate f r sts).
Proof.
  intros Hf. induction r as [|i r IH]; intros sts H; [destruct H; discriminate|].
  rewrite mutate_cons. rewrite deref_cons in H.
  destruct (sts !! i) as [s|] eqn:E; [|destruct H; discriminate].
  assert (Hin : forall g, a ∈ names_state (g s) ->
                          a ∈ flat_map names_state (alter g i sts)).
  { intros g Hg. apply list_elem_of_In, in_flat_map. exists (g s).
    split; [|apply list_elem_of_In, Hg].
    apply list_elem_of_In. apply list_elem_of_lookup. exists i.
    rewrite list_lookup_alter_eq, E. reflexivity. }
  destruct r as [|j r]; apply Hin; [apply Hf|].
  rewrite names_state_children. right. apply IH, H.
Qed.

Lemma mutate_push_child_ref c : forall r sts par,
  deref r sts = Some par ->
  deref (r ++ [length (children par)]) (mutate (push_child c) r sts) = Some c.
Proof.
  induction r as [|i r IH]; intros sts par H; [discriminate|].
  rewrite deref_cons in H.
  destruct (sts !! i) as [s|] eqn:E; [|discriminate].
  change ((i :: r) ++ [length (children par)]) with (i :: (r ++ [length (children par)])).
  rewrite mutate_cons, deref_cons.
  destruct r as [|j r].
  - injection H as ->. rewrite list_lookup_alter_eq, E. simpl.
    destruct par; simpl. rewrite lookup_app_r by lia.
    rewrite Nat.sub_diag. reflexivity.
  - rewrite list_lookup_alter_eq, E. simpl.
    destruct s as [? ? ? ? ? cs ? ?]. cbn [children set_children] in *.
    apply (IH cs par), H.
Qed.

(** *** [findOrCreateState] *)

Lemma findRef_state_unfold n s :
  findRef_state n s
  = if String.eqb (name s) n then Some [] else findRef_from n 0 (children s).
Proof.
  destruct s as [nm pa en ex ts cs ii it]. simpl.
  destruct (String.eqb nm n); [reflexivity|].
  generalize 0. induction cs as [|c cs IH]; intros i; simpl; [reflexivity|].
  destruct (findRef_state n c); [reflexivity|]. apply IH.
Qed.

(** What [findRef_from] returns, for a search that starts at index [i],
    is a valid reference to a state called [n]. *)
Lemma findRef_from_found n l : forall i r,
  Forall (fun s => forall r, findRef_state n s = Some r ->
                             n ∈ names_state s
                             /\ (r <> [] -> is_Some (deref r (children s)))) l ->
  findRef_from n i l = Some r ->
  exists j r', r = (i + j) :: r' /\ is_Some (deref (j :: r') l)
               /\ n ∈ flat_map names_state l.
Proof.
  induction l as [|c l IH]; intros i r Hl; simpl; [discriminate|].
  inversion Hl as [|? ? Hc Hl']; subst.
  destruct (findRef_state n c) as [r'|] eqn:E.
  - intros [= <-]. exists 0, r'. rewrite Nat.add_0_r.
    destruct (Hc r' eq_refl) as [Hn Hd].
    split; [reflexivity|]. split; [|apply elem_of_app; left; exact Hn].
    simpl. destruct r'; [eauto|]. apply Hd. discriminate.
  - intros H. destruct (IH _ _ Hl' H) as (j & r' & -> & Hd & Hn).
    exists (S j), r'. split; [f_equal; lia|].
    split; [exact Hd|apply elem_of_app; right; exact Hn].
Qed.

Lemma findRef_state_found n s : forall r,
  findRef_state n s = Some r ->
  n ∈ names_state s /\ (r <> [] -> is_Some (deref r (children s))).
Proof.
  induction s as [s IH] using State_tree_ind. intros r.
  rewrite findRef_state_unfold, names_state_unfold.
  destruct (String.eqb (name s) n) eqn:E.
  - intros [= <-]. apply String.eqb_eq in E. rewrite E. split; [left|congruence].
  - intros H. destruct (findRef_from_found n (children s) 0 r IH H)
      as (j & r' & -> & Hd & Hn).
    split; [right; exact Hn|]. intros _. exact Hd.
Qed.

Lemma findRef_found n sts r :
  findRef n sts = Some r ->
  is_Some (deref r sts) /\ n ∈ flat_map names_state sts.
Proof.
  intros H. destruct (findRef_from_found n sts 0 r) as (j & r' & -> & Hd & Hn).
  - apply Forall_forall. intros s _. apply findRef_state_found.
  - exact H.
  - split; assumption.
Qed.

Lemma push_child_names c s x : x ∈ names_state s -> x ∈ names_state (push_child c s).
Proof.
  unfold push_child. rewrite names_state_children, (names_state_unfold s), !elem_of_cons.
  intros [->|H]; [left; reflexivity|right].
  rewrite flat_map_app. apply elem_of_app. left. exact H.
Qed.

Lemma push_child_new c s : name c ∈ names_state (push_child c s).
Proof.
  unfold push_child. rewrite names_state_children. right.
  rewrite flat_map_app. apply elem_of_app. right. simpl.
  rewrite app_nil_r, names_state_unfold. left.
Qed.

(** The invariant of the parser, and what [findOrCreateState] adds to it:
    the state asked for is in the tree behind the reference returned. *)
Lemma findOrCreateState_spec p n :
  stackValid p -> targetsExist (states (stateMachine p)) ->
  let p' := (findOrCreateState p n).1 in
  let r := (findOrCreateState p n).2 in
  stackValid p' /\ targetsExist (states (stateMachine p'))
  /\ stateStack p' = stateStack p
  /\ is_Some (deref r (states (stateMachine p')))
  /\ n ∈ flat_map names_state (states (stateMachine p'))
  /\ (forall x, x ∈ flat_map names_state (states (stateMachine p)) ->
                x ∈ flat_map names_state (states (stateMachine p')))
  /\ (forall r0, is_Some (deref r0 (states (stateMachine p))) ->
                 is_Some (deref r0 (states (stateMachine p')))).
Proof.
  intros Hst Hte. unfold findOrCreateState.
  destruct (findRef n (states (stateMachine p))) as [r|] eqn:Ef.
  { simpl. destruct (findRef_found _ _ _ Ef) as [Hd Hn]. repeat split; auto. }
  destruct (stateStack p) as [|top stk] eqn:Es.
  - simpl. set (st := MkState n None [] [] [] [] None None).
    assert (Hd : forall r0, is_Some (deref r0 (states (stateMachine p))) ->
                            is_Some (deref r0 (states (stateMachine p) ++ [st]))).
    { intros r0 H. rewrite deref_app; exact H. }
    repeat split.
    + intros r0 Hr0. simpl in Hr0 |- *. apply Hd, Hst, Hr0.
    + intros x Hx. simpl in Hx |- *. rewrite flat_map_app in Hx |- *.
      apply elem_of_app in Hx as [Hx|Hx]; [|inversion Hx].
      apply elem_of_app. left. apply Hte, Hx.
    + simpl. rewrite Es. reflexivity.
    + change (is_Some (deref [length (states (stateMachine p))]
                         (states (stateMachine p) ++ [st]))).
      rewrite deref_cons, lookup_app_r, Nat.sub_diag by lia. simpl. eauto.
    + simpl. rewrite flat_map_app. apply elem_of_app. right. left.
    + intros x H. simpl. rewrite flat_map_app. apply elem_of_app. left. exact H.
    + exact Hd.
  - assert (Htop : is_Some (deref top (states (stateMachine p)))).
    { apply Hst. rewrite Es. left. }
    destruct Htop as [par Hpar]. rewrite Hpar. simpl.
    set (st := MkState n (Some (name par)) [] [] [] [] None None).
    assert (Hd : forall r0, is_Some (deref r0 (states (stateMachine p))) ->
               is_Some (deref r0 (mutate (push_child st) top (states (stateMachine p))))).
    { intros r0 H. apply mutate_deref; [|exact H].
      intros s. exists [st]. destruct s; reflexivity. }
    assert (Hn : forall x, x ∈ flat_map names_state (states (stateMachine p)) ->
               x ∈ flat_map names_state
                     (mutate (push_child st) top (states (stateMachine p)))).
    { intros x. apply mutate_names_mono. intros s. apply push_child_names. }
    repeat split.
    + intros r0 Hr0. simpl in Hr0 |- *. apply Hd, Hst, Hr0.
    + intros x Hx. simpl in Hx |- *.
      apply (mutate_targets (push_child st) False x) in Hx.
      * destruct Hx as [Hx|[Hx|[]]]; [apply Hn, Hte, Hx|apply Hn, Hx].
      * intros s. unfold push_child.
        rewrite targets_state_children, (targets_state_unfold s), flat_map_app.
        simpl. rewrite app_nil_r. auto.
      * intros s y. apply push_child_names.
    + simpl. rewrite Es. reflexivity.
    + simpl. erewrite mutate_push_child_ref by exact Hpar. eauto.
    + simpl. apply (mutate_names_new (push_child st) n); [|eauto].
      intros s. apply (push_child_new st).
    + exact Hn.
    + exact Hd.
Qed.

(** *** The invariant of the parser *)

Lemma with_states_states p sts : states (stateMachine (with_states p sts)) = sts.
Proof. reflexivity. Qed.

Lemma with_states_stack p sts : stateStack (with_states p sts) = stateStack p.
Proof. reflexivity. Qed.

(** A mutation that keeps the children and the name of a state, and adds
    to its transitions only targets that are its own name or satisfy [Q],
    where [Q] holds of names of the tree only, keeps the invariant of the
    parser. *)
Lemma mutate_invariant f (Q : string -> Prop) p r :
  (forall s, children (f s) = children s) ->
  (forall s, name (f s) = name s) ->
  (forall s x, x ∈ map target (transitions (f s)) ->
               x ∈ map target (transitions s) \/ x = name s \/ Q x) ->
  (forall x, Q x -> x ∈ flat_map names_state (states (stateMachine p))) ->
  stackValid p -> targetsExist (states (stateMachine p)) ->
  stackValid (with_states p (mutate f r (states (stateMachine p))))
  /\ targetsExist (mutate f r (states (stateMachine p))).
Proof.
  intros Hc Hnm Ht HQ Hst Hte.
  assert (Hn : forall s y, y ∈ names_state s -> y ∈ names_state (f s)).
  { intros s y. rewrite (names_state_unfold s), (names_state_unfold (f s)), Hc, Hnm. auto. }
  split.
  - intros r0 Hr0. rewrite with_states_states. rewrite with_states_stack in Hr0.
    apply mutate_deref; [|apply Hst, Hr0].
    intros s. exists []. rewrite app_nil_r. apply Hc.
  - intros x Hx.
    apply (mutate_targets f (Q x) x) in Hx.
    + destruct Hx as [Hx|[Hx|Hx]].
      * apply mutate_names_mono; [intros s; apply Hn|]. apply Hte, Hx.
      * apply mutate_names_mono; [intros s; apply Hn|]. exact Hx.
      * apply mutate_names_mono; [intros s; apply Hn|]. apply HQ, Hx.
    + intros s. rewrite (targets_state_unfold (f s)), (targets_state_unfold s), Hc.
      rewrite !elem_of_app. intros [H|H]; [|auto].
      destruct (Ht s x H) as [H'|[H'|H']]; auto.
      right. left. rewrite names_state_unfold, H'. left.
    + exact Hn.
Qed.

Lemma push_transition_targets t s x :
  x ∈ map target (transitions (push_transition t s)) ->
  x ∈ map target (transitions s) \/ x = target t.
Proof.
  destruct s; simpl. rewrite map_app, elem_of_app. simpl.
  intros [H|H]; [auto|]. apply list_elem_of_singleton in H. auto.
Qed.

Lemma parseTransition_invariant p line :
  stackValid p -> targetsExist (states (stateMachine p)) ->
  stackValid (parseTransition p line)
  /\ targetsExist (states (stateMachine (parseTransition p line))).
Proof.
  intros Hst Hte. unfold parseTransition.
  destruct (exec re_parseTransition line) as [m|]; [|auto].
  destruct (findOrCreateState_spec p (capture1 m 1) Hst Hte)
    as (Hst1 & Hte1 & _ & Hd1 & _ & _ & _).
  destruct (findOrCreateState_spec _ (capture1 m 2) Hst1 Hte1)
    as (Hst2 & Hte2 & _ & _ & Hn2 & _ & _).
  cbv zeta. rewrite with_states_states.
  apply (mutate_invariant _ (fun x => x = capture1 m 2)); try assumption.
  - intros s. destruct s; reflexivity.
  - intros s. destruct s; reflexivity.
  - intros s x Hx. apply push_transition_targets in Hx as [Hx|Hx]; auto.
  - intros x ->. exact Hn2.
Qed.

Lemma parseLine_invariant p line :
  stackValid p -> targetsExist (states (stateMachine p)) ->
  stackValid (parseLine p line) /\ targetsExist (states (stateMachine (parseLine p line))).
Proof.
  intros Hst Hte. unfold parseLine. cbv zeta.
  destruct (includes line "[*]" && includes line "-->").
  { destruct (exec re_initial line); auto. }
  destruct (startsWith line "state " && includes line "{").
  { destruct (exec re_stateBlock line) as [m|]; [|auto].
    destruct (findOrCreateState_spec p (capture1 m 1) Hst Hte)
      as (Hst1 & Hte1 & _ & Hd1 & _ & _ & _).
    split; [|exact Hte1].
    intros r Hr. simpl in Hr |- *. apply elem_of_cons in Hr as [->|Hr]; [exact Hd1|].
    apply Hst1, Hr. }
  destruct (String.eqb line "}").
  { split; [|exact Hte]. intros r Hr. simpl in Hr |- *. apply Hst.
    destruct (stateStack p); [inversion Hr|right; exact Hr]. }
  destruct (startsWith line "entry:").
  { destruct (stateStack p) as [|top stk] eqn:Es; [auto|].
    rewrite with_states_states.
    apply (mutate_invariant _ (fun _ => False)); try assumption;
      try (intros s; destruct s; reflexivity).
    - intros s x Hx. destruct s; auto.
    - intros x []. }
  destruct (startsWith line "exit:").
  { destruct (stateStack p) as [|top stk] eqn:Es; [auto|].
    rewrite with_states_states.
    apply (mutate_invariant _ (fun _ => False)); try assumption;
      try (intros s; destruct s; reflexivity).
    - intros s x Hx. destruct s; auto.
    - intros x []. }
  destruct (includes line "-->") eqn:Ea.
  { apply parseTransition_invariant; assumption. }
  destruct (includes line ":" && negb false); [|auto].
  destruct (stateStack p) as [|top stk] eqn:Es; [auto|].
  destruct (exec re_internalTransition line) as [m|]; [|auto].
  rewrite with_states_states.
  apply (mutate_invariant _ (fun _ => False)); try assumption;
    try (intros s; destruct s; reflexivity).
  - intros s x Hx. apply push_transition_targets in Hx as [Hx|Hx]; auto.
  - intros x [].
Qed.

Lemma setupHierarchy_names roots s :
  names_state (setupHierarchy_state roots s) = names_state s.
Proof.
  induction s as [s IH] using State_tree_ind.
  destruct s as [n pa en ex ts cs ii it]. simpl in *. f_equal.
  rewrite flat_map_map. apply flat_map_ext_Forall, IH.
Qed.

Lemma setupHierarchy_targets roots s :
  transitionTargets_state (setupHierarchy_state roots s) = transitionTargets_state s.
Proof.
  induction s as [s IH] using State_tree_ind.
  destruct s as [n pa en ex ts cs ii it]. simpl in *. f_equal.
  rewrite flat_map_map. apply flat_map_ext_Forall, IH.
Qed.

Lemma firstSome_some {A B} (f : A -> option B) l x :
  x ∈ l -> is_Some (f x) -> is_Some (firstSome f l).
Proof.
  induction l as [|y l IH]; intros Hin Hx; [inversion Hin|].
  simpl. destruct (f y) eqn:E; [eauto|].
  apply elem_of_cons in Hin as [->|Hin]; [rewrite E in Hx; destruct Hx; discriminate|].
  apply IH; assumption.
Qed.

Lemma findState_state_named x s : x ∈ names_state s -> is_Some (findState_state x s).
Proof.
  induction s as [s IH] using State_tree_ind.
  rewrite names_state_unfold. destruct s as [n pa en ex ts cs ii it]. simpl in *.
  intros H. apply elem_of_cons in H as [->|H]; [rewrite String.eqb_refl; eauto|].
  destruct (String.eqb n x); [eauto|].
  apply list_elem_of_In, in_flat_map in H as (c & Hc & Hx).
  rewrite Forall_forall in IH.
  apply (firstSome_some _ _ c); [apply list_elem_of_In, Hc|].
  apply IH; [apply list_elem_of_In, Hc|apply list_elem_of_In, Hx].
Qed.

Lemma findState_named x sts :
  x ∈ flat_map names_state sts -> is_Some (findState x sts).
Proof.
  intros H. apply list_elem_of_In, in_flat_map in H as (c & Hc & Hx).
  apply (firstSome_some _ _ c); [apply list_elem_of_In, Hc|].
  apply findState_state_named, list_elem_of_In, Hx.
Qed.

Lemma scoped_state_targets s : forall p q st t,
  (q, st) ∈ scoped_state p s -> t ∈ transitions st ->
  target t ∈ transitionTargets_state s.
Proof.
  induction s as [s IH] using State_tree_ind. intros p q st t Hin Ht.
  rewrite targets_state_unfold. destruct s as [n pa en ex ts cs ii it]. simpl in *.
  apply elem_of_app. apply elem_of_cons in Hin as [[= -> ->]|Hin].
  - left. apply list_elem_of_fmap. exists t. split; [reflexivity|exact Ht].
  - right. apply list_elem_of_In, in_flat_map in Hin as (c & Hc & Hq).
    apply list_elem_of_In, in_flat_map. exists c. split; [exact Hc|].
    apply list_elem_of_In. rewrite Forall_forall in IH.
    eapply (IH c); [apply list_elem_of_In, Hc|apply list_elem_of_In, Hq|exact Ht].
Qed.

Section ParseInvariant.
Variable parseMetadata : string -> StateMachine -> StateMachine.
Hypothesis parseMetadata_states :
  forall content sm, states (parseMetadata content sm) = states sm.

Lemma parseStep_invariant st line :
  stackValid (pl_parser st) -> targetsExist (states (stateMachine (pl_parser st))) ->
  stackValid (pl_parser (parseStep parseMetadata st line))
  /\ targetsExist (states (stateMachine (pl_parser (parseStep parseMetadata st line)))).
Proof.
  intros Hst Hte. unfold parseStep. cbv zeta.
  repeat match goal with
         | |- context [if ?c then _ else _] => destruct c; simpl; auto
         end.
  - split.
    + intros r Hr. simpl in Hr |- *. rewrite parseMetadata_states. apply Hst, Hr.
    + rewrite parseMetadata_states. exact Hte.
  - apply parseLine_invariant; assumption.
Qed.

Lemma parseLoop_invariant lines : forall st,
  stackValid (pl_parser st) -> targetsExist (states (stateMachine (pl_parser st))) ->
  targetsExist
    (states (stateMachine (pl_parser (fold_left (parseStep parseMetadata) lines st)))).
Proof.
  induction lines as [|l lines IH]; intros st Hst Hte; simpl; [exact Hte|].
  destruct (parseStep_invariant st l Hst Hte) as [H1 H2]. apply IH; assumption.
Qed.

(** A freshly parsed model has, for every transition, a state of the tree
    with the name of its target. *)
Lemma parse_targets_exist content :
  targetsExist (states (stateMachine (parse parseMetadata newParser content))).
Proof.
  unfold parse, setupHierarchy. cbv zeta. rewrite with_states_states.
  intros x Hx. rewrite flat_map_map in Hx |- *.
  rewrite (flat_map_ext_Forall _ names_state)
    by (apply Forall_forall; intros s _; apply setupHierarchy_names).
  rewrite (flat_map_ext_Forall _ transitionTargets_state) in Hx
    by (apply Forall_forall; intros s _; apply setupHierarchy_targets).
  revert x Hx. apply parseLoop_invariant.
  - intros r Hr. inversion Hr.
  - intros x Hx. inversion Hx.
Qed.

(** The parser's side of C9: [findState] finds, in the whole tree of a
    freshly parsed model, the target of every transition. *)
Lemma parse_targets_found content q s t :
  (q, s) ∈ scoped "" (states (stateMachine (parse parseMetadata newParser content))) ->
  t ∈ transitions s ->
  is_Some (findState (target t)
             (states (stateMachine (parse parseMetadata newParser content)))).
Proof.
  intros Hin Ht. apply findState_named, parse_targets_exist.
  unfold scoped in Hin. apply list_elem_of_In, in_flat_map in Hin as (c & Hc & Hq).
  apply list_elem_of_In, in_flat_map. exists c. split; [exact Hc|].
  apply list_elem_of_In. eapply scoped_state_targets; [apply list_elem_of_In, Hq|exact Ht].
Qed.
End ParseInvariant.

(** C9, the failing input: the parser builds the root states [Idle] and
    [Active] and the state [Working] inside [Active] with a transition to
    [Idle]; the target exists in the tree, and the validator, which looks
    for it among the children of [Active] only, reports it as missing. *)
Theorem parsed_target_reported_missing
    (parseMetadata : string -> StateMachine -> StateMachine) :
  let sm := stateMachine (parse parseMetadata newParser nestedTarget) in
  targetsByPath sm = [("Idle", ["Active"]); ("Active", []); ("Active.Working", ["Idle"])]
  /\ isSome (findState "Idle" (states sm)) = true
  /\ exists errs,
       validate sm = Some errs
       /\ missingTargetDiag "Active.Working" (MkTransition "STOP" "Idle" None None None)
          ∈ errs.
Proof.
  split; [vm_compute; reflexivity|]. split; [vm_compute; reflexivity|].
  eexists. split; [vm_compute; reflexivity|]. right. left.
Qed.

(** * Further properties *)

(** ** The resolver *)

Lemma setup_fields s :
  let s' := setupInitialTransitions_state s in
  parent s' = parent s /\ entryActions s' = entryActions s
  /\ exitActions s' = exitActions s /\ isInitial s' = isInitial s.
Proof. destruct s; repeat split. Qed.

Lemma resolve_fields m p s :
  let s' := resolveTransitions_state m p s in
  parent s' = parent s /\ entryActions s' = entryActions s
  /\ exitActions s' = exitActions s /\ isInitial s' = isInitial s.
Proof. destruct s; repeat split. Qed.

(** X1.  The resolution pass only rewrites targets: the resolved tree has
    as many states as the input tree, and the state at each place of the
    pre-order keeps its parent path, name, parent field, entry and exit
    actions, flag and the names of its children, and has the same
    transitions in the same order up to their targets. *)
Theorem resolver_only_rewrites_targets (m : gmap string State) (sm : StateMachine) :
  let out := (parseHierarchicalStates m sm).2 in
  length (scoped "" (states out)) = length (scoped "" (states sm))
  /\ forall i p s,
       scoped "" (states sm) !! i = Some (p, s) ->
       exists s', scoped "" (states out) !! i = Some (p, s') /\ sameButTargets s s'.
Proof.
  unfold parseHierarchicalStates. cbn [snd]. rewrite set_states_states.
  set (M := buildStateMap (states sm) "" m).
  rewrite scoped_pass. split; [apply length_map|].
  intros i p s Hi. rewrite list_lookup_fmap, Hi. simpl.
  eexists. split; [reflexivity|].
  destruct (setup_fields (resolveTransitions_state M p s)) as (F1 & F2 & F3 & F4).
  destruct (resolve_fields M p s) as (G1 & G2 & G3 & G4).
  unfold sameButTargets.
  rewrite setup_name, resolve_name, F1, F2, F3, F4, G1, G2, G3, G4.
  rewrite setup_children_names, resolve_children_names, setup_transitions,
    resolve_transitions.
  repeat split.
  induction (transitions s) as [|t ts IH]; simpl; constructor; [|exact IH].
  repeat split.
Qed.

Lemma resolver_only_rewrites_targets_witness :
  exists s',
    scoped "" (states (parseHierarchicalStates ∅ tieBreak).2) !! 1 = Some ("A", s')
    /\ name s' = "B" /\ parent s' = Some "A".
Proof.
  destruct (proj2 (resolver_only_rewrites_targets ∅ tieBreak) 1 "A"
              (MkState "B" (Some "A") [] [] [MkTransition "EV" "B" None None None] []
                 None None) eq_refl)
    as (s' & H1 & H2 & H3 & _).
  exists s'. split; [exact H1|]. split; assumption.
Defined.

Lemma endsWith_refl s : endsWith s s = true.
Proof. destruct s; [reflexivity|]. rewrite endsWith_cons, String.eqb_refl. reflexivity. Qed.

Lemma endsWith_dotted base tgt : endsWith (dotted base tgt) tgt = true.
Proof.
  unfold dotted. destruct (truthy base); [|apply endsWith_refl].
  rewrite <- app_assoc_s, endsWith_app by lia. apply endsWith_refl.
Qed.

Lemma scopeLoop_suffix m parts tgt : forall i c,
  scopeLoop m parts tgt i = Some c -> endsWith c tgt = true.
Proof.
  induction i as [|i IH]; intros c; simpl.
  - destruct (has m _); [|discriminate]. intros [= <-]. apply endsWith_dotted.
  - destruct (has m _); [intros [= <-]; apply endsWith_dotted|]. apply IH.
Qed.

(** X2.  Whatever the table and the scope, the resolved target ends with
    the raw target, and it is the raw target itself or a key of the table:
    resolution only prefixes a scope path, and never produces a path that
    the table does not hold. *)
Theorem resolved_target_is_known (m : gmap string State) (tgt fromPath : string) :
  endsWith (resolveTarget m tgt fromPath) tgt = true
  /\ (resolveTarget m tgt fromPath = tgt
      \/ has m (resolveTarget m tgt fromPath) = true).
Proof.
  split; [|apply resolveTarget_cases].
  unfold resolveTarget.
  destruct (_ || _); [apply endsWith_refl|].
  destruct (has m tgt); [apply endsWith_refl|].
  destruct (scopeLoop _ _ _ _) as [c|] eqn:L; [eapply scopeLoop_suffix, L|].
  destruct (_ && _); [|apply endsWith_refl].
  rewrite <- app_assoc_s, endsWith_app by lia. apply endsWith_refl.
Qed.

(** X3.  [buildStateMap] adds to the keys of the table the full path and
    the bare name of every state of the tree, and nothing else; it removes
    no key, so the keys of earlier runs on the same resolver stay. *)
Theorem table_keys (sts : list State) (m : gmap string State) :
  dom (buildStateMap sts "" m)
  = dom m ∪ list_to_set (map fullPath (scoped "" sts)) ∪ list_to_set (namesOf sts).
Proof.
  rewrite buildStateMap_dom. unfold keysOf, namesOf.
  assert (E : forall l : list (string * State),
            (list_to_set (flat_map (fun ps => [fullPath ps; name ps.2]) l) : gset string)
            = list_to_set (map fullPath l) ∪ list_to_set (map (fun ps => name ps.2) l)).
  { induction l as [|x l IH]; simpl; [set_solver|]. rewrite IH. set_solver. }
  rewrite E. set_solver.
Qed.

Lemma lcaLoop_sym l1 : forall l2 acc, lcaLoop l1 l2 acc = lcaLoop l2 l1 acc.
Proof.
  induction l1 as [|a r1 IH]; intros [|b r2] acc; simpl; try reflexivity.
  rewrite (String.eqb_sym b a). destruct (String.eqb a b) eqn:E; [|reflexivity].
  apply String.eqb_eq in E as ->. apply IH.
Qed.

(** X4.  [findLCA] is symmetric, on all strings. *)
Theorem findLCA_symmetric (a b : string) : findLCA a b = findLCA b a.
Proof. apply lcaLoop_sym. Qed.

(** The sequences of two qualified paths, by their segments. *)
Lemma sequence_of_qualified segs1 segs2 :
  qualified segs1 -> qualified segs2 ->
  calculateTransitionSequence (join "." segs1) (join "." segs2)
  = Some (MkSeq (rev (pathsBelow (length (commonPrefix segs1 segs2)) segs1))
                (pathsBelow (length (commonPrefix segs1 segs2)) segs2)
                (join "." (commonPrefix segs1 segs2))).
Proof.
  intros [N1 S1] [N2 S2]. set (common := commonPrefix segs1 segs2).
  destruct (commonPrefix_take segs1 segs2) as [T1 T2]. fold common in T1, T2.
  assert (HL : findLCA (join "." segs1) (join "." segs2) = join "." common).
  { unfold findLCA. rewrite !split_join by (assumption || apply segments_free; assumption).
    apply (lcaLoop_commonPrefix segs1 segs2 [] ltac:(constructor) S1). }
  assert (K1 : length common <= length segs1).
  { rewrite T1 at 1. rewrite length_take. lia. }
  unfold calculateTransitionSequence. rewrite HL.
  rewrite (split_join "." segs1) by (assumption || apply segments_free; assumption).
  rewrite (split_join "." segs2) by (assumption || apply segments_free; assumption).
  pose proof (exitLoop_paths segs1 (length common) (length segs1 - length common)
                (length segs1) [] S1 ltac:(lia) ltac:(lia)) as HE.
  replace (length common + (length segs1 - length common)) with (length segs1) in HE by lia.
  rewrite firstn_all in HE. rewrite <- T1 in HE. rewrite HE. simpl app.
  unfold pathsBelow, entryLoop. do 2 f_equal.
  assert (HP : (if truthy (join "." common) then split "." (join "." common) else [])
               = common).
  { destruct common as [|c cs] eqn:EC; [reflexivity|].
    assert (SC : Forall segment (c :: cs)) by (rewrite T1; apply take_segments, S1).
    rewrite join_truthy by (discriminate || exact SC).
    apply split_join; [discriminate|apply segments_free, SC]. }
  rewrite HP, <- seq_shift, map_map. reflexivity.
Qed.

Lemma commonPrefix_app_r segs more : commonPrefix segs (segs ++ more) = segs.
Proof.
  induction segs as [|a r IH]; simpl; [destruct more; reflexivity|].
  rewrite String.eqb_refl, IH. reflexivity.
Qed.

Lemma commonPrefix_app_l segs more : commonPrefix (segs ++ more) segs = segs.
Proof.
  induction segs as [|a r IH]; simpl; [destruct more; reflexivity|].
  rewrite String.eqb_refl, IH. reflexivity.
Qed.

Lemma pathsBelow_all segs : pathsBelow (length segs) segs = [].
Proof. unfold pathsBelow. rewrite Nat.sub_diag. reflexivity. Qed.

(** X5.  Between a state and one of its descendants, or itself, one of
    the two sequences is empty: entering a descendant exits nothing, and
    leaving for an ancestor enters nothing, the ancestor itself not being
    entered again.  In particular a transition from a state to itself has
    an empty exit sequence and an empty entry sequence. *)
Theorem sequences_along_one_branch (segs more : list string) :
  qualified segs -> Forall segment more ->
  calculateTransitionSequence (join "." segs) (join "." (segs ++ more))
  = Some (MkSeq [] (pathsBelow (length segs) (segs ++ more)) (join "." segs))
  /\ calculateTransitionSequence (join "." (segs ++ more)) (join "." segs)
     = Some (MkSeq (rev (pathsBelow (length segs) (segs ++ more))) [] (join "." segs)).
Proof.
  intros Q Hm.
  assert (Q' : qualified (segs ++ more)).
  { destruct Q as [N S]. split; [destruct segs; [congruence|discriminate]|].
    apply Forall_app. split; assumption. }
  split.
  - rewrite (sequence_of_qualified _ _ Q Q'), commonPrefix_app_r, pathsBelow_all.
    reflexivity.
  - rewrite (sequence_of_qualified _ _ Q' Q), commonPrefix_app_l, pathsBelow_all.
    reflexivity.
Qed.

Lemma sequences_along_one_branch_witness :
  calculateTransitionSequence "On" "On.Heating.Toasting"
  = Some (MkSeq [] ["On.Heating"; "On.Heating.Toasting"] "On")
  /\ calculateTransitionSequence "On.Heating.Toasting" "On"
     = Some (MkSeq ["On.Heating.Toasting"; "On.Heating"] [] "On").
Proof.
  apply (sequences_along_one_branch ["On"] ["Heating"; "Toasting"]).
  - split; [discriminate|]. repeat constructor.
  - repeat constructor.
Defined.

(** X6.  [calculateTransitionSequence] returns for every pair of strings,
    well-formed paths or not: its loop drops one segment of the current
    path at each turn and stops on the empty path at the latest. *)
Theorem transition_sequence_returns (fromPath toPath : string) :
  exists sq, calculateTransitionSequence fromPath toPath = Some sq
             /\ lca sq = findLCA fromPath toPath
             /\ length (exitSequence sq) <= length (split "." fromPath).
Proof.
  unfold calculateTransitionSequence.
  assert (H : forall fuel cur acc,
            length (split "." cur) <= fuel ->
            exists ex, exitLoop fuel (findLCA fromPath toPath) cur acc = Some ex
                       /\ length ex <= length acc + length (split "." cur)).
  { induction fuel as [|fuel IH]; intros cur acc Hf.
    - pose proof (split_nonempty "." cur).
      destruct (split "." cur); simpl in Hf; [congruence|lia].
    - simpl. destruct (truthy cur && negb (String.eqb cur _)); [|eexists; split; [reflexivity|lia]].
      pose proof (split_parts_free "." cur) as Hfree.
      destruct (split "." cur) as [|x l] eqn:E; [eapply split_nonempty in E; contradiction|].
      destruct (decide (removelast (x :: l) = [])) as [E0|E0].
      + rewrite E0. simpl. destruct fuel; simpl; eexists;
          (split; [reflexivity|rewrite length_app; simpl; lia]).
      + destruct (IH (join "." (removelast (x :: l))) (acc ++ [cur])) as (ex & -> & Hl).
        * rewrite split_join; [|exact E0|apply Forall_removelast, Hfree].
          rewrite removelast_cons_length. simpl in Hf. lia.
        * eexists. split; [reflexivity|].
          rewrite split_join in Hl; [|exact E0|apply Forall_removelast, Hfree].
          rewrite removelast_cons_length, length_app in Hl. simpl in Hl |- *. lia. }
  destruct (H (length (split "." fromPath)) fromPath [] (le_n _)) as (ex & -> & Hl).
  eexists. split; [reflexivity|]. split; [reflexivity|exact Hl].
Qed.

(** ** Invariants of the parser *)

Lemma subtree_unfold s : subtree_state s = s :: subtrees (children s).
Proof. destruct s; reflexivity. Qed.

Lemma names_of_subtree s : names_state s = map name (subtree_state s).
Proof.
  induction s as [s IH] using State_tree_ind.
  rewrite names_state_unfold, subtree_unfold. simpl. f_equal.
  unfold subtrees. rewrite map_flat_map. apply flat_map_ext_Forall, IH.
Qed.

Lemma names_of_subtrees sts : flat_map names_state sts = map name (subtrees sts).
Proof.
  unfold subtrees. rewrite map_flat_map. apply flat_map_ext_Forall, Forall_forall.
  intros s _. apply names_of_subtree.
Qed.

Lemma scoped_subtree s : forall p, map snd (scoped_state p s) = subtree_state s.
Proof.
  induction s as [s IH] using State_tree_ind. intros p.
  rewrite subtree_unfold. destruct s as [n pa en ex ts cs ii it]. simpl in *. f_equal.
  unfold subtrees. rewrite map_flat_map. apply flat_map_ext_Forall.
  eapply Forall_impl; [exact IH|]. intros c Hc. apply Hc.
Qed.

Lemma scoped_subtrees sts p : map snd (scoped p sts) = subtrees sts.
Proof.
  unfold scoped, subtrees. rewrite map_flat_map. apply flat_map_ext_Forall, Forall_forall.
  intros s _. apply scoped_subtree.
Qed.

Lemma namesOf_names sts : namesOf sts = flat_map names_state sts.
Proof.
  unfold namesOf. rewrite names_of_subtrees, <- (scoped_subtrees sts ""), map_map.
  reflexivity.
Qed.

Lemma Forall_flat_map_alter {B} (P : B -> Prop) (h : State -> list B)
    (g : State -> State) i sts :
  (forall s, sts !! i = Some s -> Forall P (h s) -> Forall P (h (g s))) ->
  Forall P (flat_map h sts) -> Forall P (flat_map h (alter g i sts)).
Proof.
  revert i. induction sts as [|s sts IH]; intros i Hg H; [exact H|].
  simpl in H. apply Forall_app in H as [H1 H2].
  destruct i as [|i]; simpl; apply Forall_app; split; auto.
  apply IH; [|exact H2]. intros s' Hs'. apply Hg. exact Hs'.
Qed.

(** A mutation behind a valid reference keeps a property of all the
    states of the tree, when the property does not depend on the children
    of a state and the mutation keeps it in the subtree of the state
    mutated. *)
Lemma mutate_every (P : State -> Prop) f :
  (forall s cs, P s -> P (set_children s cs)) ->
  forall r sts y,
    deref r sts = Some y ->
    (Forall P (subtree_state y) -> Forall P (subtree_state (f y))) ->
    Forall P (subtrees sts) -> Forall P (subtrees (mutate f r sts)).
Proof.
  intros Hset. induction r as [|i r IH]; intros sts y Hd Hf H; [exact H|].
  rewrite mutate_cons. rewrite deref_cons in Hd.
  destruct (sts !! i) as [s|] eqn:E; [|discriminate].
  destruct r as [|j r].
  - injection Hd as ->. apply Forall_flat_map_alter; [|exact H].
    intros s' Hs'. assert (s' = y) as -> by congruence. exact Hf.
  - apply Forall_flat_map_alter; [|exact H].
    intros s' Hs'. assert (s' = s) as -> by congruence.
    rewrite !subtree_unfold. intros Hs. inversion Hs as [|? ? Hp Hc]; subst.
    constructor; [apply Hset, Hp|].
    destruct s as [? ? ? ? ? cs ? ?]. cbn [children set_children] in *.
    apply (IH cs y); assumption.
Qed.

Lemma alter_top (Q : State -> Prop) (g : State -> State) i sts :
  (forall s, Q s -> Q (g s)) -> Forall Q sts -> Forall Q (alter g i sts).
Proof.
  intros Hg. revert i. induction sts as [|s sts IH]; intros i H; [exact H|].
  inversion H as [|? ? Hs Hr]; subst. destruct i as [|i]; simpl; constructor.
  - apply Hg, Hs.
  - exact Hr.
  - exact Hs.
  - apply IH, Hr.
Qed.

(** A mutation that keeps a field of every state keeps it at the top of
    the list mutated. *)
Lemma mutate_top (Q : State -> Prop) f r sts :
  (forall s, Q s -> Q (f s)) -> (forall s cs, Q s -> Q (set_children s cs)) ->
  Forall Q sts -> Forall Q (mutate f r sts).
Proof.
  intros Hf Hset H. destruct r as [|i [|j r]]; [exact H| |]; rewrite mutate_cons;
    apply alter_top; auto.
Qed.

(** The same for the property that the children name their parent, which
    depends on the children through their [parent] field only. *)
Lemma mutate_parents f :
  (forall s, parent (f s) = parent s) -> (forall s, name (f s) = name s) ->
  forall r sts y,
    deref r sts = Some y ->
    (Forall parentOfChildren (subtree_state y) ->
     Forall parentOfChildren (subtree_state (f y))) ->
    Forall parentOfChildren (subtrees sts) ->
    Forall parentOfChildren (subtrees (mutate f r sts)).
Proof.
  intros Hpar Hname. induction r as [|i r IH]; intros sts y Hd Hf H; [exact H|].
  rewrite mutate_cons. rewrite deref_cons in Hd.
  destruct (sts !! i) as [s|] eqn:E; [|discriminate].
  destruct r as [|j r].
  - injection Hd as ->. apply Forall_flat_map_alter; [|exact H].
    intros s' Hs'. assert (s' = y) as -> by congruence. exact Hf.
  - apply Forall_flat_map_alter; [|exact H].
    intros s' Hs'. assert (s' = s) as -> by congruence.
    rewrite !subtree_unfold. intros Hs. inversion Hs as [|? ? Hp Hc]; subst.
    destruct s as [n ? ? ? ? cs ? ?]. cbn [children set_children] in *.
    constructor; [|apply (IH cs y); assumption].
    unfold parentOfChildren in *. cbn [children name set_children] in *.
    apply mutate_top; [| |exact Hp].
    + intros c Hc'. rewrite Hpar. exact Hc'.
    + intros c cs' Hc'. destruct c; exact Hc'.
Qed.

(** A mutation that keeps the names of a state keeps the names of the tree. *)
Lemma mutate_names_eq f :
  (forall s, name (f s) = name s) -> (forall s, children (f s) = children s) ->
  forall r sts, flat_map names_state (mutate f r sts) = flat_map names_state sts.
Proof.
  intros Hn Hc. induction r as [|i r IH]; intros sts; [reflexivity|].
  rewrite mutate_cons.
  assert (Halter : forall g, (forall s, names_state (g s) = names_state s) ->
            flat_map names_state (alter g i sts) = flat_map names_state sts).
  { intros g Hg. clear IH. revert i. induction sts as [|s sts IHs]; intros i; [reflexivity|].
    destruct i; simpl; [rewrite Hg; reflexivity|f_equal; apply IHs]. }
  destruct r as [|j r]; apply Halter; intros s.
  - rewrite (names_state_unfold (f s)), (names_state_unfold s), Hn, Hc. reflexivity.
  - rewrite names_state_children, (names_state_unfold s), IH. reflexivity.
Qed.

(** Appending a child behind a valid reference adds its names to those of
    the tree. *)
Lemma mutate_push_child_names c : forall r sts,
  is_Some (deref r sts) ->
  flat_map names_state (mutate (push_child c) r sts)
  ≡ₚ names_state c ++ flat_map names_state sts.
Proof.
  induction r as [|i r IH]; intros sts H; [destruct H; discriminate|].
  rewrite mutate_cons. rewrite deref_cons in H.
  destruct (sts !! i) as [s|] eqn:E; [|destruct H; discriminate].
  assert (Halter : forall g,
            names_state (g s) ≡ₚ names_state c ++ names_state s ->
            flat_map names_state (alter g i sts)
            ≡ₚ names_state c ++ flat_map names_state sts).
  { intros g Hg. clear IH H. revert i E.
    induction sts as [|s0 sts IHs]; intros i E; [discriminate|].
    destruct i as [|i]; simpl in *.
    - injection E as ->. rewrite Hg, app_assoc. reflexivity.
    - change (names_state s0 ++ flat_map names_state (alter g i sts)
              ≡ₚ names_state c ++ names_state s0 ++ flat_map names_state sts).
      rewrite (IHs i E). rewrite !app_assoc.
      apply Permutation_app_tail, Permutation_app_comm. }
  destruct r as [|j r]; apply Halter.
  - unfold push_child. rewrite names_state_children, (names_state_unfold s), flat_map_app.
    simpl flat_map at 2. rewrite app_nil_r.
    rewrite (Permutation_app_comm _ (names_state c)).
    apply Permutation_middle.
  - rewrite names_state_children, (names_state_unfold s), (IH _ H).
    apply Permutation_middle.
Qed.

Lemma findRef_from_none n l : forall i,
  findRef_from n i l = None -> Forall (fun c => findRef_state n c = None) l.
Proof.
  induction l as [|c l IH]; intros i; simpl; [constructor|].
  destruct (findRef_state n c) eqn:E; [discriminate|].
  intros H. constructor; [exact E|]. eapply IH, H.
Qed.

Lemma findRef_state_none n s : findRef_state n s = None -> n ∉ names_state s.
Proof.
  induction s as [s IH] using State_tree_ind.
  rewrite findRef_state_unfold, names_state_unfold.
  destruct (String.eqb (name s) n) eqn:E; [discriminate|].
  intros H Hin. apply findRef_from_none in H.
  apply elem_of_cons in Hin as [->|Hin]; [rewrite String.eqb_refl in E; discriminate|].
  apply list_elem_of_In, in_flat_map in Hin as (c & Hc & Hn).
  rewrite Forall_forall in IH, H.
  apply (IH c (proj2 (list_elem_of_In _ _) Hc) (H c (proj2 (list_elem_of_In _ _) Hc))).
  apply list_elem_of_In, Hn.
Qed.

Lemma findRef_none n sts : findRef n sts = None -> n ∉ flat_map names_state sts.
Proof.
  intros H Hin. apply findRef_from_none in H.
  apply list_elem_of_In, in_flat_map in Hin as (c & Hc & Hn).
  rewrite Forall_forall in H.
  apply (findRef_state_none n c (H c (proj2 (list_elem_of_In _ _) Hc))).
  apply list_elem_of_In, Hn.
Qed.

Lemma subtrees_app l1 l2 : subtrees (l1 ++ l2) = subtrees l1 ++ subtrees l2.
Proof. apply flat_map_app. Qed.

Lemma set_children_noInitial s cs :
  initialTransition s = None -> initialTransition (set_children s cs) = None.
Proof. destruct s; exact id. Qed.

Lemma set_children_internal s cs : internalToSelf s -> internalToSelf (set_children s cs).
Proof. destruct s; exact id. Qed.

Lemma push_child_parent c s : parent (push_child c s) = parent s.
Proof. destruct s; reflexivity. Qed.

Lemma push_child_name c s : name (push_child c s) = name s.
Proof. destruct s; reflexivity. Qed.

Lemma findOrCreateState_tree p n :
  stackValid p -> treeInvariant (states (stateMachine p)) ->
  treeInvariant (states (stateMachine (findOrCreateState p n).1)).
Proof.
  intros Hst (Hnd & Hni & Hin & Hpa & Hro). unfold findOrCreateState.
  destruct (findRef n (states (stateMachine p))) as [r|] eqn:Ef.
  { simpl. repeat split; assumption. }
  apply findRef_none in Ef.
  destruct (stateStack p) as [|top stk] eqn:Es.
  - simpl. set (st := MkState n None [] [] [] [] None None).
    unfold treeInvariant. rewrite flat_map_app, subtrees_app.
    repeat split.
    + change (flat_map names_state [st]) with [n]. apply NoDup_app. split; [exact Hnd|].
      split; [|apply NoDup_singleton].
      intros x Hx Hx'. apply list_elem_of_singleton in Hx'. subst x. contradiction.
    + apply Forall_app. split; [exact Hni|]. repeat constructor.
    + apply Forall_app. split; [exact Hin|]. constructor; [|constructor].
      intros t Ht. inversion Ht.
    + apply Forall_app. split; [exact Hpa|]. repeat constructor.
    + apply Forall_app. split; [exact Hro|]. repeat constructor.
  - assert (Htop : is_Some (deref top (states (stateMachine p)))).
    { apply Hst. rewrite Es. left. }
    destruct Htop as [par Hpar]. rewrite Hpar. simpl.
    set (st := MkState n (Some (name par)) [] [] [] [] None None).
    assert (Hsub : forall P : State -> Prop,
              (forall s cs, P s -> P (set_children s cs)) -> P st ->
              Forall P (subtree_state par) ->
              Forall P (subtree_state (push_child st par))).
    { intros P Hset Pst. rewrite !subtree_unfold. intros H.
      inversion H as [|? ? H1 H2]; subst. constructor; [apply Hset, H1|].
      destruct par; simpl. rewrite subtrees_app. apply Forall_app.
      split; [exact H2|]. repeat constructor. exact Pst. }
    repeat split.
    + rewrite (mutate_push_child_names st top _ (ex_intro _ par Hpar)).
      change (names_state st) with [n]. simpl. apply NoDup_cons. split; assumption.
    + apply (mutate_every _ _ set_children_noInitial top _ par Hpar); [|exact Hni].
      apply Hsub; [apply set_children_noInitial|reflexivity].
    + apply (mutate_every _ _ set_children_internal top _ par Hpar); [|exact Hin].
      apply Hsub; [apply set_children_internal|]. intros t Ht. inversion Ht.
    + apply (mutate_parents _ (push_child_parent st) (push_child_name st) top _ par Hpar);
        [|exact Hpa].
      rewrite !subtree_unfold. intros H. inversion H as [|? ? H1 H2]; subst.
      constructor.
      * unfold parentOfChildren in *. destruct par; simpl in *.
        apply Forall_app. split; [exact H1|]. repeat constructor.
      * destruct par; simpl. rewrite subtrees_app. apply Forall_app.
        split; [exact H2|]. repeat constructor.
    + apply mutate_top; [| |exact Hro].
      * intros s Hs. destruct s; exact Hs.
      * intros s cs Hs. destruct s; exact Hs.
Qed.

(** A mutation that updates the actions or the transitions of the state
    behind a valid reference keeps the invariant of the tree, when the
    transitions it adds are not internal or target the state. *)
Lemma mutate_update_tree f r sts y :
  deref r sts = Some y ->
  (forall s, name (f s) = name s) -> (forall s, children (f s) = children s) ->
  (forall s, parent (f s) = parent s) ->
  (forall s, initialTransition (f s) = initialTransition s) ->
  (internalToSelf y -> internalToSelf (f y)) ->
  treeInvariant sts -> treeInvariant (mutate f r sts).
Proof.
  intros Hd Hn Hc Hp Hi Hint (Hnd & Hni & Hin & Hpa & Hro).
  assert (Hsub : forall P : State -> Prop,
            (P y -> P (f y)) ->
            Forall P (subtree_state y) -> Forall P (subtree_state (f y))).
  { intros P HP. rewrite !subtree_unfold, Hc. intros H.
    inversion H; subst. constructor; auto. }
  repeat split.
  - rewrite mutate_names_eq; assumption.
  - apply (mutate_every _ _ set_children_noInitial r _ y Hd); [|exact Hni].
    apply Hsub. rewrite Hi. auto.
  - apply (mutate_every _ _ set_children_internal r _ y Hd); [|exact Hin].
    apply Hsub, Hint.
  - apply (mutate_parents _ Hp Hn r _ y Hd); [|exact Hpa].
    apply Hsub. unfold parentOfChildren. rewrite Hc, Hn. auto.
  - apply mutate_top; [| |exact Hro].
    + intros s. rewrite Hp. auto.
    + intros s cs Hs. destruct s; exact Hs.
Qed.

Lemma push_transition_internal t s :
  (flag (isInternal t) = true -> target t = name s) ->
  internalToSelf s -> internalToSelf (push_transition t s).
Proof.
  intros Ht Hs t' Hin Hf. destruct s; simpl in *.
  apply elem_of_app in Hin as [Hin|Hin]; [apply (Hs t' Hin Hf)|].
  apply list_elem_of_singleton in Hin. subst t'. apply Ht, Hf.
Qed.

Lemma parseTransition_tree p line :
  stackValid p -> targetsExist (states (stateMachine p)) ->
  treeInvariant (states (stateMachine p)) ->
  treeInvariant (states (stateMachine (parseTransition p line))).
Proof.
  intros Hst Hte Htr. unfold parseTransition.
  destruct (exec re_parseTransition line) as [m|]; [|exact Htr].
  destruct (findOrCreateState_spec p (capture1 m 1) Hst Hte)
    as (Hst1 & Hte1 & _ & Hd1 & _ & _ & _).
  pose proof (findOrCreateState_tree p (capture1 m 1) Hst Htr) as Htr1.
  destruct (findOrCreateState_spec _ (capture1 m 2) Hst1 Hte1)
    as (_ & _ & _ & _ & _ & _ & Hd2).
  pose proof (findOrCreateState_tree _ (capture1 m 2) Hst1 Htr1) as Htr2.
  cbv zeta. rewrite with_states_states.
  destruct (Hd2 _ Hd1) as [y Hy].
  apply (mutate_update_tree _ _ _ y Hy); try (intros s; destruct s; reflexivity);
    [|exact Htr2].
  apply push_transition_internal. simpl. discriminate.
Qed.

Lemma parseLine_tree p line :
  stackValid p -> targetsExist (states (stateMachine p)) ->
  treeInvariant (states (stateMachine p)) ->
  treeInvariant (states (stateMachine (parseLine p line))).
Proof.
  intros Hst Hte Htr. unfold parseLine. cbv zeta.
  destruct (includes line "[*]" && includes line "-->").
  { destruct (exec re_initial line); exact Htr. }
  destruct (startsWith line "state " && includes line "{").
  { destruct (exec re_stateBlock line) as [m|]; [|exact Htr].
    apply (findOrCreateState_tree p _ Hst Htr). }
  destruct (String.eqb line "}"); [exact Htr|].
  assert (Hupd : forall f top stk,
            stateStack p = top :: stk ->
            (forall s, name (f s) = name s) -> (forall s, children (f s) = children s) ->
            (forall s, parent (f s) = parent s) ->
            (forall s, initialTransition (f s) = initialTransition s) ->
            (forall y, internalToSelf y -> internalToSelf (f y)) ->
            treeInvariant (mutate f top (states (stateMachine p)))).
  { intros f top stk Es H1 H2 H3 H4 H5.
    destruct (Hst top) as [y Hy]; [rewrite Es; left|].
    apply (mutate_update_tree f top _ y Hy); auto. }
  destruct (startsWith line "entry:").
  { destruct (stateStack p) as [|top stk] eqn:Es; [exact Htr|].
    rewrite with_states_states.
    apply (Hupd _ top stk eq_refl); try (intros s; destruct s; reflexivity).
    intros y Hy. destruct y; exact Hy. }
  destruct (startsWith line "exit:").
  { destruct (stateStack p) as [|top stk] eqn:Es; [exact Htr|].
    rewrite with_states_states.
    apply (Hupd _ top stk eq_refl); try (intros s; destruct s; reflexivity).
    intros y Hy. destruct y; exact Hy. }
  destruct (includes line "-->") eqn:Ea.
  { apply parseTransition_tree; assumption. }
  destruct (includes line ":" && negb false); [|exact Htr].
  destruct (stateStack p) as [|top stk] eqn:Es; [exact Htr|].
  destruct (exec re_internalTransition line) as [m|]; [|exact Htr].
  rewrite with_states_states.
  apply (Hupd _ top stk eq_refl); try (intros s; destruct s; reflexivity).
  intros y Hy. apply push_transition_internal; [reflexivity|exact Hy].
Qed.

Lemma setupHierarchy_subtree roots s :
  subtree_state (setupHierarchy_state roots s)
  = map (setupHierarchy_state roots) (subtree_state s).
Proof.
  induction s as [s IH] using State_tree_ind.
  rewrite (subtree_unfold s), subtree_unfold. cbn [map]. f_equal.
  destruct s as [n pa en ex ts cs ii it]. simpl in *.
  unfold subtrees. rewrite flat_map_map, map_flat_map.
  apply flat_map_ext_Forall, IH.
Qed.

Lemma setupHierarchy_subtrees roots sts :
  subtrees (map (setupHierarchy_state roots) sts)
  = map (setupHierarchy_state roots) (subtrees sts).
Proof.
  unfold subtrees. rewrite flat_map_map, map_flat_map.
  apply flat_map_ext_Forall, Forall_forall. intros s _. apply setupHierarchy_subtree.
Qed.

Lemma setupHierarchy_name roots s : name (setupHierarchy_state roots s) = name s.
Proof. destruct s; reflexivity. Qed.

Lemma setupHierarchy_parent roots s : parent (setupHierarchy_state roots s) = parent s.
Proof. destruct s; reflexivity. Qed.

Lemma setupHierarchy_transitions roots s :
  transitions (setupHierarchy_state roots s) = transitions s.
Proof. destruct s; reflexivity. Qed.

Lemma setupHierarchy_children roots s :
  children (setupHierarchy_state roots s) = map (setupHierarchy_state roots) (children s).
Proof. destruct s; reflexivity. Qed.

Lemma setupHierarchy_initial roots s :
  initialTransition s = None -> initialToChild (setupHierarchy_state roots s).
Proof.
  intros Hi. unfold initialToChild. rewrite setupHierarchy_children.
  destruct s as [n pa en ex ts cs ii it]. simpl in *. destruct cs as [|c0 cs]; [exact Hi|].
  cbn [map]. 
  match goal with
  | |- context [find ?f ?l] => destruct (find f l) as [c|] eqn:Ef
  end.
  - apply find_some in Ef as [Hin _].
    exists (setupHierarchy_state roots c). rewrite setupHierarchy_name.
    split; [|reflexivity].
    apply (list_elem_of_fmap_2 (setupHierarchy_state roots) (c0 :: cs) c).
    apply list_elem_of_In, Hin.
  - exists (setupHierarchy_state roots c0). rewrite setupHierarchy_name.
    split; [left|reflexivity].
Qed.

Section ParseTree.
Variable parseMetadata : string -> StateMachine -> StateMachine.
Hypothesis parseMetadata_states :
  forall content sm, states (parseMetadata content sm) = states sm.

Lemma parseStep_tree st line :
  stackValid (pl_parser st) -> targetsExist (states (stateMachine (pl_parser st))) ->
  treeInvariant (states (stateMachine (pl_parser st))) ->
  treeInvariant (states (stateMachine (pl_parser (parseStep parseMetadata st line)))).
Proof.
  intros Hst Hte Htr. unfold parseStep. cbv zeta.
  repeat match goal with
         | |- context [if ?c then _ else _] => destruct c; simpl; auto
         end.
  - rewrite parseMetadata_states. exact Htr.
  - apply parseLine_tree; assumption.
Qed.

Lemma parseLoop_tree lines : forall st,
  stackValid (pl_parser st) -> targetsExist (states (stateMachine (pl_parser st))) ->
  treeInvariant (states (stateMachine (pl_parser st))) ->
  treeInvariant
    (states (stateMachine (pl_parser (fold_left (parseStep parseMetadata) lines st)))).
Proof.
  induction lines as [|l lines IH]; intros st Hst Hte Htr; simpl; [exact Htr|].
  destruct (parseStep_invariant parseMetadata parseMetadata_states st l Hst Hte) as [H1 H2].
  apply IH; [assumption|assumption|]. apply parseStep_tree; assumption.
Qed.

(** The tree before [setupHierarchy] runs satisfies the invariant. *)
Lemma parse_tree content :
  exists sts,
    states (stateMachine (parse parseMetadata newParser content))
    = map (setupHierarchy_state sts) sts
    /\ treeInvariant sts.
Proof.
  unfold parse, setupHierarchy. cbv zeta. rewrite with_states_states.
  eexists. split; [reflexivity|].
  apply parseLoop_tree.
  - intros r Hr. inversion Hr.
  - intros x Hx. inversion Hx.
  - repeat split; constructor.
Qed.
End ParseTree.

(** ** The diagnostics of [validate], pass by pass *)

Lemma validate_parts sm :
  exists visited,
    visitedStates sm = Some visited
    /\ validate sm
       = Some (validateBasicStructure sm ++ validateStates (states sm) ""
               ++ checkUnreachableStates visited (states sm) ""
               ++ validateTransitions sm ++ validateQPConventions sm).
Proof.
  destruct (visitedStates_total sm) as [v Hv]. exists v. split; [exact Hv|].
  unfold validate, checkReachability. rewrite Hv. reflexivity.
Qed.

Lemma filter_flat_map {A B} (f : B -> bool) (g : A -> list B) l :
  List.filter f (flat_map g l) = flat_map (fun x => List.filter f (g x)) l.
Proof.
  induction l as [|x l IH]; simpl; [reflexivity|].
  rewrite List.filter_app, IH. reflexivity.
Qed.

Lemma validateStates_state_missing s : forall p,
  List.filter isMissingInitial (validateStates_state p s)
  = map missingInitialDiag (List.filter lacksInitial (scoped_state p s)).
Proof.
  induction s as [s IH] using State_tree_ind. intros p.
  destruct s as [n pa en ex ts cs ii it]. simpl in *.
  rewrite !List.filter_app.
  rewrite (filter_none _ (if negb (isValidStateName n) then _ else _)) by other_messages.
  rewrite (filter_none _ (if negb (negb _) && _ then _ else _)) by other_messages.
  rewrite (filter_none _ (validateActions _ _)).
  2:{ unfold validateActions. apply Forall_flat_map_tree, Forall_forall. intros a _.
      other_messages. }
  rewrite !filter_flat_map.
  rewrite (flat_map_ext_Forall _
             (fun c => map missingInitialDiag
                         (List.filter lacksInitial (scoped_state (dotted p n) c))) cs).
  2:{ eapply Forall_impl; [exact IH|]. intros c Hc. apply Hc. }
  rewrite <- map_flat_map, <- filter_flat_map.
  unfold lacksInitial at 2. cbn [snd children initialTransition].
  destruct (negb (length cs =? 0)%nat && negb (isSome it)); [|reflexivity].
  cbn [addError List.filter app map]. 
  change (isMissingInitial _) with
    (startsWith ("Composite state '" +:+ (n +:+ "' must have an initial transition"))
       "Composite state '").
  rewrite startsWith_app. reflexivity.
Qed.

Lemma validateStates_missing sts p :
  List.filter isMissingInitial (validateStates sts p)
  = map missingInitialDiag (List.filter lacksInitial (scoped p sts)).
Proof.
  unfold validateStates, scoped. rewrite !filter_flat_map, map_flat_map.
  apply flat_map_ext_Forall, Forall_forall. intros s _. apply validateStates_state_missing.
Qed.

Lemma duplicateScan_other (f : ValidationError -> bool) l : forall seen,
  (forall ps, f (duplicateDiag ps) = false) ->
  Forall (fun d => f d = false) (duplicateScan seen l).
Proof.
  induction l as [|ps l IH]; intros seen Hf; simpl; [constructor|].
  apply Forall_app. split; [|apply IH, Hf].
  case_bool_decide; constructor; [apply Hf|constructor].
Qed.

Lemma basic_other (f : ValidationError -> bool) sm :
  (forall sev msg loc,
     msg = "State machine should have a meaningful name"
     \/ msg = "State machine must have an initial state"
     \/ msg = "State machine must have at least one state" ->
     f (MkValidationError sev msg loc) = false) ->
  (forall ps, f (duplicateDiag ps) = false) ->
  Forall (fun d => f d = false) (validateBasicStructure sm).
Proof.
  intros Hf Hd. unfold validateBasicStructure, addError.
  repeat first
    [ apply Forall_nil_2 | apply Forall_app_2 | apply Forall_cons_2
    | match goal with
      | |- Forall _ (if ?c then _ else _) => destruct c
      end ];
  try (apply Hf; auto).
  rewrite collectStateNames_scan. apply duplicateScan_other, Hd.
Qed.

Lemma unreachable_other (f : ValidationError -> bool) visited sts p :
  (forall ps, f (unreachableDiag ps) = false) ->
  Forall (fun d => f d = false) (checkUnreachableStates visited sts p).
Proof.
  intros Hf. rewrite checkUnreachable_scoped. apply Forall_forall. intros d Hd.
  apply list_elem_of_fmap in Hd as (ps & -> & _). apply Hf.
Qed.

Lemma conventions_other (f : ValidationError -> bool) sm :
  (forall sev msg loc,
     (exists x, msg = "Event '" +:+ x)
     \/ msg = "State machine uses TIMEOUT events but has no QTimeEvt data member" ->
     f (MkValidationError sev msg loc) = false) ->
  Forall (fun d => f d = false) (validateQPConventions sm).
Proof.
  intros Hf. unfold validateQPConventions, addError. apply Forall_app_2.
  - apply Forall_flat_map_tree, Forall_forall. intros e _.
    repeat first
      [ apply Forall_nil_2 | apply Forall_app_2 | apply Forall_cons_2
      | match goal with
        | |- Forall _ (if ?c then _ else _) => destruct c
        end ];
    apply Hf; left; eexists; reflexivity.
  - destruct (_ && _); constructor; [|constructor].
    apply Hf. right. reflexivity.
Qed.

Lemma states_other (f : ValidationError -> bool) sts p :
  (forall sev msg loc,
     (exists x, msg = "State name '" +:+ x) \/ (exists x, msg = "Composite state '" +:+ x)
     \/ (exists x, msg = "State '" +:+ x +:+ "' has initial transition but no child states")
     \/ (exists x, msg = "Action '" +:+ x) ->
     f (MkValidationError sev msg loc) = false) ->
  Forall (fun d => f d = false) (validateStates sts p).
Proof.
  intros Hf. unfold validateStates. apply Forall_flat_map_tree, Forall_forall.
  intros s _. revert p.
  induction s as [s IH] using State_tree_ind. intros p.
  destruct s as [n pa en ex ts cs ii it]. simpl in *. unfold addError.
  repeat apply Forall_app_2.
  - destruct (negb _); constructor; [|constructor]. apply Hf. left. eexists. reflexivity.
  - destruct (_ && _); constructor; [|constructor].
    apply Hf. right. left. eexists. reflexivity.
  - destruct (_ && _); constructor; [|constructor].
    apply Hf. right. right. left. eexists. reflexivity.
  - unfold validateActions, addError. apply Forall_flat_map_tree, Forall_forall.
    intros a _. destruct (_ && _); constructor; [|constructor].
    apply Hf. right. right. right. eexists. reflexivity.
  - apply Forall_flat_map_tree. eapply Forall_impl; [exact IH|]. intros c Hc. apply Hc.
Qed.

Lemma validate_missing_initial sm errs :
  validate sm = Some errs ->
  List.filter isMissingInitial errs
  = map missingInitialDiag (List.filter lacksInitial (scoped "" (states sm))).
Proof.
  destruct (validate_parts sm) as (v & Hv & ->). intros [= <-].
  rewrite !List.filter_app, validateStates_missing.
  rewrite (filter_none _ (validateBasicStructure _)).
  2:{ apply basic_other; [intros sev msg loc [->|[->| ->]]|intros ps]; vm_compute; reflexivity. }
  rewrite (filter_none _ (checkUnreachableStates _ _ _)).
  2:{ apply unreachable_other. intros ps. vm_compute. reflexivity. }
  rewrite (filter_none _ (validateTransitions _)).
  2:{ apply validateStateTransitions_other.
      intros sev msg loc [[x ->]|[[x ->]|[[x ->]|[x ->]]]]; vm_compute; reflexivity. }
  rewrite (filter_none _ (validateQPConventions _)).
  2:{ apply conventions_other.
      intros sev msg loc [[x ->]| ->]; vm_compute; reflexivity. }
  rewrite !app_nil_r. reflexivity.
Qed.

(** X7.  The error [Composite state ... must have an initial transition]
    is emitted once, at its full path and in pre-order, for every state
    of the tree that has children and no initial transition, and for no
    other state. *)
Theorem missing_initial_errors (sm : StateMachine) :
  exists errs,
    validate sm = Some errs
    /\ List.filter isMissingInitial errs
       = map missingInitialDiag (List.filter lacksInitial (scoped "" (states sm))).
Proof.
  destruct (validate_total sm) as [errs He]. exists errs. split; [exact He|].
  apply validate_missing_initial, He.
Qed.

(** ** Freshly parsed models *)


Lemma targets_of_subtree s :
  targets_state s = flat_map ownTargets (subtree_state s).
Proof.
  induction s as [s IH] using State_tree_ind.
  rewrite subtree_unfold. destruct s as [n pa en ex ts cs ii it]. simpl in *.
  unfold ownTargets at 1. simpl. rewrite <- !app_assoc. do 2 f_equal.
  unfold subtrees. rewrite flat_map_flat_map. apply flat_map_ext_Forall, IH.
Qed.

Lemma targets_of_subtrees sts : allTargets sts = flat_map ownTargets (subtrees sts).
Proof.
  unfold allTargets, subtrees. rewrite flat_map_flat_map.
  apply flat_map_ext_Forall, Forall_forall. intros s _. apply targets_of_subtree.
Qed.

Lemma transitionTargets_of_subtree s :
  transitionTargets_state s
  = flat_map (fun x => map target (transitions x)) (subtree_state s).
Proof.
  induction s as [s IH] using State_tree_ind.
  rewrite subtree_unfold, targets_state_unfold. simpl. f_equal.
  unfold subtrees. rewrite flat_map_flat_map. apply flat_map_ext_Forall, IH.
Qed.

Lemma transitionTargets_of_subtrees sts :
  flat_map transitionTargets_state sts
  = flat_map (fun x => map target (transitions x)) (subtrees sts).
Proof.
  unfold subtrees. rewrite flat_map_flat_map.
  apply flat_map_ext_Forall, Forall_forall. intros s _. apply transitionTargets_of_subtree.
Qed.

Lemma child_in_subtrees sts s c : s ∈ subtrees sts -> c ∈ children s -> c ∈ subtrees sts.
Proof.
  unfold subtrees. intros Hs Hc.
  apply list_elem_of_In, in_flat_map in Hs as (r & Hr & Hs).
  apply list_elem_of_In, in_flat_map. exists r. split; [exact Hr|].
  clear Hr. revert Hs. induction r as [r IH] using State_tree_ind.
  rewrite subtree_unfold. intros [<-|Hs].
  - right. apply in_flat_map. exists c. split; [apply list_elem_of_In, Hc|].
    rewrite subtree_unfold. left. reflexivity.
  - right. apply in_flat_map in Hs as (d & Hd & Hs). apply in_flat_map.
    exists d. split; [exact Hd|]. rewrite Forall_forall in IH.
    apply (IH d (proj2 (list_elem_of_In _ _) Hd) Hs).
Qed.


Section ParsedModel.
Variable parseMetadata : string -> StateMachine -> StateMachine.
Hypothesis parseMetadata_states :
  forall content sm, states (parseMetadata content sm) = states sm.


Lemma parse_initial content :
  Forall initialToChild
    (subtrees (states (stateMachine (parse parseMetadata newParser content)))).
Proof.
  destruct (parse_tree parseMetadata parseMetadata_states content)
    as (sts & -> & _ & Hni & _).
  rewrite setupHierarchy_subtrees. apply Forall_map.
  eapply Forall_impl; [exact Hni|]. intros s Hs. apply setupHierarchy_initial, Hs.
Qed.

Lemma parse_all_targets content x :
  x ∈ allTargets (states (stateMachine (parse parseMetadata newParser content))) ->
  x ∈ namesOf (states (stateMachine (parse parseMetadata newParser content))).
Proof.
  rewrite namesOf_names, targets_of_subtrees. intros Hx.
  apply list_elem_of_In, in_flat_map in Hx as (s & Hs & Hx).
  apply list_elem_of_In in Hs. unfold ownTargets in Hx. apply in_app_or in Hx as [Hx|Hx].
  - apply (parse_targets_exist parseMetadata parseMetadata_states).
    rewrite transitionTargets_of_subtrees. apply list_elem_of_In, in_flat_map.
    exists s. split; [apply list_elem_of_In, Hs|exact Hx].
  - pose proof (parse_initial content) as Hi. rewrite Forall_forall in Hi.
    specialize (Hi s Hs). unfold initialToChild in Hi.
    destruct (children s) as [|c0 cs] eqn:Ec; [rewrite Hi in Hx; destruct Hx|].
    destruct Hi as (c & Hc & Hi). rewrite Hi in Hx. destruct Hx as [<-|[]].
    simpl. rewrite names_of_subtrees. apply list_elem_of_fmap. exists c.
    split; [reflexivity|]. apply (child_in_subtrees _ s); [exact Hs|].
    rewrite Ec. exact Hc.
Qed.
End ParsedModel.






(** X10.  In a freshly parsed model the root states have no parent,
    every other state names the state that holds it as its parent, and
    every internal transition targets the state that owns it. *)
Theorem parsed_tree_links
    (parseMetadata : string -> StateMachine -> StateMachine)
    (parseMetadata_states :
       forall content sm, states (parseMetadata content sm) = states sm)
    (text : string) :
  let sts := states (stateMachine (parse parseMetadata newParser text)) in
  Forall (fun s => parent s = None) sts
  /\ Forall parentOfChildren (subtrees sts)
  /\ Forall internalToSelf (subtrees sts).
Proof.
  cbv zeta.
  destruct (parse_tree parseMetadata parseMetadata_states text)
    as (sts & -> & _ & _ & Hin & Hpa & Hro).
  rewrite setupHierarchy_subtrees. repeat split.
  - apply Forall_map. eapply Forall_impl; [exact Hro|].
    intros s Hs. simpl. rewrite setupHierarchy_parent. exact Hs.
  - apply Forall_map. eapply Forall_impl; [exact Hpa|].
    intros s Hs. unfold parentOfChildren in *.
    rewrite setupHierarchy_children, setupHierarchy_name. apply Forall_map.
    eapply Forall_impl; [exact Hs|]. intros c Hc. simpl.
    rewrite setupHierarchy_parent. exact Hc.
  - apply Forall_map. eapply Forall_impl; [exact Hin|].
    intros s Hs t. simpl. rewrite setupHierarchy_transitions, setupHierarchy_name.
    apply Hs.
Qed.

Lemma parsed_tree_links_witness :
  let sts := states (stateMachine (parse (fun _ sm => sm) newParser nestedTarget)) in
  Forall (fun s => parent s = None) sts
  /\ Forall parentOfChildren (subtrees sts)
  /\ Forall internalToSelf (subtrees sts).
Proof.
  apply (parsed_tree_links (fun _ sm => sm) (fun _ _ => eq_refl) nestedTarget).
Defined.

(** X11.  In a freshly parsed model the target of every transition and
    of every initial transition is the name of a state of the tree: a
    search of the whole tree finds it. *)
Theorem parsed_targets_exist
    (parseMetadata : string -> StateMachine -> StateMachine)
    (parseMetadata_states :
       forall content sm, states (parseMetadata content sm) = states sm)
    (text : string) :
  let sts := states (stateMachine (parse parseMetadata newParser text)) in
  forall x, x ∈ allTargets sts -> x ∈ namesOf sts /\ is_Some (findState x sts).
Proof.
  cbv zeta. intros x Hx.
  pose proof (parse_all_targets parseMetadata parseMetadata_states text x Hx) as Hn.
  split; [exact Hn|]. apply findState_named. rewrite <- namesOf_names. exact Hn.
Qed.

Lemma parsed_targets_exist_witness :
  let sts := states (stateMachine (parse (fun _ sm => sm) newParser nestedTarget)) in
  "Idle" ∈ namesOf sts /\ is_Some (findState "Idle" sts).
Proof.
  apply (parsed_targets_exist (fun _ sm => sm) (fun _ _ => eq_refl) nestedTarget "Idle").
  apply list_elem_of_In. vm_compute. auto 6.
Defined.

(** ** The resolver on models that need no resolution *)

Lemma resolveTarget_fixed m tgt p :
  reserved tgt = true \/ has m tgt = true -> resolveTarget m tgt p = tgt.
Proof.
  unfold resolveTarget, reserved. intros [->| ->]; [reflexivity|].
  destruct (_ || _); reflexivity.
Qed.

Lemma set_target_fixed t : set_target t (target t) = t.
Proof. destruct t; reflexivity. Qed.

Lemma resolve_state_fixed m s : forall p,
  Forall (fun x => reserved x = true \/ has m x = true) (targets_state s) ->
  resolveTransitions_state m p s = s.
Proof.
  induction s as [s IH] using State_tree_ind. intros p H.
  destruct s as [n pa en ex ts cs ii it]. simpl in *.
  apply Forall_app in H as [Ht H]. apply Forall_app in H as [Hi Hc]. f_equal.
  - rewrite <- (map_id ts) at 2. apply map_ext_Forall'.
    rewrite Forall_forall in Ht. apply Forall_forall. intros t Hin.
    rewrite resolveTarget_fixed; [apply set_target_fixed|].
    apply Ht. apply list_elem_of_fmap. exists t. split; [reflexivity|exact Hin].
  - rewrite <- (map_id cs) at 2. apply map_ext_Forall'.
    rewrite Forall_forall in IH. rewrite Forall_forall in Hc. apply Forall_forall.
    intros c Hin. apply (IH c Hin).
    apply Forall_forall. intros x Hx. apply Hc.
    apply list_elem_of_In, in_flat_map. exists c.
    split; apply list_elem_of_In; assumption.
  - destruct it as [t|]; [|reflexivity]. simpl. f_equal.
    inversion Hi as [|? ? Ht0 _]; subst.
    rewrite resolveTarget_fixed; [apply set_target_fixed|exact Ht0].
Qed.

Lemma setup_state_fixed s :
  Forall compositeHasInitial (subtree_state s) -> setupInitialTransitions_state s = s.
Proof.
  induction s as [s IH] using State_tree_ind. rewrite subtree_unfold. intros H.
  inversion H as [|? ? Hs Hc]; subst. clear H.
  destruct s as [n pa en ex ts cs ii it]. unfold compositeHasInitial in Hs.
  simpl in *. f_equal.
  - rewrite <- (map_id cs) at 2. apply map_ext_Forall'.
    rewrite Forall_forall in IH. rewrite Forall_forall in Hc. apply Forall_forall.
    intros c Hin. apply (IH c Hin).
    apply Forall_forall. intros x Hx. apply Hc.
    apply list_elem_of_In, in_flat_map. exists c.
    split; apply list_elem_of_In; assumption.
  - destruct cs as [|c0 cs]; [reflexivity|]. destruct it as [t|]; [reflexivity|].
    exfalso. apply Hs; [discriminate|reflexivity].
Qed.

Lemma resolver_fixed m sm :
  (forall x, x ∈ allTargets (states sm) -> reserved x = true \/ x ∈ namesOf (states sm)) ->
  Forall compositeHasInitial (subtrees (states sm)) ->
  (parseHierarchicalStates m sm).2 = sm.
Proof.
  intros Ht Hc. unfold parseHierarchicalStates. cbn [snd].
  set (M := buildStateMap (states sm) "" m).
  assert (Hres : resolveTransitions M (states sm) "" = states sm).
  { unfold resolveTransitions. rewrite <- (map_id (states sm)) at 2.
    apply map_ext_Forall', Forall_forall. intros s Hs. apply resolve_state_fixed.
    apply Forall_forall. intros x Hx.
    destruct (Ht x) as [Hr|Hn].
    - apply list_elem_of_In, in_flat_map. exists s.
      split; [apply list_elem_of_In, Hs|apply list_elem_of_In, Hx].
    - left. exact Hr.
    - right. unfold namesOf in Hn. apply list_elem_of_fmap in Hn as ([q s'] & -> & Hq).
      apply (built_has_names m _ q s' Hq). }
  rewrite Hres.
  assert (Hset : setupInitialTransitions (states sm) = states sm).
  { unfold setupInitialTransitions. rewrite <- (map_id (states sm)) at 2.
    apply map_ext_Forall', Forall_forall. intros s Hs. apply setup_state_fixed.
    apply Forall_forall. intros x Hx. rewrite Forall_forall in Hc. apply Hc.
    apply list_elem_of_In, in_flat_map. exists s.
    split; [apply list_elem_of_In, Hs|apply list_elem_of_In, Hx]. }
  rewrite Hset. destruct sm; reflexivity.
Qed.

(** X12.  The resolution pass changes nothing in a model where every
    target is a reserved word or the bare name of a state of the tree
    and every state with children has an initial transition: bare names
    stay bare, whatever the table held before. *)
Theorem resolver_keeps_bare_names (m : gmap string State) (sm : StateMachine) :
  (forall x, x ∈ allTargets (states sm) -> reserved x = true \/ x ∈ namesOf (states sm)) ->
  Forall compositeHasInitial (subtrees (states sm)) ->
  (parseHierarchicalStates m sm).2 = sm.
Proof. apply resolver_fixed. Qed.

Lemma resolver_keeps_bare_names_witness :
  (parseHierarchicalStates ∅ (parseHierarchicalStates ∅ xyz).2).2
  = (parseHierarchicalStates ∅ xyz).2.
Proof.
  apply (resolver_keeps_bare_names ∅ (parseHierarchicalStates ∅ xyz).2).
  - intros x Hx. vm_compute in Hx. right. vm_compute.
    repeat (apply elem_of_cons in Hx as [->|Hx]; [set_solver|]). inversion Hx.
  - vm_compute.
    repeat (apply Forall_cons_2;
            [intros H1 H2; first [discriminate H2 | exact (H1 eq_refl)]|]).
    apply Forall_nil_2.
Defined.

(** X13.  The resolution pass returns a freshly parsed model unchanged:
    the parser leaves only bare names of existing states as targets and
    gives every composite state its initial transition. *)
Theorem resolver_keeps_parsed_model
    (parseMetadata : string -> StateMachine -> StateMachine)
    (parseMetadata_states :
       forall content sm, states (parseMetadata content sm) = states sm)
    (m : gmap string State) (text : string) :
  (parseHierarchicalStates m (stateMachine (parse parseMetadata newParser text))).2
  = stateMachine (parse parseMetadata newParser text).
Proof.
  apply resolver_fixed.
  - intros x Hx. right. apply (parse_all_targets parseMetadata parseMetadata_states), Hx.
  - eapply Forall_impl; [apply (parse_initial parseMetadata parseMetadata_states)|].
    intros s Hs Hc. unfold initialToChild in Hs.
    destruct (children s); [congruence|]. destruct Hs as (c & _ & ->). discriminate.
Qed.

Lemma resolver_keeps_parsed_model_witness :
  (parseHierarchicalStates ∅
     (stateMachine (parse (fun _ sm => sm) newParser nestedTarget))).2
  = stateMachine (parse (fun _ sm => sm) newParser nestedTarget).
Proof.
  apply (resolver_keeps_parsed_model (fun _ sm => sm) (fun _ _ => eq_refl) ∅ nestedTarget).
Defined.

(** ** Severities and the summary of the validate command *)

Lemma validate_no_info sm errs :
  validate sm = Some errs -> Forall (fun d => isInfo d = false) errs.
Proof.
  destruct (validate_parts sm) as (v & Hv & ->). intros [= <-].
  apply Forall_app_2; [|apply Forall_app_2; [|apply Forall_app_2; [|apply Forall_app_2]]].
  - unfold validateBasicStructure. repeat apply Forall_app_2; try other_messages.
    rewrite collectStateNames_scan. apply duplicateScan_other. reflexivity.
  - unfold validateStates. apply Forall_flat_map_tree, Forall_forall. intros s _.
    generalize "". induction s as [s IH] using State_tree_ind. intros p.
    destruct s as [n pa en ex ts cs ii it]. simpl in *.
    repeat apply Forall_app_2; try other_messages.
    + unfold validateActions. apply Forall_flat_map_tree, Forall_forall. intros a _.
      other_messages.
    + apply Forall_flat_map_tree. eapply Forall_impl; [exact IH|]. intros c Hc. apply Hc.
  - apply unreachable_other. reflexivity.
  - unfold validateTransitions, validateStateTransitions.
    apply Forall_flat_map_tree, Forall_forall. intros s _.
    generalize (states sm). generalize "".
    induction s as [s IH] using State_tree_ind. intros p sibs.
    destruct s as [n pa en ex ts cs ii it]. simpl in *. apply Forall_app_2.
    + apply Forall_flat_map_tree, Forall_forall. intros x _.
      unfold validateTransition, validateGuard. other_messages.
    + apply Forall_flat_map_tree. eapply Forall_impl; [exact IH|]. intros c Hc. apply Hc.
  - unfold validateQPConventions. apply Forall_app_2.
    + apply Forall_flat_map_tree, Forall_forall. intros e _. other_messages.
    + other_messages.
Qed.

Lemma counts_no_info errs :
  Forall (fun d => isInfo d = false) errs ->
  errorCount errs + warningCount errs = length errs.
Proof.
  unfold errorCount, warningCount.
  induction 1 as [|d errs Hd _ IH]; [reflexivity|].
  destruct d as [[] msg loc]; simpl in *; try discriminate; lia.
Qed.

(** X14.  The validator only emits errors and warnings, so the two
    counts of the summary add up to the number of diagnostics, and the
    summary says that validation passed exactly when the output channel
    says that no issues were found. *)
Theorem summary_agrees_with_channel (sm : StateMachine) :
  exists errs,
    validate sm = Some errs
    /\ Forall (fun d => severity d <> info) errs
    /\ errorCount errs + warningCount errs = length errs
    /\ (summary errs = ValidationPassed <-> noIssuesFound errs = true).
Proof.
  destruct (validate_total sm) as [errs He]. exists errs. split; [exact He|].
  pose proof (validate_no_info sm errs He) as Hi.
  pose proof (counts_no_info errs Hi) as Hc.
  split; [|split; [exact Hc|]].
  - eapply Forall_impl; [exact Hi|]. intros d Hd E. unfold isInfo in Hd.
    rewrite E in Hd. discriminate.
  - unfold summary, noIssuesFound. rewrite <- Hc.
    destruct (errorCount errs) as [|e]; destruct (warningCount errs) as [|w]; simpl;
      split; intros H; try reflexivity; discriminate.
Qed.

(** ** Duplicate transitions *)

Lemma indexed_from_elem {A} (l : list A) i x : forall k,
  (i, x) ∈ combine (seq k (length l)) l -> exists j, i = k + j /\ l !! j = Some x.
Proof.
  induction l as [|y l IH]; intros k H; [inversion H|].
  simpl in H. apply elem_of_cons in H as [[= -> ->]|H].
  - exists 0. split; [lia|reflexivity].
  - apply IH in H as (j & -> & Hj). exists (S j). split; [lia|exact Hj].
Qed.

Lemma indexed_elem {A} (l : list A) i x : (i, x) ∈ indexed l <-> l !! i = Some x.
Proof.
  split; [|apply indexed_lookup].
  intros H. apply indexed_from_elem in H as (j & -> & Hj). exact Hj.
Qed.

Lemma duplicates_free ts :
  (forall it, it ∈ indexed ts -> duplicates ts it.1 it.2 = [])
  <-> NoDup (map eventGuard ts).
Proof.
  split.
  - intros H. apply NoDup_alt. intros i j x Hi Hj.
    change (map eventGuard ts) with (eventGuard <$> ts) in Hi, Hj.
    rewrite list_lookup_fmap in Hi, Hj.
    destruct (ts !! i) as [t|] eqn:Ei; [|discriminate].
    destruct (ts !! j) as [t'|] eqn:Ej; [|discriminate].
    assert (Heg : eventGuard t' = eventGuard t) by (simpl in Hi, Hj; congruence).
    destruct (decide (i = j)) as [|Hne]; [assumption|exfalso].
    specialize (H (i, t) (indexed_lookup _ _ _ Ei)). simpl in H.
    assert (Hin : (j, t') ∈ duplicates ts i t).
    { unfold duplicates. apply list_elem_of_filter. simpl.
      unfold eventGuard in Heg. injection Heg as He Hg.
      repeat split; auto. apply indexed_lookup, Ej. }
    rewrite H in Hin. inversion Hin.
  - intros Hnd [i t] Hit. simpl. apply indexed_elem in Hit.
    destruct (duplicates ts i t) as [|[j t'] r] eqn:E; [reflexivity|exfalso].
    assert (Hin : (j, t') ∈ duplicates ts i t) by (rewrite E; left).
    unfold duplicates in Hin. apply list_elem_of_filter in Hin as [(He & Hg & Hne) Hj].
    simpl in *. apply indexed_elem in Hj. apply Hne.
    apply (proj1 (NoDup_alt _) Hnd j i (eventGuard t)).
    + change (map eventGuard ts) with (eventGuard <$> ts).
      rewrite list_lookup_fmap, Hj. simpl. unfold eventGuard. congruence.
    + change (map eventGuard ts) with (eventGuard <$> ts).
      rewrite list_lookup_fmap, Hit. reflexivity.
Qed.

Lemma validateTransition_duplicate sibs path ts it :
  List.filter isDuplicateTransition (validateTransition sibs path ts it)
  = if (0 <? length (duplicates ts it.1 it.2))%nat
    then [duplicateTransitionDiag path it.2] else [].
Proof.
  unfold validateTransition. cbv zeta. rewrite !List.filter_app.
  rewrite (filter_none _ (if negb _ && _ then _ else _)) by other_messages.
  rewrite (filter_none _ (match guard _ with Some _ => _ | None => _ end)).
  2:{ unfold validateGuard. other_messages. }
  destruct (0 <? _)%nat; [|reflexivity].
  cbn [app addError List.filter]. unfold isDuplicateTransition. cbn [message].
  rewrite startsWith_app. reflexivity.
Qed.

Lemma validateStateTransitions_state_duplicate s : forall sibs p,
  List.filter isDuplicateTransition (validateStateTransitions_state sibs p s)
  = flat_map (fun ps =>
      flat_map (fun it =>
        if (0 <? length (duplicates (transitions ps.2) it.1 it.2))%nat
        then [duplicateTransitionDiag (fullPath ps) it.2] else [])
        (indexed (transitions ps.2)))
      (scoped_state p s).
Proof.
  induction s as [s IH] using State_tree_ind. intros sibs p.
  destruct s as [n pa en ex ts cs ii it]. simpl in *.
  rewrite List.filter_app, !filter_flat_map. f_equal.
  - apply flat_map_ext_Forall, Forall_forall. intros x _.
    apply validateTransition_duplicate.
  - rewrite flat_map_flat_map. apply flat_map_ext_Forall.
    eapply Forall_impl; [exact IH|]. intros c Hc. apply Hc.
Qed.

Lemma validate_duplicate_transitions sm errs :
  validate sm = Some errs ->
  List.filter isDuplicateTransition errs
  = flat_map (fun ps =>
      flat_map (fun it =>
        if (0 <? length (duplicates (transitions ps.2) it.1 it.2))%nat
        then [duplicateTransitionDiag (fullPath ps) it.2] else [])
        (indexed (transitions ps.2)))
      (scoped "" (states sm)).
Proof.
  destruct (validate_parts sm) as (v & Hv & ->). intros [= <-].
  rewrite !List.filter_app.
  rewrite (filter_none _ (validateBasicStructure _)).
  2:{ apply basic_other; [intros sev msg loc [->|[->| ->]]|intros ps]; vm_compute; reflexivity. }
  rewrite (filter_none _ (validateStates _ _)).
  2:{ apply states_other.
      intros sev msg loc [[x ->]|[[x ->]|[[x ->]|[x ->]]]]; vm_compute; reflexivity. }
  rewrite (filter_none _ (checkUnreachableStates _ _ _)).
  2:{ apply unreachable_other. intros ps. vm_compute. reflexivity. }
  rewrite (filter_none _ (validateQPConventions _)).
  2:{ apply conventions_other.
      intros sev msg loc [[x ->]| ->]; vm_compute; reflexivity. }
  rewrite !app_nil_r. simpl.
  unfold validateTransitions, validateStateTransitions, scoped.
  rewrite filter_flat_map, flat_map_flat_map.
  apply flat_map_ext_Forall, Forall_forall. intros s _.
  apply validateStateTransitions_state_duplicate.
Qed.

Lemma flat_map_nil {A B} (f : A -> list B) l :
  flat_map f l = [] <-> forall x, x ∈ l -> f x = [].
Proof.
  induction l as [|y l IH]; simpl.
  - split; [intros _ x H; inversion H|reflexivity].
  - split.
    + intros H. apply app_eq_nil in H as [H1 H2]. intros x Hx.
      apply elem_of_cons in Hx as [->|Hx]; [exact H1|]. apply IH; assumption.
    + intros H. rewrite (H y) by left. simpl. apply IH. intros x Hx. apply H. right.
      exact Hx.
Qed.

(** X15.  The validator reports a duplicate transition for every
    transition of a state that shares its event and its guard with
    another transition of that state, at the full path of the state, and
    reports none exactly when the transitions of each state differ
    pairwise in their event or their guard. *)
Theorem duplicate_transition_errors (sm : StateMachine) :
  exists errs,
    validate sm = Some errs
    /\ (forall q s i j t t',
          (q, s) ∈ scoped "" (states sm) ->
          transitions s !! i = Some t -> transitions s !! j = Some t' -> i <> j ->
          eventGuard t = eventGuard t' ->
          duplicateTransitionDiag (dotted q (name s)) t ∈ errs)
    /\ (List.filter isDuplicateTransition errs = [] <->
        forall q s, (q, s) ∈ scoped "" (states sm) ->
                    NoDup (map eventGuard (transitions s))).
Proof.
  destruct (validate_total sm) as [errs He]. exists errs. split; [exact He|].
  pose proof (validate_duplicate_transitions sm errs He) as E. split.
  - intros q s i j t t' Hqs Hi Hj Hne Heg.
    assert (Hin : duplicateTransitionDiag (dotted q (name s)) t
                  ∈ List.filter isDuplicateTransition errs).
    { rewrite E. apply list_elem_of_In, in_flat_map. exists (q, s).
      split; [apply list_elem_of_In, Hqs|]. apply in_flat_map. exists (i, t).
      split; [apply list_elem_of_In, indexed_lookup, Hi|]. simpl.
      destruct (duplicates (transitions s) i t) as [|x r] eqn:Ed.
      - exfalso. assert (Hd : (j, t') ∈ duplicates (transitions s) i t).
        { unfold duplicates. apply list_elem_of_filter. simpl.
          unfold eventGuard in Heg. injection Heg as He' Hg'.
          repeat split; auto. apply indexed_lookup, Hj. }
        rewrite Ed in Hd. inversion Hd.
      - left. reflexivity. }
    apply list_elem_of_In, filter_In in Hin as [Hin _]. apply list_elem_of_In, Hin.
  - rewrite E, flat_map_nil. split.
    + intros H q s Hqs. apply duplicates_free. intros it Hit.
      specialize (H (q, s) Hqs). rewrite flat_map_nil in H. specialize (H it Hit).
      simpl in H. destruct (duplicates (transitions s) it.1 it.2); [reflexivity|].
      discriminate.
    + intros H [q s] Hqs. apply flat_map_nil. intros it Hit. simpl in *.
      rewrite (proj2 (duplicates_free (transitions s)) (H q s Hqs) it Hit). reflexivity.
Qed.

(** ** Naming conventions *)

Lemma starLoop_eol {R} (p : ascii -> bool) (k : string -> option R) s :
  (forall c s', k (String c s') = None) ->
  isSome (starLoop p s k) = allChars p s && isSome (k "").
Proof.
  intros Hk. induction s as [|a s IH]; [reflexivity|].
  simpl. destruct (p a); simpl.
  - rewrite <- IH. destruct (starLoop p s k); [reflexivity|]. rewrite Hk. reflexivity.
  - rewrite Hk. reflexivity.
Qed.

Lemma test_upper_then p n :
  test (MkRegExp true 0 (Seq (Cls is_upper) (Seq (Star p) Eol))) n
  = match n with
    | EmptyString => false
    | String c rest => is_upper c && allChars p rest
    end.
Proof.
  unfold test, exec, matchHere. cbn [anchored body groups rmatch].
  destruct n as [|c rest]; [reflexivity|].
  destruct (is_upper c); [|reflexivity]. cbn [andb].
  match goal with
  | |- match ?x with Some _ => true | None => false end = _ => change (isSome x = allChars p rest)
  end.
  rewrite starLoop_eol; [apply andb_true_r|]. reflexivity.
Qed.

(** X16.  A state name passes the naming test exactly when it is an
    ASCII capital letter followed by ASCII letters and digits only, and
    an event name exactly when it is an ASCII capital letter followed by
    ASCII capital letters, digits and underscores only. *)
Theorem naming_conventions (n : string) :
  (isValidStateName n = true <->
   exists c rest, n = String c rest /\ is_upper c = true /\ allChars is_alnum rest = true)
  /\ (isValidEventName n = true <->
      exists c rest, n = String c rest /\ is_upper c = true
                     /\ allChars is_upper_digit_underscore rest = true).
Proof.
  unfold isValidStateName, isValidEventName, re_stateName, re_eventName.
  rewrite !test_upper_then. split.
  - destruct n as [|c rest].
    + split; [discriminate|]. intros (c & rest & H & _). discriminate.
    + rewrite andb_true_iff. split.
      * intros [H1 H2]. exists c, rest. auto.
      * intros (c' & rest' & [= -> ->] & H1 & H2). auto.
  - destruct n as [|c rest].
    + split; [discriminate|]. intros (c & rest & H & _). discriminate.
    + rewrite andb_true_iff. split.
      * intros [H1 H2]. exists c, rest. auto.
      * intros (c' & rest' & [= -> ->] & H1 & H2). auto.
Qed.

(** ** A model without initial state *)

Lemma validate_unreachable sm visited errs :
  visitedStates sm = Some visited -> validate sm = Some errs ->
  List.filter isUnreachable errs
  = map unreachableDiag (List.filter (unvisited visited) (scoped "" (states sm))).
Proof.
  intros Hv. unfold validate, checkReachability. rewrite Hv. intros [= <-].
  rewrite !List.filter_app.
  rewrite (filter_none _ (validateBasicStructure _)) by apply basic_not_unreachable.
  rewrite (filter_none _ (validateStates _ _)) by apply validateStates_not_unreachable.
  rewrite (filter_all _ (checkUnreachableStates _ _ _)) by apply unreachable_all.
  rewrite (filter_none _ (validateTransitions _)) by apply transitions_not_unreachable.
  rewrite (filter_none _ (validateQPConventions _)) by apply conventions_not_unreachable.
  rewrite app_nil_r. apply checkUnreachable_scoped.
Qed.

(** X17.  For a model whose initial state is the empty string the
    validator reports that error and then, since nothing is traversed,
    one unreachable warning for every state of the tree that is not
    named [[*]]. *)
Theorem no_initial_state_all_unreachable (sm : StateMachine) :
  initialState sm = "" ->
  exists errs,
    validate sm = Some errs
    /\ noInitialStateError ∈ errs
    /\ List.filter isUnreachable errs
       = map unreachableDiag (List.filter notEndState (scoped "" (states sm))).
Proof.
  intros Hi.
  assert (Hv : visitedStates sm = Some ∅) by (unfold visitedStates; rewrite Hi; reflexivity).
  destruct (validate_total sm) as [errs He]. exists errs. split; [exact He|]. split.
  - revert He. unfold validate, checkReachability. rewrite Hv. intros [= <-].
    apply elem_of_app. left. unfold validateBasicStructure. rewrite Hi.
    apply elem_of_app. right. apply elem_of_app. left. left.
  - rewrite (validate_unreachable sm ∅ errs Hv He). reflexivity.
Qed.

Lemma no_initial_state_all_unreachable_witness :
  exists errs,
    validate (set_initialState xyz "") = Some errs
    /\ noInitialStateError ∈ errs
    /\ List.filter isUnreachable errs
       = map unreachableDiag
           (List.filter notEndState (scoped "" (states (set_initialState xyz "")))).
Proof.
  apply (no_initial_state_all_unreachable (set_initialState xyz "")). reflexivity.
Defined.

(** ** Timer events *)

Lemma existsb_elem {A} (f : A -> bool) l :
  existsb f l = true <-> exists x, x ∈ l /\ f x = true.
Proof.
  rewrite existsb_exists. split; intros (x & H1 & H2); exists x;
    (split; [apply list_elem_of_In, H1|exact H2]).
Qed.

Lemma hasTimeoutEvents_state_spec s :
  hasTimeoutEvents_state s = true <->
  exists x t, x ∈ subtree_state s /\ t ∈ transitions x /\ onTimeout t = true.
Proof.
  induction s as [s IH] using State_tree_ind.
  rewrite subtree_unfold. destruct s as [n pa en ex ts cs ii it]. simpl in *.
  rewrite orb_true_iff, !existsb_elem. split.
  - intros [(t & Ht & E)|(c & Hc & E)].
    + eexists _, t. split; [left|]. split; [exact Ht|exact E].
    + rewrite Forall_forall in IH. apply (IH c Hc) in E as (x & t & Hx & Ht & E).
      exists x, t. split; [|split; [exact Ht|exact E]]. right.
      apply list_elem_of_In, in_flat_map. exists c.
      split; apply list_elem_of_In; assumption.
  - intros (x & t & Hx & Ht & E). apply elem_of_cons in Hx as [->|Hx].
    + left. exists t. split; [exact Ht|exact E].
    + right. apply list_elem_of_In, in_flat_map in Hx as (c & Hc & Hx).
      exists c. split; [apply list_elem_of_In, Hc|].
      rewrite Forall_forall in IH. apply (IH c (proj2 (list_elem_of_In _ _) Hc)).
      exists x, t. split; [apply list_elem_of_In, Hx|]. split; [exact Ht|exact E].
Qed.

Lemma hasTimeoutEvents_spec sts :
  hasTimeoutEvents sts = true <->
  exists x t, x ∈ subtrees sts /\ t ∈ transitions x /\ onTimeout t = true.
Proof.
  unfold hasTimeoutEvents. rewrite existsb_elem. split.
  - intros (s & Hs & E). apply hasTimeoutEvents_state_spec in E as (x & t & Hx & Ht & E).
    exists x, t. split; [|split; [exact Ht|exact E]].
    apply list_elem_of_In, in_flat_map. exists s. split; apply list_elem_of_In; assumption.
  - intros (x & t & Hx & Ht & E). apply list_elem_of_In, in_flat_map in Hx as (s & Hs & Hx).
    exists s. split; [apply list_elem_of_In, Hs|]. apply hasTimeoutEvents_state_spec.
    exists x, t. split; [apply list_elem_of_In, Hx|]. split; [exact Ht|exact E].
Qed.

(** X18.  The validator warns about a missing [QTimeEvt] data member
    exactly when some state of the tree, at any depth, has a transition
    on the event [TIMEOUT] and no data member has the type [QTimeEvt]. *)
Theorem timer_warning (sm : StateMachine) :
  exists errs,
    validate sm = Some errs
    /\ (timerWarning ∈ errs <->
        (exists s t, s ∈ subtrees (states sm) /\ t ∈ transitions s /\ onTimeout t = true)
        /\ forall d, d ∈ dataMembers sm -> isTimer d = false).
Proof.
  destruct (validate_parts sm) as (v & Hv & He). eexists. split; [exact He|].
  set (f := fun d : ValidationError => String.eqb (message d) (message timerWarning)).
  assert (Hf : forall l, Forall (fun d => f d = false) l -> timerWarning ∉ l).
  { intros l Hl Hin. rewrite Forall_forall in Hl. specialize (Hl _ Hin). discriminate. }
  rewrite <- hasTimeoutEvents_spec.
  assert (Hd : (forall d, d ∈ dataMembers sm -> isTimer d = false)
               <-> existsb isTimer (dataMembers sm) = false).
  { rewrite <- not_true_iff_false, existsb_elem. split.
    - intros H (d & Hd & E). rewrite (H d Hd) in E. discriminate.
    - intros H d Hd. destruct (isTimer d) eqn:E; [|reflexivity].
      exfalso. apply H. exists d. auto. }
  rewrite Hd. clear Hd.
  assert (Hconv : timerWarning ∈ validateQPConventions sm <->
                  hasTimeoutEvents (states sm) = true
                  /\ existsb isTimer (dataMembers sm) = false).
  { unfold validateQPConventions. rewrite elem_of_app. split.
    - intros [H|H].
      + exfalso. revert H. apply Hf. apply Forall_flat_map_tree, Forall_forall.
        intros e _. other_messages.
      + change (fun d => String.eqb (dm_type d) "QTimeEvt") with isTimer in H.
        destruct (hasTimeoutEvents (states sm)); [|inversion H].
        destruct (existsb isTimer (dataMembers sm)); [inversion H|]. auto.
    - intros [-> H]. right.
      change (fun d => String.eqb (dm_type d) "QTimeEvt") with isTimer. rewrite H. left. }
  rewrite <- Hconv, !elem_of_app. split; [|auto 6].
  intros [H|[H|[H|[H|H]]]]; [exfalso; revert H; apply Hf..|exact H].
  - apply basic_other; [intros sev msg loc [->|[->| ->]]|intros ps]; vm_compute; reflexivity.
  - apply states_other.
    intros sev msg loc [[x ->]|[[x ->]|[[x ->]|[x ->]]]]; vm_compute; reflexivity.
  - apply unreachable_other. intros ps. vm_compute. reflexivity.
  - apply validateStateTransitions_other.
    intros sev msg loc [[x ->]|[[x ->]|[[x ->]|[x ->]]]]; vm_compute; reflexivity.
Qed.

(** ** The two searches for a state *)

Lemma find_app' {A} (f : A -> bool) l1 l2 :
  find f (l1 ++ l2) = match find f l1 with Some x => Some x | None => find f l2 end.
Proof.
  induction l1 as [|x l1 IH]; simpl; [reflexivity|]. destruct (f x); [reflexivity|exact IH].
Qed.

Lemma findState_state_find n s :
  findState_state n s = find (named n) (subtree_state s).
Proof.
  induction s as [s IH] using State_tree_ind.
  rewrite subtree_unfold. destruct s as [nm pa en ex ts cs ii it]. simpl in *.
  unfold named at 1. simpl. destruct (String.eqb nm n); [reflexivity|].
  induction IH as [|c cs Hc _ IHcs]; simpl; [reflexivity|].
  rewrite find_app', <- Hc, IHcs. reflexivity.
Qed.

Lemma findState_find n sts : findState n sts = find (named n) (subtrees sts).
Proof.
  unfold findState, subtrees. induction sts as [|c cs IH]; simpl; [reflexivity|].
  rewrite find_app', <- findState_state_find, IH. reflexivity.
Qed.

Lemma findRef_from_agrees n l :
  Forall (fun s =>
            (forall r, findRef_state n s = Some r ->
                       exists y, findState_state n s = Some y
                                 /\ match r with
                                    | [] => Some s
                                    | _ => deref r (children s)
                                    end = Some y)
            /\ (findRef_state n s = None -> findState_state n s = None)) l ->
  forall pre,
    match findRef_from n (length pre) l with
    | Some r => exists y, firstSome (findState_state n) l = Some y
                          /\ deref r (pre ++ l) = Some y /\ r <> []
    | None => firstSome (findState_state n) l = None
    end.
Proof.
  induction 1 as [|c l [Hc1 Hc2] _ IH]; intros pre; simpl; [reflexivity|].
  destruct (findRef_state n c) as [r0|] eqn:E.
  - destruct (Hc1 r0 eq_refl) as (y & Hy & Hd). exists y. rewrite Hy.
    split; [reflexivity|]. split; [|discriminate].
    rewrite deref_cons, list_lookup_middle by reflexivity. exact Hd.
  - rewrite (Hc2 eq_refl). specialize (IH (pre ++ [c])).
    rewrite length_app, Nat.add_1_r, <- app_assoc in IH. exact IH.
Qed.

Lemma findRef_state_agrees n s :
  (forall r, findRef_state n s = Some r ->
             exists y, findState_state n s = Some y
                       /\ match r with
                          | [] => Some s
                          | _ => deref r (children s)
                          end = Some y)
  /\ (findRef_state n s = None -> findState_state n s = None).
Proof.
  induction s as [s IH] using State_tree_ind.
  rewrite findRef_state_unfold.
  pose proof (findRef_from_agrees n (children s) IH []) as H. simpl in H.
  destruct s as [nm pa en ex ts cs ii it]. simpl in *.
  destruct (String.eqb nm n).
  - split; [|discriminate]. intros r [= <-]. eexists. split; reflexivity.
  - destruct (findRef_from n 0 cs) as [r|].
    + destruct H as (y & Hy & Hd & Hr). split; [|discriminate].
      intros r' [= <-]. exists y. split; [exact Hy|]. destruct r; [congruence|exact Hd].
    + split; [discriminate|]. intros _. exact H.
Qed.

(** X19.  The validator's search for a state by name returns the first
    state of that name in the pre-order of the tree, and the parser's
    own search finds the same state. *)
Theorem searches_agree (n : string) (sts : list State) :
  findState n sts = find (named n) (subtrees sts)
  /\ match findRef n sts with Some r => deref r sts | None => None end
     = findState n sts.
Proof.
  split; [apply findState_find|].
  assert (H := findRef_from_agrees n sts
                 (proj2 (Forall_forall _ _) (fun s _ => findRef_state_agrees n s)) []).
  simpl in H. unfold findRef, findState.
  destruct (findRef_from n 0 sts) as [r|].
  - destruct H as (y & -> & -> & _). reflexivity.
  - symmetry. exact H.
Qed.

(** ** Text without a diagram header *)


Section NoHeader.
Variable parseMetadata : string -> StateMachine -> StateMachine.
Hypothesis parseMetadata_states :
  forall content sm, states (parseMetadata content sm) = states sm.


End NoHeader.



(** ** The preprocessor keeps the lines in place *)


(** ** The code fences of the preview *)

Lemma litMatch_app l rest : litMatch l (l +:+ rest) = Some rest.
Proof.
  induction l as [|a l IH]; [destruct rest; reflexivity|].
  rewrite app_cons. simpl. rewrite Ascii.eqb_refl. exact IH.
Qed.

Lemma litMatch_sound l : forall s s', litMatch l s = Some s' -> s = l +:+ s'.
Proof.
  induction l as [|a l IH]; intros s s'; simpl.
  - intros [= ->]. reflexivity.
  - destruct s as [|b s]; [discriminate|].
    destruct (Ascii.eqb a b) eqn:E; [|discriminate].
    apply Ascii.eqb_eq in E. subst b. intros H. rewrite (IH _ _ H). reflexivity.
Qed.

Lemma replace_fenceOpen rest :
  replace re_fenceOpen (("```mermaid" +:+ newline) +:+ rest) "" = rest.
Proof.
  unfold replace, exec, matchHere, re_fenceOpen. cbn [anchored body groups rmatch].
  rewrite litMatch_app. reflexivity.
Qed.

Lemma search_fenceClose b : forall pre,
  exists cs, searchFrom re_fenceClose pre (b +:+ (newline +:+ "```"))
             = Some (MkMatch (pre +:+ b) cs "").
Proof.
  induction b as [|c b IH]; intros pre.
  - rewrite app_empty_r. eexists. reflexivity.
  - rewrite app_cons.
    assert (Hm : matchHere re_fenceClose pre (String c (b +:+ (newline +:+ "```"))) = None).
    { unfold matchHere, re_fenceClose. cbn [body groups rmatch].
      destruct (litMatch _ _) as [s'|] eqn:E; [|reflexivity].
      destruct s' as [|]; [|reflexivity]. exfalso.
      apply litMatch_sound in E. rewrite app_empty_r in E.
      apply (f_equal String.length) in E. simpl in E.
      rewrite app_length_s in E. simpl in E. lia. }
    cbn [searchFrom]. rewrite Hm.
    destruct (IH (pre +:+ String c "")) as [cs Hcs]. exists cs. rewrite Hcs.
    rewrite app_assoc_s. reflexivity.
Qed.

Lemma replace_fenceClose b : replace re_fenceClose (b +:+ (newline +:+ "```")) "" = b.
Proof.
  unfold replace, exec. cbn [anchored re_fenceClose].
  destruct (search_fenceClose b "") as [cs Hcs].
  change (MkRegExp false 0 (Seq (Lit (newline +:+ "```")) Eol)) with re_fenceClose.
  rewrite Hcs. cbn [before after]. rewrite app_empty_l, app_empty_r. reflexivity.
Qed.

(** X22.  For a document that is one fenced [mermaid] block the preview
    hands the text between the fences, trimmed, to the preprocessor,
    even when that text has fence lines of its own. *)
Theorem preview_strips_fences (body : string) :
  previewSource (("```mermaid" +:+ newline) +:+ body +:+ (newline +:+ "```")) = trim body
  /\ previewDiagram (("```mermaid" +:+ newline) +:+ body +:+ (newline +:+ "```"))
     = bindR (preprocess (trim body)) (fun r => Ok (mermaidDiagram r)).
Proof.
  assert (H : previewSource (("```mermaid" +:+ newline) +:+ body +:+ (newline +:+ "```"))
              = trim body).
  { unfold previewSource. rewrite replace_fenceOpen, replace_fenceClose. reflexivity. }
  split; [exact H|]. unfold previewDiagram. rewrite H. reflexivity.
Qed.


(** ** When the preprocessor cannot throw *)

Lemma includes_app_r a b sub : includes b sub = true -> includes (a +:+ b) sub = true.
Proof.
  intros H. induction a as [|c a IH]; [exact H|].
  rewrite app_cons. simpl. rewrite IH. apply orb_true_r.
Qed.

Lemma includes_prefix p s : includes (p +:+ s) p = true.
Proof.
  destruct p as [|c p]; [destruct s; reflexivity|].
  pose proof (startsWith_app (String c p) s) as H. unfold startsWith in H.
  rewrite app_cons in *. cbn [includes]. rewrite H. reflexivity.
Qed.

Lemma transitionKey_not_plain src tgt ev : plainName (transitionKey src tgt ev) = false.
Proof.
  unfold plainName, transitionKey.
  rewrite (includes_app_r src), ?includes_prefix; [reflexivity|].
  apply includes_prefix.
Qed.

Lemma historyKey_not_plain n : plainName ("History_" +:+ n) = false.
Proof.
  unfold plainName. rewrite startsWith_app. apply andb_false_r.
Qed.

Lemma preprocessOther_entry st line t :
  blockEntry st -> blockEntry (preprocessOther st line t).
Proof.
  intros H. unfold preprocessOther.
  destruct (includes t "-->").
  { unfold processTransition. destruct (exec re_transition line) as [m|]; [|exact H].
    intros Hb cur Hc. destruct (H Hb cur Hc) as (Hp & en & ex & it & Hm).
    split; [exact Hp|]. exists en, ex, it. cbn [emit pp_metadata fst].
    rewrite lookup_insert_ne; [exact Hm|].
    intros E. change (capture1 m 2 +:+ "_to_" +:+ capture1 m 3 +:+ "_" +:+ trim (capture1 m 4))
      with (transitionKey (capture1 m 2) (capture1 m 3) (trim (capture1 m 4))) in E.
    rewrite <- E, transitionKey_not_plain in Hp. discriminate. }
  destruct (_ || _); [|exact H].
  intros Hb cur Hc. destruct (H Hb cur Hc) as (Hp & en & ex & it & Hm).
  split; [exact Hp|]. exists en, ex, it. cbn [pp_metadata].
  rewrite lookup_insert_ne; [exact Hm|].
  intros E. rewrite <- E, historyKey_not_plain in Hp. discriminate.
Qed.

Lemma preprocessLine_entry st line :
  (forall m, exec re_stateOpen (trim line) = Some m -> plainName (capture1 m 1) = true) ->
  blockEntry st ->
  exists st', preprocessLine st line = Ok st' /\ blockEntry st'.
Proof.
  intros Hplain H. unfold preprocessLine. cbv zeta.
  destruct (exec re_stateOpen (trim line)) as [m|] eqn:E1.
  { eexists. split; [reflexivity|]. intros _ cur [= <-]. split; [apply Hplain; reflexivity|].
    cbn [pp_metadata]. rewrite lookup_insert_eq. eauto. }
  destruct (inStateBlock st && String.eqb (trim line) "}") eqn:E2.
  { eexists. split; [reflexivity|]. intros Hb. discriminate. }
  assert (Hother : exists st', Ok (preprocessOther st line (trim line)) = Ok st'
                               /\ blockEntry st').
  { eexists. split; [reflexivity|]. apply preprocessOther_entry, H. }
  destruct (inStateBlock st) eqn:Eb; [|exact Hother].
  destruct (currentState st) as [cur|] eqn:Ec; [|exact Hother].
  destruct (H Eb cur Ec) as (Hp & en & ex & it & Hm).
  assert (Hpush : forall md out,
            (exists en' ex' it', md = <[cur := StateMeta en' ex' it']> (pp_metadata st)) ->
            blockEntry (emit st md out)).
  { intros md out (en' & ex' & it' & ->) _ cur' Hc'.
    cbn [emit currentState] in Hc'. rewrite Ec in Hc'. injection Hc' as <-.
    split; [exact Hp|]. cbn [emit pp_metadata]. rewrite lookup_insert_eq. eauto. }
  destruct (negb (truthy cur)); [exact Hother|].
  destruct (startsWith (trim line) "entry:").
  { unfold pushEntry. rewrite Hm. cbn [bindR]. eexists. split; [reflexivity|].
    apply Hpush. eauto. }
  destruct (startsWith (trim line) "exit:").
  { unfold pushExit. rewrite Hm. cbn [bindR]. eexists. split; [reflexivity|].
    apply Hpush. eauto. }
  destruct (includes (trim line) ":" && negb (includes (trim line) "-->")); [|exact Hother].
  destruct (exec re_internal (trim line)) as [m|]; [|exact Hother].
  unfold pushInternal. rewrite Hm. cbn [bindR]. eexists. split; [reflexivity|].
  apply Hpush. eauto.
Qed.

Lemma preprocessLoop_entry lines : forall st,
  plainBlocks lines -> blockEntry st ->
  exists st', preprocessLoop st lines = Ok st'.
Proof.
  induction lines as [|l lines IH]; intros st Hp H; simpl; [eauto|].
  destruct (preprocessLine_entry st l) as (st1 & -> & H1).
  - intros m Hm. apply (Hp l m); [left|exact Hm].
  - exact H.
  - simpl. apply IH; [|exact H1]. intros line m Hin. apply Hp. right. exact Hin.
Qed.

(** X23.  [preprocess] returns, and does not throw, on every input in
    which no state block has a name that contains [_to_] or starts with
    [History_]: no key of a transition or of a history marker can then
    replace the entry of the open state block. *)
Theorem preprocess_returns_on_plain_blocks (content : string) :
  plainBlocks (split "010" content) ->
  exists r, preprocess content = Ok r.
Proof.
  intros Hp. unfold preprocess. cbv zeta.
  destruct (preprocessLoop_entry (split "010" content) initialScan Hp) as [st ->].
  - intros Hb. discriminate.
  - simpl. eauto.
Qed.

Lemma preprocess_returns_on_plain_blocks_witness :
  exists r, preprocess nestedTarget = Ok r.
Proof.
  apply (preprocess_returns_on_plain_blocks nestedTarget).
  intros line m Hin.
  set (ls := split "010" nestedTarget) in Hin. vm_compute in ls. subst ls.
  repeat (apply elem_of_cons in Hin as [->|Hin];
          [vm_compute; intros [= <-]; vm_compute; reflexivity|]).
  inversion Hin.
Defined.

(** ** What a capture group can hold *)

Lemma allChars_app p a b : allChars p (a +:+ b) = allChars p a && allChars p b.
Proof.
  induction a as [|c a IH]; [reflexivity|]. rewrite app_cons. simpl.
  rewrite IH. apply andb_assoc.
Qed.

Lemma substring_prefix pre s : String.substring 0 (String.length pre) (pre +:+ s) = pre.
Proof.
  induction pre as [|c pre IH]; [destruct s; reflexivity|].
  rewrite app_cons. simpl. rewrite IH. reflexivity.
Qed.

Lemma consumed_app pre s : consumed (pre +:+ s) s = pre.
Proof.
  unfold consumed. rewrite app_length_s.
  replace (String.length pre + String.length s - String.length s)
    with (String.length pre) by lia.
  apply substring_prefix.
Qed.

Lemma starLoop_inv {R} (p : ascii -> bool) (k : string -> option R) s x :
  starLoop p s k = Some x ->
  exists pre s', s = pre +:+ s' /\ allChars p pre = true /\ k s' = Some x.
Proof.
  induction s as [|a s IH]; simpl.
  - intros H. exists "", "". auto.
  - destruct (p a) eqn:Ea.
    + destruct (starLoop p s k) as [y|] eqn:E.
      * intros [= ->]. destruct (IH eq_refl) as (pre & s' & -> & Hp & Hk).
        exists (String a pre), s'. simpl. rewrite Ea, Hp. auto.
      * intros H. exists "", (String a s). auto.
    + intros H. exists "", (String a s). auto.
Qed.

Lemma capturesSatisfy_insert P cs i s :
  capturesSatisfy P cs -> P i s -> capturesSatisfy P (<[i := Some s]> cs).
Proof.
  intros Hcs Hs j t Hj. apply list_lookup_insert_Some in Hj as [(-> & [= <-] & _)|[_ Hj]].
  - exact Hs.
  - apply (Hcs j t Hj).
Qed.

Lemma rmatch_captures {R} (P : nat -> string -> Prop) (r : regex) :
  groupsSatisfy P r ->
  forall s cs (k : string -> captures -> option R) x,
    capturesSatisfy P cs -> rmatch r s cs k = Some x ->
    exists s' cs', capturesSatisfy P cs' /\ k s' cs' = Some x.
Proof.
  induction r as [l|p|p|p|r1 IH1 r2 IH2|r1 IH1|i r1 IH1|]; intros Hr s cs k x Hcs; simpl.
  - destruct (litMatch l s) as [s'|]; [|discriminate]. eauto.
  - destruct s as [|a s]; [discriminate|]. destruct (p a); [|discriminate]. eauto.
  - intros H. apply starLoop_inv in H as (pre & s' & _ & _ & H). eauto.
  - destruct s as [|a s]; [discriminate|]. destruct (p a); [|discriminate].
    intros H. apply starLoop_inv in H as (pre & s' & _ & _ & H). eauto.
  - destruct Hr as [Hr1 Hr2]. intros H.
    apply (IH1 Hr1 _ _ _ _ Hcs) in H as (s1 & cs1 & Hcs1 & H).
    apply (IH2 Hr2 _ _ _ _ Hcs1) in H. exact H.
  - destruct (rmatch r1 s cs k) as [y|] eqn:E.
    + intros [= ->]. apply (IH1 Hr _ _ _ _ Hcs E).
    + eauto.
  - destruct r1 as [l|p|p|p|r1 r2|r1|j r1|]; try (destruct Hr; fail); simpl in *.
    + intros H. apply starLoop_inv in H as (pre & s' & -> & Hp & H).
      eexists _, _. split; [|exact H].
      apply capturesSatisfy_insert; [exact Hcs|]. rewrite consumed_app. apply Hr, Hp.
    + destruct s as [|a s]; [discriminate|]. destruct (p a) eqn:Ea; [|discriminate].
      intros H. apply starLoop_inv in H as (pre & s' & -> & Hp & H).
      eexists _, _. split; [|exact H].
      apply capturesSatisfy_insert; [exact Hcs|].
      rewrite <- app_cons, consumed_app. apply Hr. simpl. rewrite Ea, Hp. reflexivity.
  - destruct s; [|discriminate]. eauto.
Qed.

Lemma matchHere_captures (P : nat -> string -> Prop) re pre s m :
  groupsSatisfy P (body re) -> (forall t, P 0 t) ->
  matchHere re pre s = Some m -> capturesSatisfy P (caps m).
Proof.
  intros Hr H0 H. unfold matchHere in H.
  apply (rmatch_captures P _ Hr) in H as (s' & cs' & Hcs & [= <-]).
  - simpl. apply capturesSatisfy_insert; [exact Hcs|apply H0].
  - intros i t Hi. apply lookup_replicate in Hi as [Hi _]. discriminate.
Qed.

Lemma exec_captures (P : nat -> string -> Prop) re s m :
  groupsSatisfy P (body re) -> (forall t, P 0 t) ->
  exec re s = Some m -> capturesSatisfy P (caps m).
Proof.
  intros Hr H0. unfold exec. destruct (anchored re).
  - apply matchHere_captures; assumption.
  - generalize "". induction s as [|a s IH]; intros pre; simpl.
    + destruct (matchHere re pre "") as [y|] eqn:E; [|discriminate].
      intros [= <-]. eapply matchHere_captures; eassumption.
    + destruct (matchHere re pre (String a s)) as [y|] eqn:E.
      * intros [= <-]. eapply matchHere_captures; eassumption.
      * apply IH.
Qed.

Lemma capture_satisfies (P : nat -> string -> Prop) re s m i t :
  groupsSatisfy P (body re) -> (forall t, P 0 t) ->
  exec re s = Some m -> capture m i = Some t -> P i t.
Proof.
  intros Hr H0 He Hc. pose proof (exec_captures P re s m Hr H0 He) as Hcs.
  unfold capture in Hc. destruct (caps m !! i) as [c|] eqn:E; [|discriminate].
  subst c. apply (Hcs i t E).
Qed.

(** The event that [parseTransition] reads and the event of an internal
    transition are made of word characters. *)
Lemma parseTransition_event line m t :
  exec re_parseTransition line = Some m -> capture m 3 = Some t ->
  allChars is_word t = true.
Proof.
  intros He Hc.
  apply (capture_satisfies (fun i t => i = 3 -> allChars is_word t = true)
           re_parseTransition line m 3 t); auto; [|discriminate].
  simpl. repeat split; auto; intros s Hs E; try discriminate.
Qed.

Lemma internalTransition_event line m :
  exec re_internalTransition line = Some m -> allChars is_word (capture1 m 1) = true.
Proof.
  intros He. unfold capture1. destruct (capture m 1) as [t|] eqn:Hc; [|reflexivity].
  apply (capture_satisfies (fun i t => i = 1 -> allChars is_word t = true)
           re_internalTransition line m 1 t); auto; [|discriminate].
  simpl. repeat split; auto; intros s Hs E; try discriminate.
Qed.

(** ** The initial child that [setupHierarchy] picks *)

Lemma mutate_local (P : State -> Prop) f :
  (forall s, P s -> P (f s)) -> (forall s, children (f s) = children s) ->
  (forall s cs, P s -> P (set_children s cs)) ->
  forall r sts, Forall P (subtrees sts) -> Forall P (subtrees (mutate f r sts)).
Proof.
  intros Hf Hc Hset. induction r as [|i r IH]; intros sts H; [exact H|].
  rewrite mutate_cons. destruct r as [|j r].
  - apply Forall_flat_map_alter; [|exact H]. intros s _.
    rewrite !subtree_unfold, Hc. intros Hs. inversion Hs; subst.
    constructor; auto.
  - apply Forall_flat_map_alter; [|exact H]. intros s _.
    rewrite !subtree_unfold. intros Hs. inversion Hs as [|? ? H1 H2]; subst.
    constructor; [apply Hset, H1|].
    destruct s; simpl in *. apply IH, H2.
Qed.

Lemma set_children_events s cs : wordEvents s -> wordEvents (set_children s cs).
Proof. destruct s; exact id. Qed.

Lemma findOrCreateState_events p n :
  Forall wordEvents (subtrees (states (stateMachine p))) ->
  Forall wordEvents (subtrees (states (stateMachine (findOrCreateState p n).1))).
Proof.
  intros H. unfold findOrCreateState.
  destruct (findRef n (states (stateMachine p))); [exact H|].
  destruct (stateStack p) as [|top stk].
  - simpl. rewrite subtrees_app. apply Forall_app. split; [exact H|].
    repeat constructor.
  - destruct (deref top (states (stateMachine p))) as [par|] eqn:Hpar; [|exact H].
    simpl. apply (mutate_every _ _ set_children_events top _ par Hpar); [|exact H].
    rewrite !subtree_unfold. intros Hs. inversion Hs as [|? ? H1 H2]; subst.
    constructor; [apply set_children_events, H1|].
    destruct par; simpl. rewrite subtrees_app. apply Forall_app.
    split; [exact H2|]. repeat constructor.
Qed.

Lemma push_transition_events t s :
  allChars is_word (event t) = true -> wordEvents s -> wordEvents (push_transition t s).
Proof.
  intros Ht Hs. destruct s; unfold wordEvents in *; simpl in *.
  apply Forall_app. split; [exact Hs|]. repeat constructor. exact Ht.
Qed.

Lemma parseTransition_events p line :
  Forall wordEvents (subtrees (states (stateMachine p))) ->
  Forall wordEvents (subtrees (states (stateMachine (parseTransition p line)))).
Proof.
  intros H. unfold parseTransition.
  destruct (exec re_parseTransition line) as [m|] eqn:Em; [|exact H].
  cbv zeta. rewrite with_states_states.
  apply mutate_local; [| |apply set_children_events|].
  - intros s. apply push_transition_events. simpl.
    destruct (capture m 3) as [e|] eqn:Ec; [|reflexivity].
    destruct (truthy e); [|reflexivity].
    apply (parseTransition_event line m e Em Ec).
  - intros s. destruct s; reflexivity.
  - apply findOrCreateState_events, findOrCreateState_events, H.
Qed.

Lemma parseLine_events p line :
  Forall wordEvents (subtrees (states (stateMachine p))) ->
  Forall wordEvents (subtrees (states (stateMachine (parseLine p line)))).
Proof.
  intros H. unfold parseLine. cbv zeta.
  destruct (includes line "[*]" && includes line "-->").
  { destruct (exec re_initial line); exact H. }
  destruct (startsWith line "state " && includes line "{").
  { destruct (exec re_stateBlock line) as [m|]; [|exact H].
    apply (findOrCreateState_events p _ H). }
  destruct (String.eqb line "}"); [exact H|].
  destruct (startsWith line "entry:").
  { destruct (stateStack p) as [|top stk]; [exact H|]. rewrite with_states_states.
    apply mutate_local; [| |apply set_children_events|exact H].
    - intros s Hs. destruct s; exact Hs.
    - intros s. destruct s; reflexivity. }
  destruct (startsWith line "exit:").
  { destruct (stateStack p) as [|top stk]; [exact H|]. rewrite with_states_states.
    apply mutate_local; [| |apply set_children_events|exact H].
    - intros s Hs. destruct s; exact Hs.
    - intros s. destruct s; reflexivity. }
  destruct (includes line "-->").
  { apply parseTransition_events, H. }
  destruct (includes line ":" && negb false); [|exact H].
  destruct (stateStack p) as [|top stk]; [exact H|].
  destruct (exec re_internalTransition line) as [m|] eqn:Em; [|exact H].
  rewrite with_states_states.
  apply mutate_local; [| |apply set_children_events|exact H].
  - intros s. apply push_transition_events. simpl.
    apply (internalTransition_event line m Em).
  - intros s. destruct s; reflexivity.
Qed.

Lemma no_init_event t :
  allChars is_word (event t) = true -> String.eqb (event t) Q_INIT_SIG = false.
Proof.
  intros H. destruct (String.eqb (event t) Q_INIT_SIG) eqn:E; [|reflexivity].
  apply String.eqb_eq in E. rewrite E in H. vm_compute in H. discriminate.
Qed.

Lemma setupHierarchy_first_child roots s :
  Forall wordEvents roots -> initialTransition s = None ->
  initialToFirstChild (setupHierarchy_state roots s).
Proof.
  intros Hr Hi. unfold initialToFirstChild. rewrite setupHierarchy_children.
  destruct s as [n pa en ex ts cs ii it]. simpl in *. destruct cs as [|c0 cs]; [exact Hi|].
  cbn [map]. rewrite setupHierarchy_name.
  match goal with
  | |- context [find ?f ?l] => destruct (find f l) as [c|] eqn:Ef
  end; [|reflexivity].
  exfalso. apply find_some in Ef as [_ Ef].
  apply existsb_exists in Ef as (r & Hin & Ef).
  apply existsb_exists in Ef as (t & Ht & Ef).
  apply andb_true_iff in Ef as [_ Ef].
  rewrite Forall_forall in Hr. specialize (Hr r (proj2 (list_elem_of_In _ _) Hin)).
  unfold wordEvents in Hr. rewrite Forall_forall in Hr.
  rewrite (no_init_event t (Hr t (proj2 (list_elem_of_In _ _) Ht))) in Ef. discriminate.
Qed.

Lemma roots_in_subtrees sts s : s ∈ sts -> s ∈ subtrees sts.
Proof.
  intros H. apply list_elem_of_In, in_flat_map. exists s.
  split; [apply list_elem_of_In, H|]. rewrite subtree_unfold. left. reflexivity.
Qed.

Section FirstChild.
Variable parseMetadata : string -> StateMachine -> StateMachine.
Hypothesis parseMetadata_states :
  forall content sm, states (parseMetadata content sm) = states sm.

Lemma parseStep_events st line :
  Forall wordEvents (subtrees (states (stateMachine (pl_parser st)))) ->
  Forall wordEvents
    (subtrees (states (stateMachine (pl_parser (parseStep parseMetadata st line))))).
Proof.
  intros H. unfold parseStep. cbv zeta.
  repeat match goal with
         | |- context [if ?c then _ else _] => destruct c; simpl; auto
         end.
  - rewrite parseMetadata_states. exact H.
  - apply parseLine_events, H.
Qed.

Lemma parseLoop_events lines : forall st,
  Forall wordEvents (subtrees (states (stateMachine (pl_parser st)))) ->
  Forall wordEvents
    (subtrees (states (stateMachine
       (pl_parser (fold_left (parseStep parseMetadata) lines st))))).
Proof.
  induction lines as [|l lines IH]; intros st H; simpl; [exact H|].
  apply IH, parseStep_events, H.
Qed.

Lemma parse_first_child content :
  Forall initialToFirstChild
    (subtrees (states (stateMachine (parse parseMetadata newParser content)))).
Proof.
  unfold parse, setupHierarchy. cbv zeta. rewrite with_states_states.
  set (st := fold_left (parseStep parseMetadata) (split "010" content)
               (MkParseLoop newParser false false "")).
  assert (He : Forall wordEvents (subtrees (states (stateMachine (pl_parser st))))).
  { apply parseLoop_events. constructor. }
  assert (Ht : treeInvariant (states (stateMachine (pl_parser st)))).
  { apply (parseLoop_tree parseMetadata parseMetadata_states).
    - intros r Hr. inversion Hr.
    - intros x Hx. inversion Hx.
    - repeat split; constructor. }
  destruct Ht as (_ & Hni & _).
  rewrite setupHierarchy_subtrees. apply Forall_map.
  eapply Forall_impl; [exact Hni|]. intros s Hs. simpl.
  apply setupHierarchy_first_child; [|exact Hs].
  apply Forall_forall. intros r Hr. rewrite Forall_forall in He.
  apply He, roots_in_subtrees, Hr.
Qed.
End FirstChild.

(** X24.  The events that the parser reads are made of word characters,
    so no transition of a parsed model is on [@Q_INIT_SIG], and the
    search of [setupHierarchy] for a child that such a transition
    targets never succeeds: in a freshly parsed model the initial
    transition of every state with children leads to its first child. *)
Theorem parsed_initial_is_first_child
    (parseMetadata : string -> StateMachine -> StateMachine)
    (parseMetadata_states :
       forall content sm, states (parseMetadata content sm) = states sm)
    (text : string) :
  Forall initialToFirstChild
    (subtrees (states (stateMachine (parse parseMetadata newParser text)))).
Proof. apply parse_first_child, parseMetadata_states. Qed.

Lemma parsed_initial_is_first_child_witness :
  Forall initialToFirstChild
    (subtrees (states (stateMachine (parse (fun _ sm => sm) newParser nestedTarget)))).
Proof.
  apply (parsed_initial_is_first_child (fun _ sm => sm) (fun _ _ => eq_refl) nestedTarget).
Defined.

(** ** Removing the metadata comment *)

Lemma litMatch_prefix l : forall s x, litMatch l s = Some x -> String.prefix l s = true.
Proof.
  induction l as [|a l IH]; intros s x; simpl; [destruct s; reflexivity|].
  destruct s as [|b s]; [discriminate|].
  destruct (Ascii.eqb a b) eqn:E; [|discriminate].
  apply Ascii.eqb_eq in E. subst b. intros H. simpl.
  destruct (ascii_dec a a); [eapply IH, H|congruence].
Qed.

Lemma hasChar_app c a b : hasChar c (a +:+ b) = hasChar c a || hasChar c b.
Proof.
  induction a as [|x a IH]; [reflexivity|]. rewrite app_cons. simpl. rewrite IH.
  apply orb_assoc.
Qed.

(** A literal that matches across the end of [u] either starts inside
    [u] and ends in it, or ends with a part that matches what follows. *)
Lemma litMatch_straddle l : forall u s x,
  litMatch l (u +:+ s) = Some x ->
  String.prefix l u = true
  \/ exists l2, l = u +:+ l2 /\ litMatch l2 s = Some x.
Proof.
  induction l as [|a l IH]; intros u s x H.
  - left. destruct u; reflexivity.
  - destruct u as [|b u].
    + right. exists (String a l). rewrite app_empty_l in H. auto.
    + rewrite app_cons in H. simpl in H.
      destruct (Ascii.eqb a b) eqn:E; [|discriminate].
      apply Ascii.eqb_eq in E. subst b.
      destruct (IH _ _ _ H) as [Hp|(l2 & -> & Hl)].
      * left. simpl. destruct (ascii_dec a a); [exact Hp|congruence].
      * right. exists l2. rewrite app_cons. auto.
Qed.

Lemma marker_not_inside a u rest x :
  includes (String a u) metadataMarker = false ->
  litMatch metadataMarker (String a u +:+ (metadataMarker +:+ rest)) = Some x -> False.
Proof.
  intros Hi H.
  assert (Hpre : String.prefix metadataMarker (String a u) = false).
  { change (includes (String a u) metadataMarker)
      with (String.prefix metadataMarker (String a u) || includes u metadataMarker) in Hi.
    apply orb_false_iff in Hi as [Hi _]. exact Hi. }
  clear Hi. apply litMatch_straddle in H as [Hp|(l2 & E & Hl)].
  - congruence.
  - destruct l2 as [|c l2].
    + rewrite app_empty_r in E. rewrite <- E in Hpre. vm_compute in Hpre. discriminate.
    + assert (Hc : c = "010"%char).
      { change (metadataMarker +:+ rest)
          with (String "010" ("%%{qp-metadata:" +:+ rest)) in Hl.
        simpl in Hl. destruct (Ascii.eqb c "010") eqn:Ec; [|discriminate].
        apply Ascii.eqb_eq, Ec. }
      subst c. rewrite app_cons in E.
      change metadataMarker with (String "010" "%%{qp-metadata:") in E.
      injection E as _ E. apply (f_equal (hasChar "010")) in E.
      rewrite hasChar_app in E. simpl hasChar at 3 in E.
      rewrite orb_true_r in E. vm_compute in E. discriminate.
Qed.

Lemma starLoop_last {R} (k : string -> option R) e w :
  is_Some (starLoop anyChar e k) ->
  starLoop anyChar (w +:+ e) k = starLoop anyChar e k.
Proof.
  intros [x Hx]. induction w as [|a w IH]; [reflexivity|].
  rewrite app_cons. simpl. rewrite IH, Hx. reflexivity.
Qed.

Lemma matchHere_comment pre json :
  exists cs,
    matchHere re_metadataComment pre (metadataComment json) = Some (MkMatch pre cs "").
Proof.
  unfold matchHere, re_metadataComment, metadataComment. cbn [body groups rmatch].
  change (newline +:+ "%%{qp-metadata:" +:+ newline +:+ json +:+ newline +:+ "}%%")
    with ((newline +:+ "%%{qp-metadata:") +:+ String "010" (json +:+ newline +:+ "}%%")).
  rewrite litMatch_app. cbn [anyChar].
  replace (json +:+ newline +:+ "}%%") with ((json +:+ newline) +:+ "}%%")
    by apply app_assoc_s.
  rewrite starLoop_last; [|eexists; reflexivity].
  eexists. reflexivity.
Qed.

Lemma searchFrom_here re pre s m :
  matchHere re pre s = Some m -> searchFrom re pre s = Some m.
Proof. intros H. destruct s; simpl; rewrite H; reflexivity. Qed.

Lemma search_no_marker d : forall pre,
  includes d metadataMarker = false -> searchFrom re_metadataComment pre d = None.
Proof.
  assert (Hm : forall pre s, String.prefix metadataMarker s = false ->
                             matchHere re_metadataComment pre s = None).
  { intros pre s Hp. unfold matchHere, re_metadataComment. cbn [body groups rmatch].
    destruct (litMatch (newline +:+ "%%{qp-metadata:") s) as [x|] eqn:E; [|reflexivity].
    apply litMatch_prefix in E. change (newline +:+ "%%{qp-metadata:") with metadataMarker in E.
    congruence. }
  induction d as [|a d IH]; intros pre Hi.
  - cbn [searchFrom]. rewrite Hm; reflexivity.
  - change (includes (String a d) metadataMarker)
      with (String.prefix metadataMarker (String a d) || includes d metadataMarker) in Hi.
    apply orb_false_iff in Hi as [Hp Hi].
    cbn [searchFrom]. rewrite (Hm _ _ Hp). apply IH, Hi.
Qed.

Lemma search_comment d json : forall pre,
  includes d metadataMarker = false ->
  exists cs,
    searchFrom re_metadataComment pre (d +:+ metadataComment json)
    = Some (MkMatch (pre +:+ d) cs "").
Proof.
  induction d as [|a d IH]; intros pre Hi.
  - rewrite app_empty_l, app_empty_r.
    destruct (matchHere_comment pre json) as [cs Hcs]. exists cs.
    apply searchFrom_here, Hcs.
  - assert (Hn : matchHere re_metadataComment pre (String a d +:+ metadataComment json)
                 = None).
    { unfold matchHere, re_metadataComment. cbn [body groups rmatch].
      destruct (litMatch _ _) as [x|] eqn:E; [|reflexivity]. exfalso.
      apply (marker_not_inside a d (newline +:+ json +:+ newline +:+ "}%%") x Hi).
      unfold metadataComment in E. rewrite <- !app_assoc_s in E.
      unfold metadataMarker. rewrite <- !app_assoc_s. exact E. }
    rewrite app_cons in *. cbn [searchFrom]. rewrite Hn.
    change (includes (String a d) metadataMarker)
      with (String.prefix metadataMarker (String a d) || includes d metadataMarker) in Hi.
    apply orb_false_iff in Hi as [_ Hi].
    destruct (IH (pre +:+ String a "") Hi) as [cs Hcs]. exists cs. rewrite Hcs.
    rewrite app_assoc_s. reflexivity.
Qed.

(** X25.  [reconstruct] returns a diagram without the opening of a
    metadata comment unchanged, and it removes the comment that
    [preprocess] builds for any metadata text when the comment is put
    after such a diagram. *)
Theorem reconstruct_removes_comment (d : string) :
  includes d metadataMarker = false ->
  reconstruct d = d
  /\ forall json, reconstruct (d +:+ metadataComment json) = d.
Proof.
  intros Hi. unfold reconstruct, replace, exec. cbn [anchored re_metadataComment].
  change (MkRegExp false 0
            (Seq (Lit (newline +:+ "%%{qp-metadata:")) (Seq (Plus anyChar) (Lit "}%%"))))
    with re_metadataComment.
  split.
  - rewrite search_no_marker; [reflexivity|exact Hi].
  - intros json. destruct (search_comment d json "" Hi) as [cs ->].
    cbn [before after]. rewrite app_empty_l, !app_empty_r. reflexivity.
Qed.

Lemma reconstruct_removes_comment_witness :
  reconstruct nestedTarget = nestedTarget
  /\ forall json, reconstruct (nestedTarget +:+ metadataComment json) = nestedTarget.
Proof.
  apply (reconstruct_removes_comment nestedTarget). vm_compute. reflexivity.
Defined.

(** ** Missing targets: no diagnostic, no missing target *)

Lemma findState_some_named n sts :
  isSome (findState n sts) = true -> n ∈ flat_map names_state sts.
Proof.
  rewrite findState_find. destruct (find (named n) (subtrees sts)) as [st|] eqn:E;
    [|discriminate].
  intros _. apply find_some in E as [Hin Hn]. apply String.eqb_eq in Hn. subst n.
  rewrite names_of_subtrees. apply list_elem_of_fmap. exists st.
  split; [reflexivity|apply list_elem_of_In, Hin].
Qed.

Lemma filter_nil_false {A} (f : A -> bool) l :
  List.filter f l = [] -> Forall (fun x => f x = false) l.
Proof.
  induction l as [|x l IH]; simpl; [constructor|].
  destruct (f x) eqn:E; [discriminate|]. intros H. constructor; auto.
Qed.

Lemma validateTransition_quiet sibs path ts it :
  Forall (fun d => isMissingTarget d = false) (validateTransition sibs path ts it) ->
  isSpecialTarget (target it.2) = true \/ isSome (findState (target it.2) sibs) = true.
Proof.
  unfold validateTransition. cbv zeta. intros H. apply Forall_app in H as [H _].
  destruct (isSpecialTarget (target it.2)); [left; reflexivity|right].
  destruct (isSome (findState (target it.2) sibs)); [reflexivity|].
  simpl in H. inversion H as [|? ? Hd _]; subst.
  unfold isMissingTarget in Hd. simpl in Hd. rewrite startsWith_app in Hd. discriminate.
Qed.

Lemma validateStateTransitions_quiet (N : string -> Prop) s : forall sibs p,
  (forall x, x ∈ flat_map names_state sibs -> N x) ->
  (forall x, x ∈ names_state s -> N x) ->
  Forall (fun d => isMissingTarget d = false) (validateStateTransitions_state sibs p s) ->
  forall q st t, (q, st) ∈ scoped_state p s -> t ∈ transitions st ->
                 isSpecialTarget (target t) = true \/ N (target t).
Proof.
  induction s as [s IH] using State_tree_ind. intros sibs p Hsibs Hs H q st t Hin Ht.
  rewrite names_state_unfold in Hs.
  destruct s as [n pa en ex ts cs ii it]. simpl in *.
  apply Forall_app in H as [H1 H2].
  apply elem_of_cons in Hin as [[= -> ->]|Hin].
  - simpl in Ht. apply list_elem_of_lookup in Ht as [i Hi].
    apply indexed_lookup in Hi. rewrite Forall_forall in H1.
    destruct (validateTransition_quiet sibs (dotted p n) ts (i, t)) as [Hsp|Hf].
    + apply Forall_forall. intros d Hd. apply H1.
      apply list_elem_of_In, in_flat_map. exists (i, t).
      split; apply list_elem_of_In; assumption.
    + left. exact Hsp.
    + right. apply Hsibs, findState_some_named, Hf.
  - apply list_elem_of_In, in_flat_map in Hin as (c & Hc & Hin).
    rewrite Forall_forall in IH.
    apply (IH c (proj2 (list_elem_of_In _ _) Hc) cs (dotted p n)) with (q := q) (st := st).
    + intros x Hx. apply Hs. right. exact Hx.
    + intros x Hx. apply Hs. right. apply list_elem_of_In, in_flat_map. exists c.
      split; [exact Hc|apply list_elem_of_In, Hx].
    + apply Forall_forall. intros d Hd. rewrite Forall_forall in H2. apply H2.
      apply list_elem_of_In, in_flat_map. exists c.
      split; [exact Hc|apply list_elem_of_In, Hd].
    + apply list_elem_of_In, Hin.
    + exact Ht.
Qed.

(** X26.  When the validator reports no missing transition target, every
    transition of the tree has a target that is special or is the name
    of a state of the tree. *)
Theorem quiet_validator_targets_exist (sm : StateMachine) (errs : list ValidationError) :
  validate sm = Some errs ->
  List.filter isMissingTarget errs = [] ->
  forall q s t,
    (q, s) ∈ scoped "" (states sm) -> t ∈ transitions s ->
    isSpecialTarget (target t) = true \/ target t ∈ namesOf (states sm).
Proof.
  destruct (validate_parts sm) as (v & Hv & ->). intros [= <-].
  intros Hq q s t Hin Ht. apply filter_nil_false in Hq.
  apply Forall_app in Hq as [_ Hq]. apply Forall_app in Hq as [_ Hq].
  apply Forall_app in Hq as [_ Hq]. apply Forall_app in Hq as [Hq _].
  unfold validateTransitions, validateStateTransitions in Hq.
  unfold scoped in Hin. apply list_elem_of_In, in_flat_map in Hin as (r & Hr & Hin).
  rewrite namesOf_names.
  apply (validateStateTransitions_quiet
           (fun x => x ∈ flat_map names_state (states sm)) r (states sm) "")
    with (q := q) (st := s).
  - auto.
  - intros x Hx. apply list_elem_of_In, in_flat_map. exists r.
    split; [exact Hr|apply list_elem_of_In, Hx].
  - apply Forall_forall. intros d Hd. rewrite Forall_forall in Hq. apply Hq.
    apply list_elem_of_In, in_flat_map. exists r. split; [exact Hr|apply list_elem_of_In, Hd].
  - apply list_elem_of_In, Hin.
  - exact Ht.
Qed.

Lemma quiet_validator_targets_exist_witness :
  isSpecialTarget "B" = true \/ "B" ∈ namesOf (states tieBreak).
Proof.
  destruct (validate tieBreak) as [errs|] eqn:E; [|vm_compute in E; discriminate].
  apply (quiet_validator_targets_exist tieBreak errs E) with
    (q := "A")
    (s := MkState "B" (Some "A") [] [] [MkTransition "EV" "B" None None None] [] None None)
    (t := MkTransition "EV" "B" None None None).
  - vm_compute in E. injection E as <-. vm_compute. reflexivity.
  - right. left.
  - left.
Defined.

(** ** The validator after the resolver *)

Lemma setup_has_initial s : lacksInitial ("", setupInitialTransitions_state s) = false.
Proof.
  unfold lacksInitial. destruct s as [n pa en ex ts cs ii it]. simpl.
  destruct cs as [|c cs]; [reflexivity|]. simpl.
  destruct it as [t|]; [reflexivity|].
  destruct (initialChild_some c cs) as [x ->]. reflexivity.
Qed.

(** X27.  After the resolution pass every state with children has an
    initial transition, so the validator reports no composite state
    without initial transition on a resolved model, whatever the model
    was before. *)
Theorem resolved_model_has_initials (m : gmap string State) (sm : StateMachine) :
  exists errs,
    validate (parseHierarchicalStates m sm).2 = Some errs
    /\ List.filter isMissingInitial errs = [].
Proof.
  destruct (validate_total (parseHierarchicalStates m sm).2) as [errs He].
  exists errs. split; [exact He|].
  rewrite (validate_missing_initial _ _ He), filter_none; [reflexivity|].
  unfold parseHierarchicalStates. cbn [snd]. rewrite set_states_states, scoped_pass.
  apply Forall_forall. intros ps Hps. apply list_elem_of_fmap in Hps as ([q s] & -> & _).
  apply (setup_has_initial (resolveTransitions_state _ q s)).
Qed.
